(** * Calling FORTRAN subroutines from Python: the notebook's calling convention

    The notebook compiles three small FORTRAN units with gfortran, loads the
    shared objects with [ctypes] / [numpy.ctypeslib], and calls the routines
    with every argument passed by reference.  This development embeds

    - the FORTRAN subroutines ([square], [square_root], the array [square]
      and its ISO_C_BINDING wrapper [wrapper_square]) as functions on a
      native memory of 4-byte cells, with IEEE-754 single precision
      arithmetic taken from [SpecFloat] (precision 24, [emax] 128);
    - the dynamic symbol tables printed by [readelf --symbols] and the
      exact-name lookup done by attribute access on a loaded library;
    - the foreign call itself, with the default [c_int] result type;
    - numpy's memory-order conversion of a multi-dimensional buffer;
    - the double precision routine [sq1] of the last [subroutines.f90], on
      a memory of 8-byte reals.

    The definitions come first; the lemmas about them follow. *)

From Stdlib Require Import ZArith Reals Lra Lia List String Bool Permutation.
From Stdlib Require Import Floats.SpecFloat.
From stdpp Require Import gmap strings.
Import ListNotations.
Local Open Scope Z_scope.

(** ** Single precision arithmetic *)

(** gfortran's default [real] and C's [float]: IEEE-754 binary32. *)
Definition prec32 : Z := 24.
Definition emax32 : Z := 128.

(** [a**2] on a [real]: one rounded multiplication. *)
Definition f32_square (a : spec_float) : spec_float := SFmul prec32 emax32 a a.

(** [SQRT(b)] on a [real]. *)
Definition f32_sqrt (b : spec_float) : spec_float := SFsqrt prec32 emax32 b.

(** [ctypes.c_float(v)] for a Python float [v] (binary64): the C conversion
    from [double] to [float], rounding to nearest even; zeros, infinities
    and NaN are kept. *)
Definition c_float_of_double (v : spec_float) : spec_float :=
  match v with
  | S754_finite s m e => binary_round prec32 emax32 s m e
  | _ => v
  end.

(** Comparison with zero, as [x >= 0] and [x < 0] on floating-point values. *)
Definition f32_nonneg (x : spec_float) : bool := SFleb (S754_zero false) x.
Definition f32_neg (x : spec_float) : bool := SFltb x (S754_zero false).

(** Real value of a floating-point datum (zero for the non-finite ones). *)
Definition pow2 (e : Z) : R := powerRZ 2 e.

Definition SF2R (f : spec_float) : R :=
  match f with
  | S754_finite s m e => (IZR (cond_Zopp s (Zpos m)) * pow2 e)%R
  | _ => 0%R
  end.

Definition sign_factor (s : bool) : R := if s then (-1)%R else 1%R.

Definition is_finite_SF (f : spec_float) : bool :=
  match f with
  | S754_finite _ _ _ | S754_zero _ => true
  | _ => false
  end.

Definition is_zero_SF (f : spec_float) : bool :=
  match f with
  | S754_zero _ => true
  | _ => false
  end.

Definition is_normal_SF (prec : Z) (f : spec_float) : bool :=
  match f with
  | S754_finite _ m _ => Z.eqb (Zpos (digits2_pos m)) prec
  | _ => false
  end.

(** [r] is within rounding tolerance of the exact value [X]: a relative error
    of at most [2^-prec], or, for [X] below the normal range, an absolute
    error of at most half the smallest subnormal. *)
Definition within_rounding (prec emax : Z) (X r : R) : Prop :=
  (Rabs (r - X) <= pow2 (- prec) * Rabs X)%R \/
  ((Rabs X < pow2 (emin prec emax + prec - 1))%R /\
   (Rabs (r - X) <= pow2 (emin prec emax - 1))%R).

(** The tolerance used for a value that went through the single precision
    box: the box holds a finite number, off by at most [rel * |X|] plus one
    smallest subnormal ([2^-149]). *)
Definition within_tolerance32 (rel : R) (X : R) (r : spec_float) : Prop :=
  is_finite_SF r = true /\
  (Rabs (SF2R r - X) <= rel * Rabs X + pow2 (-149))%R.

(** The least real that single precision rounds to infinity: the middle
    between the largest single precision number, [(2^24 - 1) * 2^104], and
    [2^128]. *)
Definition overflow_threshold32 : R := (pow2 128 - pow2 103)%R.

(** [r] is the square of [x] as a format of precision [prec] holds it, said
    over the reals and without the multiplication of the format: NaN for
    NaN, [+infinity] for an infinity, [+0] for a zero; for a finite [x] a
    number that is not NaN and is either finite and within rounding
    tolerance of the exact [x * x], or [+infinity]. *)
Definition is_rounded_square (prec emax : Z) (x r : spec_float) : Prop :=
  match x with
  | S754_nan => r = S754_nan
  | S754_infinity _ => r = S754_infinity false
  | S754_zero _ => r = S754_zero false
  | S754_finite _ _ _ =>
      r <> S754_nan /\
      (is_finite_SF r = true -> within_rounding prec emax (SF2R x * SF2R x) (SF2R r)) /\
      (is_finite_SF r = false -> r = S754_infinity false)
  end.

(** [v] is [x] converted to a format of precision [prec], said over the
    reals: a zero, an infinity or NaN is kept; a finite [x] becomes a number
    that is not NaN and is either finite and within rounding tolerance of
    [x], or the infinity of the sign of [x]. *)
Definition is_rounded_value (prec emax : Z) (x v : spec_float) : Prop :=
  match x with
  | S754_finite s _ _ =>
      v <> S754_nan /\
      (is_finite_SF v = true -> within_rounding prec emax (SF2R x) (SF2R v)) /\
      (is_finite_SF v = false -> v = S754_infinity s)
  | _ => v = x
  end.

(** Auxiliary data of the rounding proofs: where a real sits relative to the
    mantissa and the round and sticky bits of a shift record. *)
Definition inbetween (x : R) (mrs : shr_record) : Prop :=
  0 <= shr_m mrs /\
  match shr_r mrs, shr_s mrs with
  | false, false => x = IZR (shr_m mrs)
  | false, true => (IZR (shr_m mrs) < x < IZR (shr_m mrs) + /2)%R
  | true, false => x = (IZR (shr_m mrs) + /2)%R
  | true, true => (IZR (shr_m mrs) + /2 < x < IZR (shr_m mrs) + 1)%R
  end.

(** The last step of [binary_round_aux], on its own. *)
Definition round_result (prec emax : Z) (s : bool) (z e : Z) : spec_float :=
  match z with
  | Z0 => S754_zero s
  | Zpos p => if Z.leb e (emax - prec) then S754_finite s p e else S754_infinity s
  | Zneg _ => S754_nan
  end.

(** ** Native memory *)

(** One cell per 4-byte word: a [real] or an [integer].  Addresses count
    words.  A routine that reads a cell of the other kind, or a word that is
    not allocated, has no defined behaviour: the model returns [None]. *)
Inductive cell :=
| CReal (x : spec_float)
| CInt (n : Z).

Definition read_real (m : gmap Z cell) (p : Z) : option spec_float :=
  match m !! p with
  | Some (CReal x) => Some x
  | _ => None
  end.

Definition read_int (m : gmap Z cell) (p : Z) : option Z :=
  match m !! p with
  | Some (CInt n) => Some n
  | _ => None
  end.

(** [x = f(x)] on the [real] at address [p]. *)
Definition update_real (f : spec_float -> spec_float) (p : Z) (m : gmap Z cell)
  : option (gmap Z cell) :=
  match read_real m p with
  | Some x => Some (<[p := CReal (f x)]> m)
  | None => None
  end.

(** [do i = lo, lo + n - 1]: the body is run for each index in turn. *)
Fixpoint do_loop (n : nat) (body : Z -> gmap Z cell -> option (gmap Z cell))
  (lo : Z) (m : gmap Z cell) : option (gmap Z cell) :=
  match n with
  | O => Some m
  | S n' =>
      match body lo m with
      | Some m' => do_loop n' body (lo + 1) m'
      | None => None
      end
  end.

(** [do i = lo, hi]; no iteration when [hi < lo]. *)
Definition fortran_do (lo hi : Z) (body : Z -> gmap Z cell -> option (gmap Z cell))
  (m : gmap Z cell) : option (gmap Z cell) :=
  do_loop (Z.to_nat (hi - lo + 1)) body lo m.

(** Address of [a(i,j)] for [real, dimension(ij,ik) :: a]: column-major,
    indices from 1. *)
Definition elem_addr (a ij i j : Z) : Z := a + (i - 1) + (j - 1) * ij.

(** All of [p], [p+1], ..., [p+n-1] hold a [real]. *)
Definition real_buffer (m : gmap Z cell) (p : Z) (n : nat) : bool :=
  forallb (fun k => match read_real m (p + Z.of_nat k) with
                    | Some _ => true
                    | None => false
                    end) (seq 0 n).

(** ** The FORTRAN units *)

(** First [subroutines.f90]:
<<
SUBROUTINE square(a)        SUBROUTINE square_root(b)
    real :: a                   real :: b
    a = a**2                    b = SQRT(b)
>>
    The dummy argument is the address of the caller's [real]. *)
Module SubroutinesScalar.

Definition square (a : Z) (m : gmap Z cell) : option (gmap Z cell) :=
  update_real f32_square a m.

Definition square_root (b : Z) (m : gmap Z cell) : option (gmap Z cell) :=
  update_real f32_sqrt b m.

End SubroutinesScalar.

(** Second [subroutines.f90]:
<<
SUBROUTINE square(a,ij,ik)
    integer :: ij,ik
    real, dimension(ij,ik) :: a
    a = a**2
>>
    [a] is the address of the first element, [ij] and [ik] the addresses of
    the two extents.  The array assignment visits every element of the
    [ij] by [ik] array. *)
Module SubroutinesArray.

Definition square (a ij ik : Z) (m : gmap Z cell) : option (gmap Z cell) :=
  match read_int m ij, read_int m ik with
  | Some nij, Some nik =>
      fortran_do 1 nik
        (fun j => fortran_do 1 nij
           (fun i => update_real f32_square (elem_addr a nij i j))) m
  | _, _ => None
  end.

End SubroutinesArray.

(** [wrappers.f90]:
<<
SUBROUTINE wrapper_square(a,ij,ik) bind(c, name='wrapper_square')
    integer(c_int) :: ij,ik
    real(c_float), dimension(ij,ik) :: a
    call square(a,ij,ik)
>>
    The three dummies are passed on by reference. *)
Module Wrappers.

Definition wrapper_square (a ij ik : Z) (m : gmap Z cell) : option (gmap Z cell) :=
  SubroutinesArray.square a ij ik m.

End Wrappers.

(** ** Shared objects and their dynamic symbols *)

(** One line of [readelf --symbols]. *)
Inductive sym_type := NOTYPE | FUNC | SECTION | FILE | OBJECT.
Inductive sym_bind := LOCAL | GLOBAL | WEAK.
Inductive sym_ndx := UND | ABS | Ndx (n : Z).

Record elf_sym := {
  st_value : Z;
  st_size : Z;
  st_type : sym_type;
  st_bind : sym_bind;
  st_ndx : sym_ndx;
  st_name : string
}.

(** A compiled routine: the addresses it is given and the memory it works on. *)
Definition routine : Type := list Z -> gmap Z cell -> option (gmap Z cell).

(** A loaded shared object: its [.dynsym] table and the code found at the
    entry addresses. *)
Record shared_unit := {
  dynsym : list elf_sym;
  text : Z -> option routine
}.

(** [.dynsym] of [subroutines.so] built from the first [subroutines.f90]. *)
Definition dynsym_scalar : list elf_sym :=
  [ Build_elf_sym 0x0 0 NOTYPE LOCAL UND EmptyString;
    Build_elf_sym 0x0 0 NOTYPE WEAK UND "__cxa_finalize";
    Build_elf_sym 0x0 0 NOTYPE WEAK UND "_ITM_registerTMCloneTable";
    Build_elf_sym 0x0 0 NOTYPE WEAK UND "_ITM_deregisterTMCloneTab";
    Build_elf_sym 0x0 0 NOTYPE WEAK UND "__gmon_start__";
    Build_elf_sym 0x201020 0 NOTYPE GLOBAL (Ndx 18) "_edata";
    Build_elf_sym 0x201028 0 NOTYPE GLOBAL (Ndx 19) "_end";
    Build_elf_sym 0x5b9 31 FUNC GLOBAL (Ndx 9) "square_root_";
    Build_elf_sym 0x488 0 FUNC GLOBAL (Ndx 6) "_init";
    Build_elf_sym 0x201020 0 NOTYPE GLOBAL (Ndx 19) "__bss_start";
    Build_elf_sym 0x5d8 0 FUNC GLOBAL (Ndx 10) "_fini";
    Build_elf_sym 0x59a 31 FUNC GLOBAL (Ndx 9) "square_" ].

(** [.dynsym] of [subroutines.so] built from [wrappers.f90] and the second
    [subroutines.f90]. *)
Definition dynsym_wrappers : list elf_sym :=
  [ Build_elf_sym 0x0 0 NOTYPE LOCAL UND EmptyString;
    Build_elf_sym 0x0 0 NOTYPE WEAK UND "__cxa_finalize";
    Build_elf_sym 0x0 0 NOTYPE WEAK UND "_ITM_registerTMCloneTable";
    Build_elf_sym 0x0 0 NOTYPE WEAK UND "_ITM_deregisterTMCloneTab";
    Build_elf_sym 0x0 0 NOTYPE WEAK UND "__gmon_start__";
    Build_elf_sym 0x201028 0 NOTYPE GLOBAL (Ndx 19) "_edata";
    Build_elf_sym 0x201030 0 NOTYPE GLOBAL (Ndx 20) "_end";
    Build_elf_sym 0x4a0 0 FUNC GLOBAL (Ndx 7) "_init";
    Build_elf_sym 0x5ca 123 FUNC GLOBAL (Ndx 10) "wrapper_square";
    Build_elf_sym 0x201028 0 NOTYPE GLOBAL (Ndx 20) "__bss_start";
    Build_elf_sym 0x70c 0 FUNC GLOBAL (Ndx 11) "_fini";
    Build_elf_sym 0x645 196 FUNC GLOBAL (Ndx 10) "square_" ].

(** The routine behind an entry address takes as many addresses as the
    subroutine has dummies. *)
Definition routine1 (f : Z -> gmap Z cell -> option (gmap Z cell)) : routine :=
  fun args m => match args with
                | [a] => f a m
                | _ => None
                end.

Definition routine3 (f : Z -> Z -> Z -> gmap Z cell -> option (gmap Z cell)) : routine :=
  fun args m => match args with
                | [a; b; c] => f a b c m
                | _ => None
                end.

Definition subroutines_so_scalar : shared_unit :=
  {| dynsym := dynsym_scalar;
     text := fun h =>
       if Z.eqb h 0x59a then Some (routine1 SubroutinesScalar.square)
       else if Z.eqb h 0x5b9 then Some (routine1 SubroutinesScalar.square_root)
       else None |}.

Definition subroutines_so_wrappers : shared_unit :=
  {| dynsym := dynsym_wrappers;
     text := fun h =>
       if Z.eqb h 0x5ca then Some (routine3 Wrappers.wrapper_square)
       else if Z.eqb h 0x645 then Some (routine3 SubroutinesArray.square)
       else None |}.

(** The subroutines each source file declares, with the external name of
    those that carry [bind(c, name=...)]. *)
Record subroutine_decl := {
  sub_name : string;
  sub_bind_name : option string
}.

Definition subroutines_f90_scalar : list subroutine_decl :=
  [ {| sub_name := "square"; sub_bind_name := None |};
    {| sub_name := "square_root"; sub_bind_name := None |} ].

Definition subroutines_f90_array : list subroutine_decl :=
  [ {| sub_name := "square"; sub_bind_name := None |} ].

Definition wrappers_f90 : list subroutine_decl :=
  [ {| sub_name := "wrapper_square"; sub_bind_name := Some "wrapper_square" |} ].

(** The naming rule as the specification words it: the declared external
    name when there is one, else the declared name and one underscore. *)
Definition exported_symbol_spec (d : subroutine_decl) : string :=
  match sub_bind_name d with
  | Some n => n
  | None => sub_name d ++ "_"
  end.

(** Names of the functions a table defines with code of its own (the
    zero-sized [_init] and [_fini] come from the C runtime). *)
Definition is_defined (s : elf_sym) : bool :=
  match st_ndx s with
  | UND => false
  | _ => true
  end.

Definition is_func (s : elf_sym) : bool :=
  match st_type s with
  | FUNC => true
  | _ => false
  end.

Definition is_exported (s : elf_sym) : bool :=
  match st_bind s with
  | LOCAL => false
  | _ => true
  end.

Definition defined_routines (tab : list elf_sym) : list string :=
  map st_name
    (filter (fun s => is_func s && is_exported s && is_defined s && Z.ltb 0 (st_size s)) tab).

(** ** Looking a routine up and calling it through ctypes *)

(** The loader's lookup in the table of one object: the first defined,
    non-local symbol with exactly this name gives the entry address.  The
    search through the objects a unit depends on is [dlsym_tree] below. *)
Definition dlsym (tab : list elf_sym) (name : string) : option Z :=
  match find (fun s => String.eqb (st_name s) name && is_exported s && is_defined s) tab with
  | Some s => Some (st_value s)
  | None => None
  end.

Inductive py_exception := AttributeError | IndexError.

(** [lib.name] on a [ctypes.CDLL], for the routines of the unit itself: the
    attribute is resolved by symbol lookup under the name as written, and
    the unit's own table is searched first.  What attribute access does
    with the names the unit does not define (attributes of the Python
    object, symbols of the objects the unit depends on) is
    [CDLL_getattribute] below; for a name the unit defines the two agree. *)
Definition CDLL_getattr (lib : shared_unit) (name : string) : py_exception + Z :=
  match dlsym (dynsym lib) name with
  | Some h => inr h
  | None => inl AttributeError
  end.

Inductive py_value := PyNone | PyInt (n : Z).

(** What a foreign call gives back when no result type was declared: the
    low 32 bits of the integer return register, read as a C [int]. *)
Definition c_int_of_register (r : Z) : Z :=
  let u := r mod 2 ^ 32 in
  if Z.ltb u (2 ^ 31) then u else u - 2 ^ 32.

Inductive call_result :=
| Raised (e : py_exception)
| Undefined
| Returned (v : py_value) (m : gmap Z cell).

(** Calling a function pointer obtained from the library.  A subroutine sets
    no result; [eax] is what its code left in the return register. *)
Definition call_funcptr (lib : shared_unit) (h : Z) (args : list Z) (eax : Z)
  (m : gmap Z cell) : call_result :=
  match text lib h with
  | Some f =>
      match f args m with
      | Some m' => Returned (PyInt (c_int_of_register eax)) m'
      | None => Undefined
      end
  | None => Undefined
  end.

(** [lib.name(args)]. *)
Definition invoke (lib : shared_unit) (name : string) (args : list Z) (eax : Z)
  (m : gmap Z cell) : call_result :=
  match CDLL_getattr lib name with
  | inl e => Raised e
  | inr h => call_funcptr lib h args eax m
  end.

(** Memory left by a call, when it returned. *)
Definition memory_after (r : call_result) : option (gmap Z cell) :=
  match r with
  | Returned _ m => Some m
  | _ => None
  end.

(** ** Attribute access, with the objects the unit depends on *)

(** [dlsym(handle, name)] as the dynamic loader does it: the tables of the
    object and of the objects it needs ([libgfortran], [libm], [libc], ...)
    are searched in load order, the object itself first.  The result names
    the object by its place in that order and gives the value of the symbol
    there.  The tables of the needed objects are not in the notebook: they
    are a parameter. *)
Fixpoint dlsym_tree (tabs : list (list elf_sym)) (name : string) : option (nat * Z) :=
  match tabs with
  | [] => None
  | tab :: rest =>
      match dlsym tab name with
      | Some v => Some (0%nat, v)
      | None =>
          match dlsym_tree rest name with
          | Some (k, v) => Some (S k, v)
          | None => None
          end
      end
  end.

(** A name of the form [__x__], which [CDLL.__getattr__] refuses without
    looking it up. *)
Definition is_dunder (name : string) : bool :=
  String.prefix "__" name && String.prefix "__" (String.rev name).

Inductive attribute :=
| OwnAttribute
| NoAttribute
| Function (obj : nat) (value : Z).

(** [lib.name] in full.  Python first looks among the attributes the
    object has of its own ([attrs]: [_handle], [_name], the methods, ...)
    and gives that attribute without any symbol lookup; only when there is
    none [CDLL.__getattr__] runs: it raises [AttributeError] for a name of
    the form [__x__], and else looks the name up as it is written, raising
    [AttributeError] when no object defines it. *)
Definition CDLL_getattribute (attrs : list string) (tabs : list (list elf_sym))
  (name : string) : attribute :=
  if existsb (String.eqb name) attrs then OwnAttribute
  else if is_dunder name then NoAttribute
  else match dlsym_tree tabs name with
       | Some (k, v) => Function k v
       | None => NoAttribute
       end.

(** ** The scalar cells of the notebook *)

(** [python_float] is the Python variable; [ctypes_float] is the address of
    the [c_float] object's storage, which [ctypes.pointer] points to. *)
Record scalar_session := {
  python_float : spec_float;
  ctypes_float : Z;
  native : gmap Z cell
}.

(** [ctypes_float = ctypes.c_float(python_float)], stored at [p]. *)
Definition box_scalar (p : Z) (x : spec_float) (m : gmap Z cell) : scalar_session :=
  {| python_float := x;
     ctypes_float := p;
     native := <[p := CReal (c_float_of_double x)]> m |}.

(** [_ = fortran_routines.name(ctypes_pointer)]. *)
Definition call_by_reference (lib : shared_unit) (name : string) (eax : Z)
  (s : scalar_session) : option scalar_session :=
  match invoke lib name [ctypes_float s] eax (native s) with
  | Returned _ m' =>
      Some {| python_float := python_float s;
              ctypes_float := ctypes_float s;
              native := m' |}
  | _ => None
  end.

(** [ctypes_pointer.contents]. *)
Definition contents (s : scalar_session) : option spec_float :=
  read_real (native s) (ctypes_float s).

(** ** Memory order of numpy buffers *)

Inductive mem_order := C_order | F_order.

Record ndarray (A : Type) := {
  shape : list nat;
  order : mem_order;
  buffer : list A
}.
Arguments shape {A} _.
Arguments order {A} _.
Arguments buffer {A} _.

Definition size (shp : list nat) : nat := fold_right Nat.mul 1%nat shp.

(** Position of the element with multi-index [idx]: last index fastest
    (row-major) or first index fastest (column-major). *)
Fixpoint offset_C (shp idx : list nat) : nat :=
  match shp, idx with
  | _ :: shp', i :: idx' => (i * size shp' + offset_C shp' idx')%nat
  | _, _ => 0%nat
  end.

Fixpoint offset_F (shp idx : list nat) : nat :=
  match shp, idx with
  | n :: shp', i :: idx' => (i + n * offset_F shp' idx')%nat
  | _, _ => 0%nat
  end.

(** Multi-index of the element at position [k]. *)
Fixpoint index_C (shp : list nat) (k : nat) : list nat :=
  match shp with
  | [] => []
  | _ :: shp' => (k / size shp')%nat :: index_C shp' (k mod size shp')%nat
  end.

Fixpoint index_F (shp : list nat) (k : nat) : list nat :=
  match shp with
  | [] => []
  | n :: shp' => (k mod n)%nat :: index_F shp' (k / n)%nat
  end.

(** New buffer of [n] elements whose position [k] is filled from position
    [src k] of the old one. *)
Definition gather {A : Type} (src : nat -> nat) (n : nat) (buf : list A) : list A :=
  match buf with
  | [] => []
  | d :: _ => map (fun k => nth (src k) buf d) (seq 0 n)
  end.

(** [np.asfortranarray(a, dtype=...)] on an array of at least one
    dimension: column-major copy, each element converted by [cast].  (numpy
    gives a 0-d array the shape [(1,)]; that case is not modelled, and the
    shape is kept as it is.) *)
Definition asfortranarray {A B : Type} (cast : A -> B) (a : ndarray A) : ndarray B :=
  {| shape := shape a;
     order := F_order;
     buffer :=
       map cast
         match order a with
         | F_order => buffer a
         | C_order =>
             gather (fun k => offset_C (shape a) (index_F (shape a) k))
               (size (shape a)) (buffer a)
         end |}.

(** [np.ascontiguousarray(a, dtype=...)]: the row-major counterpart, with
    the same restriction to arrays of at least one dimension. *)
Definition ascontiguousarray {A B : Type} (cast : A -> B) (a : ndarray A) : ndarray B :=
  {| shape := shape a;
     order := C_order;
     buffer :=
       map cast
         match order a with
         | C_order => buffer a
         | F_order =>
             gather (fun k => offset_F (shape a) (index_C (shape a) k))
               (size (shape a)) (buffer a)
         end |}.

(** [a[idx]]. *)
Definition getitem {A : Type} (a : ndarray A) (idx : list nat) : option A :=
  nth_error (buffer a)
    (match order a with
     | C_order => offset_C (shape a) idx
     | F_order => offset_F (shape a) idx
     end).

(** [idx] is a valid multi-index for [shp]. *)
Fixpoint valid_index (shp idx : list nat) : bool :=
  match shp, idx with
  | [], [] => true
  | n :: shp', i :: idx' => Nat.ltb i n && valid_index shp' idx'
  | _, _ => false
  end.

(** ** The array cells of the notebook *)

(** A Python float written in decimal, [m / 10^digits], correctly rounded
    to binary64. *)
Definition double_of_decimal (m : positive) (digits : Z) : spec_float :=
  SFdiv 53 1024
    (binary_normalize 53 1024 (Zpos m) 0 false)
    (binary_normalize 53 1024 (10 ^ digits) 0 false).

(** Python floats used as examples: [python_float = 4.0], and two values the
    single precision range cannot square. *)
Definition double_4 : spec_float := S754_finite false 4503599627370496 (-50).
Definition double_1e30 : spec_float := binary_normalize 53 1024 (10 ^ 30) 0 false.
Definition single_1e30 : spec_float := c_float_of_double double_1e30.

(** [target_array] as the notebook printed it. *)
Definition target_array_printed : ndarray spec_float :=
  {| shape := [2%nat; 2%nat];
     order := C_order;
     buffer := [ double_of_decimal 33141847 8; double_of_decimal 84538779 8;
                 double_of_decimal 11465003 8; double_of_decimal 90672487 8 ] |}.

(** The elements of a single precision buffer, laid out from address [p]. *)
Fixpoint store_reals (p : Z) (l : list spec_float) (m : gmap Z cell) : gmap Z cell :=
  match l with
  | [] => m
  | x :: l' => <[p := CReal x]> (store_reals (p + 1) l' m)
  end.

(** [np.array(n, dtype=np.int32)] for a Python integer [n]: a 0-d array
    holding [n], when a 32-bit signed integer holds it.  Outside that range
    numpy wraps the value around or raises [OverflowError], depending on
    its version: no value is given. *)
Definition np_int32 (n : Z) : option Z :=
  if Z.leb (- 2 ^ 31) n && Z.ltb n (2 ^ 31) then Some n else None.

(** [target_array.shape[k]]: [IndexError] when the array has no such
    dimension. *)
Definition shape_item {A : Type} (arr : ndarray A) (k : nat) : py_exception + nat :=
  match nth_error (shape arr) k with
  | Some n => inr n
  | None => inl IndexError
  end.

(** The cells
<<
target_array = np.asfortranarray(target_array, dtype=np.float32)
ik = np.array(target_array.shape[0], dtype=np.int32)
ij = np.array(target_array.shape[1], dtype=np.int32)
>>
    once both extents [n0] and [n1] were read from the shape: the buffer is
    at [a] and the two 0-d integer arrays are at [ik] and [ij]. *)
Definition array_memory (a ik ij : Z) (arr : ndarray spec_float) (n0 n1 : nat)
  : option (gmap Z cell) :=
  match np_int32 (Z.of_nat n0), np_int32 (Z.of_nat n1) with
  | Some v0, Some v1 =>
      Some (<[ij := CInt v1]>
              (<[ik := CInt v0]>
                 (store_reals a (buffer (asfortranarray c_float_of_double arr)) ∅)))
  | _, _ => None
  end.

(** Those cells followed by
<<
fortran_routines(target_array.ctypes, ik.ctypes, ij.ctypes)
>>
    An array with fewer than two dimensions raises [IndexError] before the
    call; when an extent does not fit [np.int32] no outcome is given. *)
Definition array_call (lib : shared_unit) (name : string) (a ik ij : Z)
  (arr : ndarray spec_float) (eax : Z) : call_result :=
  match shape_item arr 0, shape_item arr 1 with
  | inr n0, inr n1 =>
      match array_memory a ik ij arr n0 n1 with
      | Some m => invoke lib name [a; ik; ij] eax m
      | None => Undefined
      end
  | inl e, _ => Raised e
  | _, inl e => Raised e
  end.

(** ** The double precision unit *)

(** [real(c_double)] and C's [double]: IEEE-754 binary64. *)
Definition prec64 : Z := 53.
Definition emax64 : Z := 1024.

(** [a**2] on a [real(c_double)]: one rounded multiplication. *)
Definition f64_square (a : spec_float) : spec_float := SFmul prec64 emax64 a a.

(** Memory holding [real(c_double)] and [integer(c_int)] objects, keyed by
    the byte address of the object: a [real(c_double)] takes 8 bytes, so the
    elements of an array are 8 apart.  Reading an object of the other kind,
    or an address that holds none, has no defined behaviour. *)
Inductive cell64 :=
| DReal (x : spec_float)
| DInt (n : Z).

Definition read_double (m : gmap Z cell64) (p : Z) : option spec_float :=
  match m !! p with
  | Some (DReal x) => Some x
  | _ => None
  end.

Definition read_c_int (m : gmap Z cell64) (p : Z) : option Z :=
  match m !! p with
  | Some (DInt n) => Some n
  | _ => None
  end.

Definition update_double (f : spec_float -> spec_float) (p : Z) (m : gmap Z cell64)
  : option (gmap Z cell64) :=
  match read_double m p with
  | Some x => Some (<[p := DReal (f x)]> m)
  | None => None
  end.

Fixpoint do_loop64 (n : nat) (body : Z -> gmap Z cell64 -> option (gmap Z cell64))
  (lo : Z) (m : gmap Z cell64) : option (gmap Z cell64) :=
  match n with
  | O => Some m
  | S n' =>
      match body lo m with
      | Some m' => do_loop64 n' body (lo + 1) m'
      | None => None
      end
  end.

Definition fortran_do64 (lo hi : Z) (body : Z -> gmap Z cell64 -> option (gmap Z cell64))
  (m : gmap Z cell64) : option (gmap Z cell64) :=
  do_loop64 (Z.to_nat (hi - lo + 1)) body lo m.

(** Byte address of [a(i,j)] for [real(c_double), dimension(ij,ik) :: a]. *)
Definition elem_addr64 (a ij i j : Z) : Z := a + 8 * ((i - 1) + (j - 1) * ij).

(** Third [subroutines.f90]:
<<
SUBROUTINE sq1(a,ij,ik)
    use iso_c_binding, only: c_int, c_double
    integer(c_int) :: ij,ik
    real(c_double), dimension(ij,ik) :: a
    a(:,:) = a**2
>>
*)
Module SubroutinesDouble.

Definition sq1 (a ij ik : Z) (m : gmap Z cell64) : option (gmap Z cell64) :=
  match read_c_int m ij, read_c_int m ik with
  | Some nij, Some nik =>
      fortran_do64 1 nik
        (fun j => fortran_do64 1 nij
           (fun i => update_double f64_square (elem_addr64 a nij i j))) m
  | _, _ => None
  end.

End SubroutinesDouble.

(** All of the [n] elements from byte address [p] on hold a
    [real(c_double)]. *)
Definition double_buffer (m : gmap Z cell64) (p : Z) (n : nat) : bool :=
  forallb (fun k => match read_double m (p + 8 * Z.of_nat k) with
                    | Some _ => true
                    | None => false
                    end) (seq 0 n).

(** ** Memories used as examples *)

(** Tables of objects a unit needs, as an example: one object, which
    defines [malloc]. *)
Definition needed_example : list (list elf_sym) :=
  [ [ Build_elf_sym 0x0 0 NOTYPE LOCAL UND EmptyString;
      Build_elf_sym 0x9d7e0 387 FUNC GLOBAL (Ndx 13) "malloc" ] ].

(** The memory the array cells set up for the 2 by 2 array of the notebook:
    the buffer at address 0, the extents at 100 and 101. *)
Definition target_array_memory : gmap Z cell :=
  <[101 := CInt 2]>
    (<[100 := CInt 2]>
       (store_reals 0 (buffer (asfortranarray c_float_of_double target_array_printed)) ∅)).

(** A 2 by 1 single precision array holding [1 + 2^-23] and the single
    precision [1e30] at address 0, with its extents at 10 and 11. *)
Definition rounding_example_memory : gmap Z cell :=
  <[10 := CInt 2]>
    (<[11 := CInt 1]>
       (store_reals 0 [S754_finite false 8388609 (-23); single_1e30] ∅)).

(** A 2 by 3 single precision array of zeros at address 0, with its extents
    at 10 and 11. *)
Definition extents_example_memory : gmap Z cell :=
  <[10 := CInt 2]> (<[11 := CInt 3]> (store_reals 0 (repeat (S754_zero false) 6) ∅)).

(** A 2 by 1 double precision array holding [1.5] and [-0.0] at byte
    address 0, with its extents at 100 and 104. *)
Definition sq1_example_memory : gmap Z cell64 :=
  <[100 := DInt 2]> (<[104 := DInt 1]>
    (<[0 := DReal (S754_finite false 6755399441055744 (-52))]>
       (<[8 := DReal (S754_zero true)]> ∅))).


(** ** Powers of two and binary digits *)


Lemma pow2_pos e : (0 < pow2 e)%R.
Proof. unfold pow2. apply powerRZ_lt. lra. Qed.

Lemma pow2_add a b : pow2 (a + b) = (pow2 a * pow2 b)%R.
Proof. unfold pow2. apply powerRZ_add. lra. Qed.

Lemma pow2_IZR n : 0 <= n -> pow2 n = IZR (2 ^ n).
Proof.
  intros Hn. unfold pow2.
  rewrite <- (Z2Nat.id n) at 1 by exact Hn.
  rewrite <- pow_powerRZ.
  rewrite <- (Z2Nat.id n) at 2 by exact Hn.
  rewrite pow_IZR. reflexivity.
Qed.

Lemma pow2_le a b : a <= b -> (pow2 a <= pow2 b)%R.
Proof.
  intros H. replace b with (a + (b - a)) by lia.
  rewrite pow2_add. rewrite (pow2_IZR (b - a)) by lia.
  assert (1 <= IZR (2 ^ (b - a)))%R.
  { apply IZR_le. assert (0 < 2 ^ (b - a)) by (apply Z.pow_pos_nonneg; lia). lia. }
  pose proof (pow2_pos a). generalize dependent (IZR (2 ^ (b - a))).
  intros r Hr. nra.
Qed.

Lemma pow2_succ a : pow2 (a + 1) = (2 * pow2 a)%R.
Proof. rewrite pow2_add. unfold pow2 at 2. simpl. lra. Qed.

Lemma pow2_pred a : pow2 (a - 1) = (pow2 a / 2)%R.
Proof. replace a with ((a - 1) + 1) at 2 by lia. rewrite pow2_succ. lra. Qed.

(** A positive number written with [d] binary digits is at least [2^(d-1)]
    and less than [2^d]; the number of digits is the only such [d]. *)
Lemma digits2_bounds p :
  2 ^ (Zpos (digits2_pos p) - 1) <= Zpos p < 2 ^ Zpos (digits2_pos p).
Proof.
  induction p as [p IH | p IH |]; simpl digits2_pos.
  - rewrite Pos2Z.inj_succ.
    replace (Z.succ (Zpos (digits2_pos p)) - 1) with ((Zpos (digits2_pos p) - 1) + 1) by lia.
    rewrite Z.pow_succ_r by lia. rewrite Z.pow_add_r by lia. lia.
  - rewrite Pos2Z.inj_succ.
    replace (Z.succ (Zpos (digits2_pos p)) - 1) with ((Zpos (digits2_pos p) - 1) + 1) by lia.
    rewrite Z.pow_succ_r by lia. rewrite Z.pow_add_r by lia. lia.
  - simpl. lia.
Qed.

Lemma digits2_unique p k :
  2 ^ (k - 1) <= Zpos p < 2 ^ k -> Zpos (digits2_pos p) = k.
Proof.
  intros [Hlo Hhi]. pose proof (digits2_bounds p) as [Blo Bhi].
  assert (0 < k).
  { destruct (Z_lt_le_dec 0 k); [assumption|].
    assert (2 ^ k <= 1).
    { destruct (Z.eq_dec k 0) as [->|]; [simpl; lia|]. rewrite Z.pow_neg_r by lia. lia. }
    lia. }
  set (d := Zpos (digits2_pos p)) in *.
  destruct (Z_lt_le_dec d k).
  - assert (2 ^ d <= 2 ^ (k - 1)) by (apply Z.pow_le_mono_r; lia). lia.
  - destruct (Z_lt_le_dec k d); [|lia].
    assert (2 ^ k <= 2 ^ (d - 1)) by (apply Z.pow_le_mono_r; lia). lia.
Qed.

(** ** Shifting a mantissa and rounding it *)
Lemma IZR_xO p : IZR (Zpos p~0) = (2 * IZR (Zpos p))%R.
Proof. rewrite Pos2Z.inj_xO, mult_IZR. reflexivity. Qed.

Lemma IZR_xI p : IZR (Zpos p~1) = (2 * IZR (Zpos p) + 1)%R.
Proof. rewrite Pos2Z.inj_xI, plus_IZR, mult_IZR. reflexivity. Qed.

(** One shift to the right halves the real the record stands for. *)
Lemma shr_1_inbetween x mrs :
  inbetween x mrs -> inbetween (x / 2) (shr_1 mrs).
Proof.
  destruct mrs as [m r s]. unfold inbetween. simpl shr_m; simpl shr_r; simpl shr_s.
  intros [Hm Hx].
  destruct m as [|p|p]; [| |lia].
  - destruct r, s; simpl; split; try lia; lra.
  - destruct p as [p|p|].
    + rewrite IZR_xI in Hx. destruct r, s; simpl; split; try lia; lra.
    + rewrite IZR_xO in Hx. destruct r, s; simpl; split; try lia; lra.
    + destruct r, s; simpl; split; try lia; lra.
Qed.

Lemma iter_pos_shr_1_inbetween x n :
  forall k mrs,
    inbetween (x * pow2 (- k)) mrs ->
    inbetween (x * pow2 (- (k + Zpos n))) (SpecFloat.iter_pos shr_1 n mrs).
Proof.
  assert (Hstep : forall k mrs, inbetween (x * pow2 (- k)) mrs ->
                                inbetween (x * pow2 (- (k + 1))) (shr_1 mrs)).
  { intros k mrs H. apply shr_1_inbetween in H.
    replace (- (k + 1)) with (- k - 1) by lia. rewrite pow2_pred.
    replace (x * (pow2 (- k) / 2))%R with (x * pow2 (- k) / 2)%R by lra.
    exact H. }
  induction n as [n IH | n IH |]; intros k mrs H; simpl SpecFloat.iter_pos.
  - apply Hstep in H. apply IH in H. apply IH in H.
    replace (k + Zpos n~1) with (k + 1 + Zpos n + Zpos n) by lia. exact H.
  - apply IH in H. apply IH in H.
    replace (k + Zpos n~0) with (k + Zpos n + Zpos n) by lia. exact H.
  - apply Hstep. exact H.
Qed.

(** [shr] by [n] places divides by [2^n] and adds [n] to the exponent; a
    non-positive [n] does nothing. *)
Lemma shr_inbetween x mrs e n :
  inbetween x mrs ->
  snd (shr mrs e n) = e + Z.max 0 n /\
  inbetween (x * pow2 (- Z.max 0 n)) (fst (shr mrs e n)).
Proof.
  intros H. destruct n as [|p|p]; simpl.
  - split; [lia|]. unfold pow2. simpl. rewrite Rmult_1_r. exact H.
  - split; [reflexivity|].
    apply (iter_pos_shr_1_inbetween x p 0 mrs).
    unfold pow2. simpl. rewrite Rmult_1_r. exact H.
  - split; [lia|]. unfold pow2. simpl. rewrite Rmult_1_r. exact H.
Qed.

(** Rounding to nearest, ties to even: the integer chosen is within one half
    of the real, and on the same side of every integer as the real. *)
Lemma round_nearest_even_inbetween x mrs :
  inbetween x mrs ->
  let z := round_nearest_even (shr_m mrs) (loc_of_shr_record mrs) in
  (Rabs (IZR z - x) <= /2)%R /\
  0 <= z /\
  (forall K, (x <= IZR K)%R -> z <= K) /\
  (forall K, (IZR K <= x)%R -> K <= z).
Proof.
  destruct mrs as [m r s]. unfold inbetween. simpl shr_m; simpl shr_r; simpl shr_s.
  intros [Hm Hx].
  assert (Hup : forall K, (IZR m < IZR K)%R -> m + 1 <= K).
  { intros K HK. apply lt_IZR in HK. lia. }
  assert (Hdn : forall K, (IZR K < IZR m + 1)%R -> K <= m).
  { intros K HK. rewrite <- plus_IZR in HK. apply lt_IZR in HK. lia. }
  destruct r, s; simpl.
  - rewrite plus_IZR. repeat split.
    + apply Rabs_le. lra.
    + lia.
    + intros K HK. apply Hup. lra.
    + intros K HK. assert (K <= m) by (apply Hdn; lra). lia.
  - destruct (Z.even m); [|rewrite plus_IZR]; repeat split.
    + apply Rabs_le. lra.
    + lia.
    + intros K HK. assert (m + 1 <= K) by (apply Hup; lra). lia.
    + intros K HK. apply Hdn. lra.
    + apply Rabs_le. lra.
    + lia.
    + intros K HK. apply Hup. lra.
    + intros K HK. assert (K <= m) by (apply Hdn; lra). lia.
  - repeat split.
    + apply Rabs_le. lra.
    + lia.
    + intros K HK. assert (m + 1 <= K) by (apply Hup; lra). lia.
    + intros K HK. apply Hdn. lra.
  - repeat split.
    + apply Rabs_le. lra.
    + lia.
    + intros K HK. subst x. apply le_IZR in HK. exact HK.
    + intros K HK. subst x. apply le_IZR in HK. exact HK.
Qed.

Lemma inbetween_bounds x mrs :
  inbetween x mrs -> (IZR (shr_m mrs) <= x < IZR (shr_m mrs) + 1)%R.
Proof.
  destruct mrs as [m r s]. unfold inbetween. simpl.
  intros [_ H]. destruct r, s; lra.
Qed.

Lemma inbetween_of_loc_exact x m :
  inbetween x (shr_record_of_loc m loc_Exact) -> x = IZR m.
Proof. unfold inbetween. simpl. tauto. Qed.

(** ** Rounding to a binary format *)
Section RoundAux.
Variables prec emax : Z.
Hypothesis Hprec : 0 < prec.

Local Abbreviation fexp := (SpecFloat.fexp prec emax).
Local Abbreviation emin := (SpecFloat.emin prec emax).

Lemma fexp_ge_emin t : emin <= fexp t.
Proof. unfold SpecFloat.fexp. lia. Qed.

Lemma fexp_cases t :
  (fexp t = t - prec /\ emin <= t - prec) \/ (fexp t = emin /\ t - prec < emin).
Proof. unfold SpecFloat.fexp. lia. Qed.

(** The second shift of [binary_round_aux] keeps the value: it happens only
    when rounding carried into one more digit, and the mantissa is then even. *)
Lemma second_shift z e1 :
  0 <= z ->
  (fexp (Zdigits2 z + e1) - e1 <= 0 \/
   (fexp (Zdigits2 z + e1) - e1 = 1 /\ Z.even z = true)) ->
  exists z2 e2,
    shr_m (fst (shr_fexp prec emax z e1 loc_Exact)) = z2 /\
    snd (shr_fexp prec emax z e1 loc_Exact) = e2 /\
    0 <= z2 /\ e1 <= e2 <= e1 + 1 /\
    (IZR z2 * pow2 e2 = IZR z * pow2 e1)%R.
Proof.
  intros Hz Hn. unfold shr_fexp.
  destruct Hn as [Hn | [Hn Hev]].
  - exists z, e1.
    destruct (fexp (Zdigits2 z + e1) - e1) as [|p|p]; try lia; simpl;
      repeat split; try lia; reflexivity.
  - rewrite Hn. simpl.
    destruct z as [|p|p]; [| |lia].
    + exists 0, (e1 + 1). simpl. repeat split; try lia. lra.
    + destruct p as [p|p|]; try discriminate Hev.
      exists (Zpos p), (e1 + 1). simpl. repeat split; try lia.
      rewrite IZR_xO, pow2_succ. lra.
Qed.

(** [binary_round_aux] on the real [x * 2^e], known through the mantissa [m]
    and the location [l]: mantissa and exponent of the result, and its
    distance to the real, at most half a unit in the last place. *)
Lemma binary_round_aux_spec s m e l x :
  0 < m ->
  inbetween x (shr_record_of_loc m l) ->
  (l = loc_Exact \/ e <= fexp (Zdigits2 m + e)) ->
  exists z e2,
    0 <= z /\
    fexp (Zdigits2 m + e) <= e2 <= Z.max (fexp (Zdigits2 m + e)) e + 1 /\
    binary_round_aux prec emax s m e l = round_result prec emax s z e2 /\
    (Rabs (IZR z * pow2 e2 - x * pow2 e) <= pow2 (fexp (Zdigits2 m + e) - 1))%R.
Proof.
  intros Hm Hin Hl.
  set (ef := fexp (Zdigits2 m + e)).
  pose proof (shr_inbetween x _ e (ef - e) Hin) as [He1 Hin1].
  unfold binary_round_aux.
  change (shr_fexp prec emax m e l) with (shr (shr_record_of_loc m l) e (ef - e)).
  destruct (shr (shr_record_of_loc m l) e (ef - e)) as [mrs1 e1] eqn:E1.
  simpl in He1, Hin1.
  pose proof (round_nearest_even_inbetween _ _ Hin1) as (Herr & Hz1 & Hup & Hlo).
  set (z1 := round_nearest_even (shr_m mrs1) (loc_of_shr_record mrs1)) in *.
  assert (Hsecond : fexp (Zdigits2 z1 + e1) - e1 <= 0 \/
                    (fexp (Zdigits2 z1 + e1) - e1 = 1 /\ Z.even z1 = true)).
  { destruct (Z_le_gt_dec e ef) as [Hle | Hgt].
    - assert (He1' : e1 = ef) by lia.
      assert (Hz1le : z1 <= 2 ^ prec).
      { apply Hup. rewrite <- pow2_IZR by lia.
        destruct m as [|p|p]; try lia.
        pose proof (digits2_bounds p) as [_ Hd].
        pose proof (inbetween_bounds _ _ Hin) as [_ Hx].
        assert (Hx' : (x <= pow2 (Zpos (digits2_pos p)))%R).
        { rewrite pow2_IZR by lia.
          replace (shr_m (shr_record_of_loc (Zpos p) l)) with (Zpos p) in Hx
            by (destruct l as [|[]]; reflexivity).
          rewrite <- plus_IZR in Hx. apply Rlt_le in Hx.
          eapply Rle_trans; [exact Hx|]. apply IZR_le. lia. }
        pose proof (pow2_pos (- Z.max 0 (ef - e))).
        apply Rle_trans with (pow2 (Zpos (digits2_pos p)) * pow2 (- Z.max 0 (ef - e)))%R.
        - apply Rmult_le_compat_r; lra.
        - rewrite <- pow2_add. apply pow2_le.
          unfold ef. simpl Zdigits2.
          destruct (fexp_cases (Zpos (digits2_pos p) + e)); lia. }
      destruct z1 as [|p|p] eqn:Ez1; [left | | lia].
      + simpl Zdigits2. rewrite He1'. unfold ef.
        pose proof (fexp_ge_emin (Zdigits2 m + e)).
        destruct (fexp_cases (0 + fexp (Zdigits2 m + e))); lia.
      + simpl Zdigits2. pose proof (digits2_bounds p) as [Hd _].
        assert (Hd1 : Zpos (digits2_pos p) <= prec + 1).
        { destruct (Z_le_gt_dec (Zpos (digits2_pos p)) (prec + 1)); [assumption|].
          assert (2 ^ (prec + 1) <= 2 ^ (Zpos (digits2_pos p) - 1))
            by (apply Z.pow_le_mono_r; lia).
          rewrite Z.pow_add_r in * by lia. lia. }
        pose proof (fexp_ge_emin (Zdigits2 m + e)).
        destruct (Z.eq_dec (Zpos (digits2_pos p)) (prec + 1)) as [Heq | Hne].
        * assert (Hp : Zpos p = 2 ^ prec).
          { rewrite Heq in Hd. replace (prec + 1 - 1) with prec in Hd by lia. lia. }
          destruct (fexp_cases (Zpos (digits2_pos p) + e1)) as [[Hf ?] | [Hf ?]].
          -- right. split; [lia|]. rewrite Hp. rewrite Z.even_pow by lia. reflexivity.
          -- left. fold ef in H. lia.
        * left. fold ef in H.
          destruct (fexp_cases (Zpos (digits2_pos p) + e1)); lia.
    - left. destruct Hl as [-> | Hl]; [|unfold ef in Hgt; lia].
      assert (Hneg : ef - e < 0) by lia.
      destruct (ef - e) as [|q|q] eqn:Eq; try lia.
      simpl in E1. injection E1 as <- <-.
      subst z1. simpl. fold ef. lia. }
  destruct (second_shift z1 e1 Hz1 Hsecond) as (z2 & e2 & Ez2 & Ee2 & Hz2 & He2 & Hval).
  destruct (shr_fexp prec emax z1 e1 loc_Exact) as [mrs2 e2'] eqn:E2.
  simpl in Ez2, Ee2. subst e2'.
  exists z2, e2. rewrite Ez2.
  split; [exact Hz2|].
  destruct (Z_le_gt_dec e ef) as [Hle | Hgt].
  - assert (He1' : e1 = ef) by lia.
    split; [lia|]. split; [reflexivity|].
    rewrite Hval.
    replace (x * pow2 e)%R with (x * pow2 (- Z.max 0 (ef - e)) * pow2 e1)%R.
    2:{ rewrite Rmult_assoc, <- pow2_add. f_equal. f_equal. lia. }
    rewrite <- Rmult_minus_distr_r, Rabs_mult.
    rewrite (Rabs_pos_eq (pow2 e1)) by (apply Rlt_le, pow2_pos).
    rewrite He1', pow2_pred.
    pose proof (pow2_pos ef). nra.
  - destruct Hl as [-> | Hl]; [|unfold ef in Hgt; lia].
    assert (Hneg : ef - e < 0) by lia.
    destruct (ef - e) as [|q|q] eqn:Eq; try lia.
    simpl in E1. injection E1 as <- <-.
    split; [lia|]. split; [reflexivity|].
    rewrite Hval. subst z1. simpl.
    apply inbetween_of_loc_exact in Hin. subst x.
    rewrite Rminus_diag, Rabs_R0. apply Rlt_le, pow2_pos.
Qed.
End RoundAux.

Lemma IZR_cond_Zopp s z : IZR (cond_Zopp s z) = (sign_factor s * IZR z)%R.
Proof. destruct s; simpl; [rewrite opp_IZR|]; lra. Qed.

Lemma Rabs_sign_factor s (a b : R) :
  Rabs (sign_factor s * a - sign_factor s * b) = Rabs (a - b).
Proof.
  destruct s; simpl.
  - replace (-1 * a - -1 * b)%R with (- (a - b))%R by lra. apply Rabs_Ropp.
  - f_equal. lra.
Qed.

Lemma Rabs_sign_factor_mult s (a : R) : Rabs (sign_factor s * a) = Rabs a.
Proof.
  destruct s; simpl.
  - replace (-1 * a)%R with (- a)%R by lra. apply Rabs_Ropp.
  - f_equal. lra.
Qed.

Lemma sign_factor_xorb a b :
  sign_factor (xorb a b) = (sign_factor a * sign_factor b)%R.
Proof. destruct a, b; simpl; lra. Qed.

Section RoundError.
Variables prec emax : Z.
Hypothesis Hprec : 0 < prec.

Local Abbreviation fexp := (SpecFloat.fexp prec emax).
Local Abbreviation emin := (SpecFloat.emin prec emax).

(** What [binary_round_aux] returns for the positive real [x * 2^e]:
    never a NaN, the sign it was given, and a finite result within half a
    unit in the last place, which is a relative error of [2^-prec] in the
    normal range and an absolute one of [2^(emin-1)] below it. *)
Lemma binary_round_aux_cases s m e l x :
  0 < m ->
  inbetween x (shr_record_of_loc m l) ->
  (l = loc_Exact \/ e <= fexp (Zdigits2 m + e)) ->
  let X := (x * pow2 e)%R in
  let ef := fexp (Zdigits2 m + e) in
  match binary_round_aux prec emax s m e l with
  | S754_nan => False
  | S754_infinity s' => s' = s
  | S754_zero s' =>
      s' = s /\ (X <= pow2 (emin - 1))%R /\ (X < pow2 (emin + prec - 1))%R
  | S754_finite s' m' e' =>
      s' = s /\ ef <= e' <= Z.max ef e + 1 /\ e' <= emax - prec /\
      (Rabs (IZR (Zpos m') * pow2 e' - X) <= pow2 (ef - 1))%R /\
      ((pow2 (ef - 1) <= pow2 (- prec) * X)%R \/
       (ef = emin /\ (X < pow2 (emin + prec - 1))%R))
  end.
Proof.
  intros Hm Hin Hl X ef.
  destruct (binary_round_aux_spec prec emax Hprec s m e l x Hm Hin Hl)
    as (z & e2 & Hz & He2 & Hres & Herr).
  fold ef in He2, Herr. fold X in Herr. rewrite Hres.
  assert (HX : (pow2 (Zdigits2 m + e - 1) <= X < pow2 (Zdigits2 m + e))%R).
  { destruct m as [|p|p]; try lia. simpl Zdigits2.
    pose proof (digits2_bounds p) as [Hlo Hhi].
    pose proof (inbetween_bounds _ _ Hin) as [Hx1 Hx2].
    replace (shr_m (shr_record_of_loc (Zpos p) l)) with (Zpos p) in Hx1, Hx2
      by (destruct l as [|[]]; reflexivity).
    pose proof (pow2_pos e) as He.
    replace (Zpos (digits2_pos p) + e - 1) with ((Zpos (digits2_pos p) - 1) + e) by lia.
    rewrite !pow2_add.
    rewrite (pow2_IZR (Zpos (digits2_pos p) - 1)), (pow2_IZR (Zpos (digits2_pos p))) by lia.
    apply IZR_le in Hlo. rewrite <- plus_IZR in Hx2.
    assert (IZR (Zpos p + 1) <= IZR (2 ^ Zpos (digits2_pos p)))%R by (apply IZR_le; lia).
    unfold X. split.
    - apply Rmult_le_compat_r; lra.
    - apply Rmult_lt_compat_r; lra. }
  assert (Hdisj : (pow2 (ef - 1) <= pow2 (- prec) * X)%R \/
                  (ef = emin /\ (X < pow2 (emin + prec - 1))%R)).
  { destruct (fexp_cases prec emax (Zdigits2 m + e)) as [[Hf Hge] | [Hf Hlt]].
    - left. fold ef in Hf. rewrite Hf.
      replace (Zdigits2 m + e - prec - 1) with (- prec + (Zdigits2 m + e - 1)) by lia.
      rewrite pow2_add. apply Rmult_le_compat_l; [apply Rlt_le, pow2_pos|apply HX].
    - right. fold ef in Hf. split; [exact Hf|].
      eapply Rlt_le_trans; [apply HX|]. apply pow2_le. lia. }
  destruct z as [|p|p]; simpl round_result; [| |lia].
  - split; [reflexivity|].
    rewrite Rmult_0_l, Rminus_0_l, Rabs_Ropp in Herr.
    assert (HXpos : (0 < X)%R) by (pose proof (pow2_pos (Zdigits2 m + e - 1)); lra).
    rewrite Rabs_pos_eq in Herr by lra.
    assert (Hef : ef = emin).
    { destruct (fexp_cases prec emax (Zdigits2 m + e)) as [[Hf Hge] | [Hf Hlt]];
        fold ef in Hf; [|exact Hf].
      exfalso. rewrite Hf in Herr.
      assert (pow2 (Zdigits2 m + e - prec - 1) < pow2 (Zdigits2 m + e - 1))%R.
      { replace (Zdigits2 m + e - 1) with ((Zdigits2 m + e - prec - 1) + prec) by lia.
        rewrite pow2_add, (pow2_IZR prec) by lia.
        assert (2 <= IZR (2 ^ prec))%R.
        { apply IZR_le. replace prec with (1 + (prec - 1)) by lia.
          rewrite Z.pow_add_r by lia.
          assert (0 < 2 ^ (prec - 1)) by (apply Z.pow_pos_nonneg; lia). lia. }
        pose proof (pow2_pos (Zdigits2 m + e - prec - 1)). nra. }
      lra. }
    rewrite Hef in Herr. split; [exact Herr|].
    eapply Rle_lt_trans; [exact Herr|].
    replace (emin + prec - 1) with ((emin - 1) + prec) by lia.
    rewrite pow2_add, (pow2_IZR prec) by lia.
    assert (2 <= IZR (2 ^ prec))%R.
    { apply IZR_le. replace prec with (1 + (prec - 1)) by lia.
      rewrite Z.pow_add_r by lia.
      assert (0 < 2 ^ (prec - 1)) by (apply Z.pow_pos_nonneg; lia). lia. }
    pose proof (pow2_pos (emin - 1)). nra.
  - destruct (Z.leb_spec e2 (emax - prec)); [|reflexivity].
    repeat split; try lia; assumption.
Qed.
End RoundError.

(** Aligning a mantissa to a smaller exponent keeps the value. *)
Lemma Pos_iter_xO m d : Zpos (Pos.iter xO m d) = Zpos m * 2 ^ Zpos d.
Proof.
  induction d as [|d IH] using Pos.peano_ind.
  - simpl. lia.
  - rewrite Pos.iter_succ, Pos2Z.inj_xO, IH, Pos2Z.inj_succ, Z.pow_succ_r by lia. lia.
Qed.

Lemma shl_align_value mx ex ex' :
  (IZR (Zpos (fst (shl_align mx ex ex'))) * pow2 (snd (shl_align mx ex ex')) =
   IZR (Zpos mx) * pow2 ex)%R.
Proof.
  unfold shl_align. destruct (ex' - ex) as [|d|d] eqn:E; simpl fst; simpl snd; try reflexivity.
  rewrite Pos_iter_xO, mult_IZR, <- pow2_IZR by lia.
  rewrite Rmult_assoc, <- pow2_add. f_equal. f_equal. lia.
Qed.

Section Operations.
Variables prec emax : Z.
Hypothesis Hprec : 0 < prec.

Local Abbreviation fexp := (SpecFloat.fexp prec emax).
Local Abbreviation emin := (SpecFloat.emin prec emax).

Lemma pow2_prec_half : (pow2 (prec - 1) * pow2 (- prec) = / 2)%R.
Proof.
  rewrite <- pow2_add. replace (prec - 1 + - prec) with (0 - 1) by lia.
  rewrite pow2_pred. unfold pow2. simpl. lra.
Qed.

(** Rounding a positive exact value, with its sign put back. *)
Lemma binary_round_aux_signed s m e :
  let X := (sign_factor s * (IZR (Zpos m) * pow2 e))%R in
  let r := binary_round_aux prec emax s (Zpos m) e loc_Exact in
  r <> S754_nan /\
  (is_finite_SF r = true -> within_rounding prec emax X (SF2R r)) /\
  (is_normal_SF prec r = true ->
   (Rabs (SF2R r - X) <= pow2 (- prec) * Rabs (SF2R r))%R) /\
  (forall s', r = S754_infinity s' -> s' = s) /\
  (forall s' m' e', r = S754_finite s' m' e' ->
                    s' = s /\ emin <= e' <= emax - prec) /\
  (forall s', r = S754_zero s' -> s' = s).
Proof.
  intros X r.
  assert (Hin : inbetween (IZR (Zpos m)) (shr_record_of_loc (Zpos m) loc_Exact)).
  { unfold inbetween. simpl. split; [lia|reflexivity]. }
  pose proof (binary_round_aux_cases prec emax Hprec s (Zpos m) e loc_Exact
                (IZR (Zpos m)) ltac:(lia) Hin (or_introl eq_refl)) as H.
  cbv zeta in H. fold r in H.
  assert (HXabs : Rabs X = (IZR (Zpos m) * pow2 e)%R).
  { unfold X. rewrite Rabs_sign_factor_mult. apply Rabs_pos_eq.
    apply Rmult_le_pos; [apply IZR_le; lia | apply Rlt_le, pow2_pos]. }
  destruct r as [s' | s' | | s' m' e'].
  - destruct H as (-> & Hle & Hlt).
    split; [discriminate|]. split.
    { intros _. right. rewrite HXabs. split; [exact Hlt|].
      simpl SF2R. rewrite Rminus_0_l, Rabs_Ropp, HXabs. exact Hle. }
    split; [discriminate|]. repeat split; congruence.
  - subst s'. split; [discriminate|]. split; [discriminate|].
    split; [discriminate|]. repeat split; congruence.
  - contradiction.
  - destruct H as (-> & He' & Hfin & Herr & Hdisj).
    split; [discriminate|].
    assert (Herr' : (Rabs (SF2R (S754_finite s m' e') - X)
                     <= pow2 (fexp (Zdigits2 (Zpos m) + e) - 1))%R).
    { simpl SF2R. unfold X. rewrite IZR_cond_Zopp, Rmult_assoc, Rabs_sign_factor.
      exact Herr. }
    split.
    { intros _. destruct Hdisj as [Hrel | [Hef Hsmall]].
      - left. rewrite HXabs. lra.
      - right. rewrite HXabs. split; [exact Hsmall|]. rewrite Hef in Herr'. exact Herr'. }
    split.
    { unfold is_normal_SF. intros Hn. apply Z.eqb_eq in Hn.
      eapply Rle_trans; [exact Herr'|].
      simpl SF2R. rewrite IZR_cond_Zopp, Rmult_assoc, Rabs_sign_factor_mult.
      pose proof (digits2_bounds m') as [Hlo _]. rewrite Hn in Hlo.
      apply IZR_le in Hlo. rewrite <- pow2_IZR in Hlo by lia.
      pose proof (pow2_pos e'). pose proof (pow2_pos (- prec)).
      rewrite Rabs_pos_eq by (apply Rmult_le_pos; [apply IZR_le; lia | lra]).
      apply Rle_trans with (pow2 (e' - 1)); [apply pow2_le; lia|].
      rewrite pow2_pred.
      apply Rle_trans with (pow2 (- prec) * (pow2 (prec - 1) * pow2 e'))%R.
      - rewrite <- Rmult_assoc, (Rmult_comm (pow2 (- prec))), pow2_prec_half. lra.
      - apply Rmult_le_compat_l; [lra|]. apply Rmult_le_compat_r; lra. }
    split; [intros ? Hc; discriminate Hc|].
    split; [|intros ? Hc; discriminate Hc].
    intros s1 m1 e1 Hc. injection Hc as <- <- <-.
    pose proof (fexp_ge_emin prec emax (Zdigits2 (Zpos m) + e)). repeat split; lia.
Qed.

(** The product of two finite numbers is the rounded product of the
    mantissas. *)
Lemma SFmul_finite sx mx ex sy my ey :
  SFmul prec emax (S754_finite sx mx ex) (S754_finite sy my ey) =
  binary_round_aux prec emax (xorb sx sy) (Zpos (mx * my)) (ex + ey) loc_Exact.
Proof. reflexivity. Qed.

Lemma SF2R_mul_finite sx mx ex sy my ey :
  (SF2R (S754_finite sx mx ex) * SF2R (S754_finite sy my ey) =
   sign_factor (xorb sx sy) * (IZR (Zpos (mx * my)) * pow2 (ex + ey)))%R.
Proof.
  simpl SF2R. rewrite !IZR_cond_Zopp, sign_factor_xorb, Pos2Z.inj_mul, mult_IZR, pow2_add.
  ring.
Qed.

Lemma binary_round_value s m e :
  binary_round prec emax s m e =
  binary_round_aux prec emax s
    (Zpos (fst (shl_align m e (fexp (Zpos (digits2_pos m) + e)))))
    (snd (shl_align m e (fexp (Zpos (digits2_pos m) + e)))) loc_Exact.
Proof.
  unfold binary_round.
  destruct (shl_align m e (fexp (Zpos (digits2_pos m) + e))). reflexivity.
Qed.
End Operations.

(** ** The square root *)
Lemma div2_bounds e : 2 * Z.div2 e <= e <= 2 * Z.div2 e + 1.
Proof. rewrite (Zdiv2_odd_eqn e) at 2 3. destruct (Z.odd e); lia. Qed.

Lemma sqrt_gt_of_square a y : (0 <= a)%R -> (a * a < y)%R -> (a < sqrt y)%R.
Proof.
  intros Ha H. rewrite <- (sqrt_square a Ha). apply sqrt_lt_1_alt.
  split; [nra | exact H].
Qed.

Lemma sqrt_lt_of_square a y : (0 <= y)%R -> (0 <= a)%R -> (y < a * a)%R -> (sqrt y < a)%R.
Proof.
  intros Hy Ha H. rewrite <- (sqrt_square a Ha). apply sqrt_lt_1_alt.
  split; assumption.
Qed.

Lemma sqrt_scale a p : (0 <= a)%R -> (0 <= p)%R -> sqrt (a * (p * p)) = (sqrt a * p)%R.
Proof. intros Ha Hp. rewrite sqrt_mult by nra. rewrite sqrt_square by exact Hp. reflexivity. Qed.

Section SquareRoot.
Variables prec emax : Z.
Hypothesis Hprec : 0 < prec.
Hypothesis Hemax : prec + 2 <= emax.

Local Abbreviation fexp := (SpecFloat.fexp prec emax).
Local Abbreviation emin := (SpecFloat.emin prec emax).

(** What [bounded] says about exponent and digits. *)
Lemma bounded_facts m e :
  bounded prec emax m e = true ->
  emin <= e /\ e <= emax - prec /\ Zpos (digits2_pos m) <= prec.
Proof.
  unfold bounded, canonical_mantissa. intros H.
  apply andb_true_iff in H as [H1 H2].
  apply Z.eqb_eq in H1. apply Z.leb_le in H2.
  destruct (fexp_cases prec emax (Zpos (digits2_pos m) + e)); lia.
Qed.

(** [SFsqrt_core_binary] gives the integer square root [q] of the scaled
    mantissa, with the location of the real root relative to [q] and an
    exponent that leaves [q] at least as many digits as the format holds. *)
Lemma SFsqrt_core_binary_spec m e :
  let d := Zpos (digits2_pos m) in
  let k := Z.div2 (d + e + 1) in
  let q := fst (fst (SFsqrt_core_binary prec emax (Zpos m) e)) in
  let e' := snd (fst (SFsqrt_core_binary prec emax (Zpos m) e)) in
  let l := snd (SFsqrt_core_binary prec emax (Zpos m) e) in
  0 < q /\
  inbetween (sqrt (IZR (Zpos m) * pow2 e) * pow2 (- e')) (shr_record_of_loc q l) /\
  Zdigits2 q + e' = k /\
  e' <= fexp k.
Proof.
  intros d k. unfold SFsqrt_core_binary. simpl Zdigits2. fold d. fold k.
  set (e1 := Z.min (fexp k) (Z.div2 e)).
  set (s := e - 2 * e1).
  pose proof (div2_bounds e) as Hdiv.
  assert (Hs : 0 <= s) by (unfold s, e1; lia).
  set (m1 := match s with
             | 0 => Zpos m
             | Zpos _ => Z.shiftl (Zpos m) s
             | Zneg _ => 0
             end).
  assert (Hm1 : m1 = Zpos m * 2 ^ s).
  { unfold m1. destruct s as [|p|p] eqn:Es; [simpl; lia | | lia].
    apply Z.shiftl_mul_pow2. lia. }
  assert (Hpows : 0 < 2 ^ s) by (apply Z.pow_pos_nonneg; lia).
  assert (Hm1pos : 0 < m1) by (rewrite Hm1; lia).
  pose proof (Z.sqrtrem_spec m1 ltac:(lia)) as Hspec.
  destruct (Z.sqrtrem m1) as [q r] eqn:Eqr.
  destruct Hspec as [Hm1eq Hr].
  simpl fst; simpl snd.
  assert (Hq : 0 < q) by nia.
  (* the real square root of the scaled mantissa *)
  assert (Hreal : (sqrt (IZR (Zpos m) * pow2 e) * pow2 (- e1) = sqrt (IZR m1))%R).
  { replace (IZR (Zpos m) * pow2 e)%R with (IZR m1 * (pow2 e1 * pow2 e1))%R.
    2:{ rewrite Hm1, mult_IZR, <- pow2_IZR, <- pow2_add, Rmult_assoc, <- pow2_add by lia.
        f_equal. f_equal. unfold s. lia. }
    rewrite sqrt_scale by (try apply IZR_le; try apply Rlt_le, pow2_pos; lia).
    rewrite Rmult_assoc, <- pow2_add. replace (e1 + - e1) with 0 by lia.
    unfold pow2. simpl. lra. }
  rewrite Hreal.
  assert (Hm1R : IZR m1 = (IZR q * IZR q + IZR r)%R).
  { rewrite Hm1eq, plus_IZR, mult_IZR. reflexivity. }
  assert (HqR : (1 <= IZR q)%R) by (apply IZR_le; lia).
  assert (HrR : (0 <= IZR r <= 2 * IZR q)%R).
  { split; [apply IZR_le; lia|]. rewrite <- mult_IZR. apply IZR_le. lia. }
  split; [exact Hq|]. split.
  { unfold inbetween.
    destruct (Z.eqb_spec r 0) as [Hr0 | Hr0].
    - simpl. split; [lia|]. subst r. rewrite Hm1R, Rplus_0_r. apply sqrt_square. lra.
    - assert (Hr1 : (1 <= IZR r)%R) by (apply IZR_le; lia).
      destruct (Z.leb_spec r q) as [Hle | Hgt].
      + simpl. split; [lia|]. apply IZR_le in Hle. split.
        * apply sqrt_gt_of_square; nra.
        * apply sqrt_lt_of_square; nra.
      + simpl. split; [lia|].
        assert (IZR q + 1 <= IZR r)%R by (rewrite <- plus_IZR; apply IZR_le; lia).
        split.
        * apply sqrt_gt_of_square; nra.
        * apply sqrt_lt_of_square; nra. }
  (* the number of digits of the integer square root *)
  pose proof (digits2_bounds m) as [Hdlo Hdhi]. fold d in Hdlo, Hdhi.
  assert (Hd : 0 < d) by (unfold d; lia).
  set (k1 := Z.div2 (d + s + 1)).
  pose proof (div2_bounds (d + s + 1)) as Hk1. fold k1 in Hk1.
  assert (Hdig : Zdigits2 q = k1).
  { destruct q as [|pq|pq]; try lia. simpl Zdigits2.
    apply digits2_unique.
    assert (HD1 : 2 ^ (d + s - 1) <= m1).
    { rewrite Hm1. replace (d + s - 1) with ((d - 1) + s) by lia.
      rewrite Z.pow_add_r by lia. nia. }
    assert (HD2 : m1 < 2 ^ (d + s)).
    { rewrite Hm1, Z.pow_add_r by lia. nia. }
    split.
    - destruct (Z_le_gt_dec (2 ^ (k1 - 1)) (Zpos pq)) as [|Hlt]; [assumption|exfalso].
      assert (Hsq : (Zpos pq + 1) * (Zpos pq + 1) <= 2 ^ (k1 - 1) * 2 ^ (k1 - 1)).
      { assert (0 < 2 ^ (k1 - 1)) by (apply Z.pow_pos_nonneg; lia). nia. }
      rewrite <- Z.pow_add_r in Hsq by lia.
      assert (2 ^ (k1 - 1 + (k1 - 1)) <= 2 ^ (d + s - 1)) by (apply Z.pow_le_mono_r; lia).
      nia.
    - destruct (Z_lt_le_dec (Zpos pq) (2 ^ k1)) as [|Hge]; [assumption|exfalso].
      assert (Hsq : 2 ^ k1 * 2 ^ k1 <= Zpos pq * Zpos pq).
      { assert (0 < 2 ^ k1) by (apply Z.pow_pos_nonneg; lia). nia. }
      rewrite <- Z.pow_add_r in Hsq by lia.
      assert (2 ^ (d + s) <= 2 ^ (k1 + k1)) by (apply Z.pow_le_mono_r; lia).
      nia. }
  split.
  - rewrite Hdig. pose proof (div2_bounds (d + e + 1)) as Hk. fold k in Hk.
    unfold s in Hk1. lia.
  - unfold e1. lia.
Qed.

(** The square root of a finite positive number of the format is finite and
    within a relative error of [2^-prec] of the real square root. *)
Lemma SFsqrt_finite_pos m e :
  bounded prec emax m e = true ->
  exists m' e',
    SFsqrt prec emax (S754_finite false m e) = S754_finite false m' e' /\
    (Rabs (IZR (Zpos m') * pow2 e' - sqrt (IZR (Zpos m) * pow2 e))
     <= pow2 (- prec) * sqrt (IZR (Zpos m) * pow2 e))%R.
Proof.
  intros Hb. apply bounded_facts in Hb as (He1 & He2 & Hd).
  pose proof (SFsqrt_core_binary_spec m e) as Hcore. cbv zeta in Hcore.
  unfold SFsqrt.
  destruct (SFsqrt_core_binary prec emax (Zpos m) e) as [[q e1] l].
  simpl fst in Hcore; simpl snd in Hcore.
  destruct Hcore as (Hq & Hin & Hdig & He1k).
  set (X := (IZR (Zpos m) * pow2 e)%R) in *.
  set (d := Zpos (digits2_pos m)) in *.
  set (k := Z.div2 (d + e + 1)) in *.
  pose proof (div2_bounds (d + e + 1)) as Hk. fold k in Hk.
  assert (Hdpos : 0 < d) by (unfold d; lia).
  assert (Hnormal : fexp k = k - prec).
  { unfold SpecFloat.emin in He1.
    destruct (fexp_cases prec emax k) as [[Hf _] | [_ Hlt]]; [exact Hf|].
    unfold SpecFloat.emin in Hlt. lia. }
  destruct (binary_round_aux_spec prec emax Hprec false q e1 l _ Hq Hin)
    as (z & e2 & Hz & He2b & Hres & Herr).
  { right. rewrite Hdig. exact He1k. }
  rewrite Hdig, Hnormal in He2b, Herr.
  replace (sqrt X * pow2 (- e1) * pow2 e1)%R with (sqrt X) in Herr.
  2:{ rewrite Rmult_assoc, <- pow2_add. replace (- e1 + e1) with 0 by lia.
      unfold pow2. simpl. lra. }
  (* the exact root is at least [2^(k-1)] *)
  assert (Hroot : (pow2 (k - 1) <= sqrt X)%R).
  { pose proof (inbetween_bounds _ _ Hin) as [Hlo _].
    replace (shr_m (shr_record_of_loc q l)) with q in Hlo
      by (destruct l as [|[]]; reflexivity).
    destruct q as [|pq|pq]; try lia. simpl Zdigits2 in Hdig.
    pose proof (digits2_bounds pq) as [Hpq _].
    apply IZR_le in Hpq. rewrite <- pow2_IZR in Hpq by lia.
    replace (k - 1) with ((Zpos (digits2_pos pq) - 1) + e1) by lia.
    rewrite pow2_add.
    replace (sqrt X) with (sqrt X * pow2 (- e1) * pow2 e1)%R.
    2:{ rewrite Rmult_assoc, <- pow2_add. replace (- e1 + e1) with 0 by lia.
        unfold pow2. simpl. lra. }
    apply Rmult_le_compat_r; [apply Rlt_le, pow2_pos | lra]. }
  assert (Hbound : (pow2 (k - prec - 1) <= pow2 (- prec) * sqrt X)%R).
  { replace (k - prec - 1) with (- prec + (k - 1)) by lia. rewrite pow2_add.
    apply Rmult_le_compat_l; [apply Rlt_le, pow2_pos | exact Hroot]. }
  assert (Hhalf : (pow2 (- prec) <= / 2)%R).
  { rewrite <- (pow2_prec_half prec).
    rewrite <- (Rmult_1_l (pow2 (- prec))) at 1.
    apply Rmult_le_compat_r; [apply Rlt_le, pow2_pos|].
    rewrite pow2_IZR by lia. apply IZR_le.
    assert (0 < 2 ^ (prec - 1)) by (apply Z.pow_pos_nonneg; lia). lia. }
  assert (Hrootpos : (0 < sqrt X)%R) by (pose proof (pow2_pos (k - 1)); lra).
  rewrite Hres.
  destruct z as [|pz|pz]; [exfalso | | lia].
  - rewrite Rmult_0_l, Rminus_0_l, Rabs_Ropp, Rabs_pos_eq in Herr by lra. nra.
  - simpl round_result.
    assert (Hfin : e2 <= emax - prec).
    { rewrite Hnormal in He1k. lia. }
    destruct (Z.leb_spec e2 (emax - prec)); [|lia].
    exists pz, e2. split; [reflexivity|]. lra.
Qed.
End SquareRoot.

(** ** Native memory: reads, updates and loops *)

Lemma read_real_insert_eq (m : gmap Z cell) p y :
  read_real (<[p := CReal y]> m) p = Some y.
Proof. unfold read_real. rewrite lookup_insert_eq. reflexivity. Qed.

Lemma read_real_insert_ne (m : gmap Z cell) p q c :
  p <> q -> read_real (<[p := c]> m) q = read_real m q.
Proof. intros H. unfold read_real. rewrite lookup_insert_ne by exact H. reflexivity. Qed.

Lemma update_real_Some f p (m : gmap Z cell) x :
  read_real m p = Some x -> update_real f p m = Some (<[p := CReal (f x)]> m).
Proof. intros H. unfold update_real. rewrite H. reflexivity. Qed.

Lemma update_real_inv f p (m m' : gmap Z cell) :
  update_real f p m = Some m' ->
  exists x, read_real m p = Some x /\ m' = <[p := CReal (f x)]> m.
Proof.
  unfold update_real. destruct (read_real m p) as [x|]; [|discriminate].
  intros H. injection H as <-. exists x. split; reflexivity.
Qed.

Lemma read_real_lookup (m : gmap Z cell) p x :
  read_real m p = Some x -> m !! p = Some (CReal x).
Proof.
  unfold read_real. destruct (m !! p) as [[y|n]|]; try discriminate.
  intros H. injection H as ->. reflexivity.
Qed.

Lemma dom_insert_real (m : gmap Z cell) p x c :
  read_real m p = Some x -> dom (<[p := c]> m) = dom m.
Proof.
  intros H. apply read_real_lookup in H.
  rewrite dom_insert_L.
  assert (Hp : p ∈ dom m) by (apply elem_of_dom; eauto).
  apply set_eq. intros q. rewrite elem_of_union, elem_of_singleton.
  split; [intros [-> | Hq]; assumption | auto].
Qed.

Lemma do_loop_ext n body1 body2 :
  (forall i m, body1 i m = body2 i m) ->
  forall lo m, do_loop n body1 lo m = do_loop n body2 lo m.
Proof.
  intros Hext. induction n as [|n IH]; intros lo m; simpl; [reflexivity|].
  rewrite Hext. destruct (body2 lo m); [apply IH | reflexivity].
Qed.

(** A loop that updates the cells [c + lo], [c + lo + 1], ... one by one
    applies [f] to each cell of the range and leaves the rest alone. *)
Lemma do_loop_update_range f c n :
  forall lo (m : gmap Z cell),
    (forall k, 0 <= k < Z.of_nat n -> is_Some (read_real m (c + lo + k))) ->
    exists m',
      do_loop n (fun i => update_real f (c + i)) lo m = Some m' /\
      (forall p, c + lo <= p < c + lo + Z.of_nat n ->
                 read_real m' p = f <$> read_real m p) /\
      (forall p, ~ (c + lo <= p < c + lo + Z.of_nat n) -> m' !! p = m !! p) /\
      dom m' = dom m.
Proof.
  induction n as [|n IH]; intros lo m Hbuf.
  - exists m. simpl. repeat split; try reflexivity. intros p Hp. lia.
  - destruct (Hbuf 0 ltac:(lia)) as [x Hx]. rewrite Z.add_0_r in Hx.
    simpl do_loop. rewrite (update_real_Some f _ _ _ Hx).
    destruct (IH (lo + 1) (<[c + lo := CReal (f x)]> m)) as (m' & Hrun & Hin & Hout & Hdom).
    { intros k Hk. rewrite read_real_insert_ne by lia.
      replace (c + (lo + 1) + k) with (c + lo + (k + 1)) by lia. apply Hbuf. lia. }
    exists m'. split; [exact Hrun|]. repeat split.
    + intros p Hp. destruct (Z.eq_dec p (c + lo)) as [-> | Hne].
      * unfold read_real at 1. rewrite Hout by lia. rewrite lookup_insert_eq.
        rewrite Hx. reflexivity.
      * rewrite Hin by lia. rewrite read_real_insert_ne by lia. reflexivity.
    + intros p Hp. rewrite Hout by lia. apply lookup_insert_ne. lia.
    + rewrite Hdom. eapply dom_insert_real. exact Hx.
Qed.

(** The nested loops of the array assignment, column after column. *)
Lemma do_loop_columns f a w :
  0 <= w ->
  forall n lo (m : gmap Z cell),
    (forall k, 0 <= k < Z.of_nat n * w ->
               is_Some (read_real m (a + (lo - 1) * w + k))) ->
    exists m',
      do_loop n (fun j => fortran_do 1 w (fun i => update_real f (elem_addr a w i j))) lo m
      = Some m' /\
      (forall p, a + (lo - 1) * w <= p < a + (lo - 1) * w + Z.of_nat n * w ->
                 read_real m' p = f <$> read_real m p) /\
      (forall p, ~ (a + (lo - 1) * w <= p < a + (lo - 1) * w + Z.of_nat n * w) ->
                 m' !! p = m !! p) /\
      dom m' = dom m.
Proof.
  intros Hw. induction n as [|n IH]; intros lo m Hbuf.
  - exists m. simpl. repeat split; try reflexivity. intros p Hp. lia.
  - simpl do_loop. unfold fortran_do at 1.
    rewrite (do_loop_ext _ _ (fun i => update_real f ((a - 1 + (lo - 1) * w) + i)))
      by (intros i m0; unfold elem_addr; f_equal; lia).
    replace (Z.to_nat (w - 1 + 1)) with (Z.to_nat w) by lia.
    destruct (do_loop_update_range f (a - 1 + (lo - 1) * w) (Z.to_nat w) 1 m)
      as (m1 & Hrun1 & Hin1 & Hout1 & Hdom1).
    { intros k Hk. replace (a - 1 + (lo - 1) * w + 1 + k) with (a + (lo - 1) * w + k) by lia.
      apply Hbuf. nia. }
    rewrite Hrun1.
    destruct (IH (lo + 1) m1) as (m' & Hrun & Hin & Hout & Hdom).
    { intros k Hk. unfold read_real. rewrite Hout1 by nia.
      replace (a + (lo + 1 - 1) * w + k) with (a + (lo - 1) * w + (w + k)) by lia.
      apply Hbuf. nia. }
    exists m'. split; [exact Hrun|]. repeat split.
    + intros p Hp.
      destruct (Z_lt_le_dec p (a + (lo - 1) * w + w)) as [Hlt | Hge].
      * unfold read_real at 1. rewrite Hout by nia.
        change (match m1 !! p with
                | Some (CReal x) => Some x
                | _ => None
                end) with (read_real m1 p).
        apply Hin1. lia.
      * rewrite Hin by nia. unfold read_real at 1. rewrite Hout1 by lia. reflexivity.
    + intros p Hp. rewrite Hout by nia. apply Hout1. nia.
    + rewrite Hdom. exact Hdom1.
Qed.

Lemma real_buffer_spec (m : gmap Z cell) p n :
  real_buffer m p n = true ->
  forall k, 0 <= k < Z.of_nat n -> is_Some (read_real m (p + k)).
Proof.
  unfold real_buffer. intros H k Hk.
  rewrite forallb_forall in H.
  specialize (H (Z.to_nat k)).
  rewrite Z2Nat.id in H by lia.
  destruct (read_real m (p + k)); [eauto|].
  exfalso. assert (false = true); [|discriminate].
  apply H. apply in_seq. lia.
Qed.

(** What the array [square] does to memory: every cell of the [nij] by [nik]
    buffer is squared in single precision, nothing else changes. *)
Lemma square_array_spec a ij ik (m : gmap Z cell) nij nik :
  read_int m ij = Some nij ->
  read_int m ik = Some nik ->
  0 <= nij -> 0 <= nik ->
  real_buffer m a (Z.to_nat (nij * nik)) = true ->
  exists m',
    SubroutinesArray.square a ij ik m = Some m' /\
    (forall p, a <= p < a + nij * nik -> read_real m' p = f32_square <$> read_real m p) /\
    (forall p, ~ (a <= p < a + nij * nik) -> m' !! p = m !! p) /\
    dom m' = dom m.
Proof.
  intros Hij Hik Hnij Hnik Hbuf.
  unfold SubroutinesArray.square. rewrite Hij, Hik.
  unfold fortran_do at 1. replace (Z.to_nat (nik - 1 + 1)) with (Z.to_nat nik) by lia.
  destruct (do_loop_columns f32_square a nij Hnij (Z.to_nat nik) 1 m)
    as (m' & Hrun & Hin & Hout & Hdom).
  { intros k Hk. replace (a + (1 - 1) * nij + k) with (a + k) by lia.
    apply (real_buffer_spec _ _ _ Hbuf). nia. }
  exists m'. split; [exact Hrun|]. repeat split.
  - intros p Hp. apply Hin. nia.
  - intros p Hp. apply Hout. nia.
  - exact Hdom.
Qed.

(** ** Multi-indices and positions in a buffer *)

Lemma size_cons n shp : size (n :: shp) = (n * size shp)%nat.
Proof. reflexivity. Qed.

Lemma index_F_valid shp :
  forall k, (k < size shp)%nat -> valid_index shp (index_F shp k) = true.
Proof.
  induction shp as [|n shp IH]; intros k Hk; [reflexivity|].
  rewrite size_cons in Hk. simpl.
  assert (Hn : n <> 0%nat) by (intros ->; simpl in Hk; lia).
  apply andb_true_iff. split.
  - apply Nat.ltb_lt. apply Nat.mod_upper_bound. exact Hn.
  - apply IH. apply Nat.Div0.div_lt_upper_bound. exact Hk.
Qed.

Lemma index_C_valid shp :
  forall k, (k < size shp)%nat -> valid_index shp (index_C shp k) = true.
Proof.
  induction shp as [|n shp IH]; intros k Hk; [reflexivity|].
  rewrite size_cons in Hk. simpl.
  assert (Hs : size shp <> 0%nat) by (intros E; rewrite E in Hk; lia).
  apply andb_true_iff. split.
  - apply Nat.ltb_lt. apply Nat.Div0.div_lt_upper_bound. lia.
  - apply IH. apply Nat.mod_upper_bound. exact Hs.
Qed.

Lemma offset_F_lt shp :
  forall idx, valid_index shp idx = true -> (offset_F shp idx < size shp)%nat.
Proof.
  induction shp as [|n shp IH]; intros [|i idx] H; simpl in H; try discriminate.
  - simpl. lia.
  - apply andb_true_iff in H as [Hi Hidx]. apply Nat.ltb_lt in Hi.
    specialize (IH idx Hidx). rewrite size_cons. simpl offset_F. nia.
Qed.

Lemma offset_C_lt shp :
  forall idx, valid_index shp idx = true -> (offset_C shp idx < size shp)%nat.
Proof.
  induction shp as [|n shp IH]; intros [|i idx] H; simpl in H; try discriminate.
  - simpl. lia.
  - apply andb_true_iff in H as [Hi Hidx]. apply Nat.ltb_lt in Hi.
    specialize (IH idx Hidx). rewrite size_cons. simpl offset_C. nia.
Qed.

Lemma index_F_offset_F shp :
  forall idx, valid_index shp idx = true -> index_F shp (offset_F shp idx) = idx.
Proof.
  induction shp as [|n shp IH]; intros [|i idx] H; simpl in H; try discriminate.
  - reflexivity.
  - apply andb_true_iff in H as [Hi Hidx]. apply Nat.ltb_lt in Hi.
    simpl. f_equal.
    + rewrite (Nat.mul_comm n), Nat.Div0.mod_add. apply Nat.mod_small. exact Hi.
    + rewrite (Nat.mul_comm n), Nat.div_add by lia.
      rewrite Nat.div_small by exact Hi. simpl. apply IH. exact Hidx.
Qed.

Lemma index_C_offset_C shp :
  forall idx, valid_index shp idx = true -> index_C shp (offset_C shp idx) = idx.
Proof.
  induction shp as [|n shp IH]; intros [|i idx] H; simpl in H; try discriminate.
  - reflexivity.
  - apply andb_true_iff in H as [Hi Hidx]. apply Nat.ltb_lt in Hi.
    pose proof (offset_C_lt shp idx Hidx) as Hlt.
    simpl. f_equal.
    + rewrite Nat.add_comm, Nat.div_add by lia.
      rewrite Nat.div_small by exact Hlt. reflexivity.
    + rewrite Nat.add_comm, Nat.Div0.mod_add.
      rewrite Nat.mod_small by exact Hlt. apply IH. exact Hidx.
Qed.

Lemma offset_C_index_C shp :
  forall k, (k < size shp)%nat -> offset_C shp (index_C shp k) = k.
Proof.
  induction shp as [|n shp IH]; intros k Hk.
  - simpl in *. lia.
  - rewrite size_cons in Hk. simpl.
    assert (Hs : size shp <> 0%nat) by (intros E; rewrite E in Hk; lia).
    rewrite IH by (apply Nat.mod_upper_bound; exact Hs).
    pose proof (Nat.div_mod_eq k (size shp)). lia.
Qed.

Lemma offset_F_index_F shp :
  forall k, (k < size shp)%nat -> offset_F shp (index_F shp k) = k.
Proof.
  induction shp as [|n shp IH]; intros k Hk.
  - simpl in *. lia.
  - rewrite size_cons in Hk. simpl.
    rewrite IH by (apply Nat.Div0.div_lt_upper_bound; exact Hk).
    pose proof (Nat.div_mod_eq k n). lia.
Qed.

Lemma gather_length {A : Type} src n (buf : list A) :
  buf <> [] -> length (gather src n buf) = n.
Proof.
  destruct buf as [|d buf]; [congruence|]. intros _.
  unfold gather. rewrite length_map, length_seq. reflexivity.
Qed.

Lemma nth_gather {A : Type} src n (buf : list A) k d :
  buf <> [] -> (k < n)%nat -> (src k < length buf)%nat ->
  nth k (gather src n buf) d = nth (src k) buf d.
Proof.
  destruct buf as [|d0 buf]; [congruence|]. intros _ Hk Hsrc.
  unfold gather.
  rewrite (nth_indep _ d (nth (src 0%nat) (d0 :: buf) d0))
    by (rewrite length_map, length_seq; exact Hk).
  rewrite (map_nth (fun k => nth (src k) (d0 :: buf) d0) (seq 0 n) 0%nat k).
  rewrite seq_nth by exact Hk. simpl Nat.add.
  apply nth_indep. exact Hsrc.
Qed.

(** Gathering along a permutation and then along its inverse gives the
    buffer back. *)
Lemma gather_gather {A : Type} (src1 src2 : nat -> nat) (buf : list A) :
  (forall k, (k < length buf)%nat -> (src2 k < length buf)%nat) ->
  (forall k, (k < length buf)%nat -> (src1 (src2 k) < length buf)%nat) ->
  (forall k, (k < length buf)%nat -> src1 (src2 k) = k) ->
  gather src2 (length buf) (gather src1 (length buf) buf) = buf.
Proof.
  intros H2 H12 Hinv.
  destruct buf as [|d buf]; [reflexivity|].
  set (l := d :: buf) in *.
  assert (Hl : l <> []) by (unfold l; congruence).
  assert (Hg : gather src1 (length l) l <> []).
  { intros E. apply (f_equal (@length A)) in E.
    rewrite gather_length in E by exact Hl. unfold l in E. simpl in E. lia. }
  apply (nth_ext _ _ d d).
  - rewrite gather_length by exact Hg. reflexivity.
  - rewrite gather_length by exact Hg. intros k Hk.
    rewrite nth_gather; [|exact Hg|exact Hk|].
    2:{ rewrite gather_length by exact Hl. apply H2. exact Hk. }
    rewrite nth_gather; [|exact Hl|apply H2; exact Hk|apply H12; exact Hk].
    rewrite Hinv by exact Hk. reflexivity.
Qed.

(** ** Error bounds over the reals *)

Lemma Rabs_le_bounds (x a : R) : (Rabs x <= a)%R -> (- a <= x <= a)%R.
Proof. unfold Rabs. destruct (Rcase_abs x); lra. Qed.

Lemma square_between (lo b hi : R) :
  (0 <= lo <= b)%R -> (b <= hi)%R -> (lo * lo <= b * b <= hi * hi)%R.
Proof. intros [H0 H1] H2. split; apply Rmult_le_compat; lra. Qed.

(** A relative error [u] on a nonnegative [a], then a rounded square. *)
Lemma square_error_rel_pos (u eta a b c : R) :
  (0 <= u <= /4)%R -> (0 <= eta)%R -> (0 <= a)%R ->
  (- (u * a) <= b - a <= u * a)%R ->
  (- (u * (b * b) + eta) <= c - b * b <= u * (b * b) + eta)%R ->
  (- (4 * u * (a * a) + 2 * eta) <= c - a * a <= 4 * u * (a * a) + 2 * eta)%R.
Proof.
  intros Hu Heta Ha H1 H2.
  assert (Hlo : (0 <= a * (1 - u))%R) by (apply Rmult_le_pos; lra).
  destruct (square_between (a * (1 - u)) b (a * (1 + u))) as [Hb1 Hb2]; [lra | lra |].
  assert (HA : (0 <= a * a)%R) by (apply Rmult_le_pos; lra).
  assert (Hp1 : (0 <= a * a * (u * (1 - 3 * u - u * u)))%R).
  { apply Rmult_le_pos; [exact HA|]. apply Rmult_le_pos; nra. }
  assert (Hp2 : (0 <= a * a * (u * (1 + 3 * u - u * u)))%R).
  { apply Rmult_le_pos; [exact HA|]. apply Rmult_le_pos; nra. }
  assert (Hub : (0 <= u * (b * b))%R) by (apply Rmult_le_pos; nra).
  assert (Hb1' : (u * (a * (1 - u) * (a * (1 - u))) <= u * (b * b))%R)
    by (apply Rmult_le_compat_l; lra).
  assert (Hb2' : (u * (b * b) <= u * (a * (1 + u) * (a * (1 + u))))%R)
    by (apply Rmult_le_compat_l; lra).
  split; nra.
Qed.

(** Two roundings in a row: the box, then the square. *)
Lemma square_error_compose (u eta tau a b c : R) :
  (0 <= u <= /4)%R -> (0 <= eta <= tau)%R -> (tau <= /8)%R ->
  (8 * u * (tau * tau) <= eta)%R ->
  ((Rabs (b - a) <= u * Rabs a)%R \/ ((Rabs a < tau)%R /\ (Rabs (b - a) <= eta)%R)) ->
  (Rabs (c - b * b) <= u * (b * b) + eta)%R ->
  (Rabs (c - a * a) <= 4 * u * (a * a) + 2 * eta)%R.
Proof.
  intros Hu Heta Htau Hsmall H1 H2.
  apply Rabs_le_bounds in H2.
  apply Rabs_le.
  destruct H1 as [H1 | [Ha H1]].
  - apply Rabs_le_bounds in H1.
    destruct (Rle_lt_dec 0 a) as [Hpos | Hneg].
    + rewrite Rabs_pos_eq in H1 by lra.
      apply (square_error_rel_pos u eta a b c); assumption || lra.
    + rewrite Rabs_left in H1 by lra.
      replace (a * a)%R with (- a * - a)%R by ring.
      apply (square_error_rel_pos u eta (- a) (- b) c); lra.
  - assert (Hs : (- (eta / 2) <= b * b - a * a <= eta / 2)%R).
    { apply Rabs_le_bounds.
      replace (b * b - a * a)%R with ((b - a) * (b + a))%R by ring.
      rewrite Rabs_mult.
      assert (Rabs (b + a) <= / 2)%R.
      { apply Rabs_le_bounds in H1. apply Rabs_def2 in Ha. apply Rabs_le. lra. }
      pose proof (Rabs_pos (b - a)). pose proof (Rabs_pos (b + a)).
      apply Rle_trans with (eta * / 2)%R; [|lra].
      apply Rmult_le_compat; assumption. }
    apply Rabs_le_bounds in H1. apply Rabs_def2 in Ha.
    assert (Hbb : (0 <= b * b <= 1)%R) by nra.
    assert (Hub : (0 <= u * (b * b) <= eta / 2)%R).
    { split; [apply Rmult_le_pos; lra|].
      assert (b * b <= 4 * tau * tau)%R by nra.
      assert (0 <= a * a)%R by nra.
      nra. }
    assert (0 <= 4 * u * (a * a))%R.
    { apply Rmult_le_pos; [lra|]. nra. }
    split; lra.
Qed.

(** ** Single precision: the three operations of the notebook *)

Lemma prec32_pos : 0 < prec32.
Proof. reflexivity. Qed.

Lemma emax32_large : prec32 + 2 <= emax32.
Proof. unfold prec32, emax32. lia. Qed.

Lemma f32_emin : emin prec32 emax32 = -149.
Proof. reflexivity. Qed.

Lemma pow2_1 : pow2 1 = 2%R.
Proof. unfold pow2. simpl. lra. Qed.

Lemma pow2_2 : pow2 2 = 4%R.
Proof. unfold pow2. simpl. lra. Qed.

Lemma pow2_3 : pow2 3 = 8%R.
Proof. unfold pow2. simpl. lra. Qed.

Lemma pow2_neg_2 : pow2 (-2) = (/ 4)%R.
Proof. unfold pow2. simpl. lra. Qed.

Lemma pow2_neg_3 : pow2 (-3) = (/ 8)%R.
Proof. unfold pow2. simpl. lra. Qed.

Lemma pow2_neg_4 : pow2 (-4) = (/ 16)%R.
Proof. unfold pow2. simpl. lra. Qed.

(** [a**2] on a finite single precision value. *)
Lemma f32_square_finite s m e :
  let x := S754_finite s m e in
  let r := f32_square x in
  r <> S754_nan /\
  (is_finite_SF r = true ->
   within_rounding prec32 emax32 (SF2R x * SF2R x) (SF2R r)) /\
  (is_normal_SF prec32 r = true ->
   (Rabs (SF2R r - SF2R x * SF2R x) <= pow2 (- prec32) * Rabs (SF2R r))%R /\
   exists m' e', r = S754_finite false m' e' /\ bounded prec32 emax32 m' e' = true) /\
  (is_finite_SF r = false -> r = S754_infinity false).
Proof.
  intros x r.
  pose proof (binary_round_aux_signed prec32 emax32 prec32_pos (xorb s s) (m * m) (e + e))
    as (Hnan & Hfin & Hnorm & Hinf & Hsign & _).
  unfold r, f32_square, x. rewrite SFmul_finite, SF2R_mul_finite.
  split; [exact Hnan|]. split; [exact Hfin|].
  split.
  2:{ intros Hnf.
      destruct (binary_round_aux prec32 emax32 (xorb s s) (Zpos (m * m)) (e + e) loc_Exact)
        as [| s' | |] eqn:E; try discriminate Hnf; [|congruence].
      rewrite (Hinf s' eq_refl), xorb_nilpotent. reflexivity. }
  intros Hn. split; [apply Hnorm; exact Hn|].
  destruct (binary_round_aux prec32 emax32 (xorb s s) (Zpos (m * m)) (e + e) loc_Exact)
    as [| | |s' m' e'] eqn:E; try discriminate Hn.
  destruct (Hsign s' m' e' eq_refl) as (-> & He1 & He2).
  rewrite xorb_nilpotent. exists m', e'. split; [reflexivity|].
  unfold is_normal_SF in Hn. apply Z.eqb_eq in Hn.
  unfold bounded, canonical_mantissa. rewrite Hn.
  apply andb_true_iff. split; [apply Z.eqb_eq | apply Z.leb_le; exact He2].
  destruct (fexp_cases prec32 emax32 (prec32 + e')); lia.
Qed.

(** [ctypes.c_float] on a finite double. *)
Lemma c_float_of_double_finite s m e :
  let x := S754_finite s m e in
  let v := c_float_of_double x in
  v <> S754_nan /\
  (is_finite_SF v = true -> within_rounding prec32 emax32 (SF2R x) (SF2R v)).
Proof.
  intros x v. unfold v, c_float_of_double, x.
  rewrite binary_round_value.
  pose proof (binary_round_aux_signed prec32 emax32 prec32_pos s
                (fst (shl_align m e (fexp prec32 emax32 (Zpos (digits2_pos m) + e))))
                (snd (shl_align m e (fexp prec32 emax32 (Zpos (digits2_pos m) + e)))))
    as (Hnan & Hfin & _).
  cbv zeta in Hnan, Hfin. rewrite shl_align_value in Hfin.
  split; [exact Hnan|].
  simpl SF2R. rewrite IZR_cond_Zopp, Rmult_assoc. exact Hfin.
Qed.

(** [SQRT] on a finite, positive single precision value. *)
Lemma f32_sqrt_finite_pos m e :
  bounded prec32 emax32 m e = true ->
  let x := S754_finite false m e in
  exists m' e',
    f32_sqrt x = S754_finite false m' e' /\
    (Rabs (SF2R (f32_sqrt x) - sqrt (SF2R x)) <= pow2 (- prec32) * sqrt (SF2R x))%R.
Proof.
  intros Hb x.
  destruct (SFsqrt_finite_pos prec32 emax32 prec32_pos emax32_large m e Hb)
    as (m' & e' & Hr & Herr).
  exists m', e'. unfold f32_sqrt, x. rewrite Hr. split; [reflexivity|].
  simpl SF2R. exact Herr.
Qed.

Lemma valid_binary_bounded s m e :
  valid_binary prec32 emax32 (S754_finite s m e) = true -> bounded prec32 emax32 m e = true.
Proof. intros H. exact H. Qed.

Lemma within_rounding32_sum X r :
  within_rounding prec32 emax32 X r ->
  (Rabs (r - X) <= pow2 (-24) * Rabs X + pow2 (-150))%R.
Proof.
  unfold within_rounding. rewrite f32_emin.
  change (- prec32) with (-24). change (-149 - 1) with (-150).
  pose proof (pow2_pos (-24)). pose proof (pow2_pos (-150)). pose proof (Rabs_pos X).
  intros [H2 | [_ H2]].
  - assert (0 <= pow2 (-24) * Rabs X)%R by (apply Rmult_le_pos; lra). lra.
  - assert (0 <= pow2 (-24) * Rabs X)%R by (apply Rmult_le_pos; lra). lra.
Qed.

(** The box, then the square: the error against the exact [x * x]. *)
Lemma boxed_square_error x :
  is_finite_SF x = true ->
  is_finite_SF (f32_square (c_float_of_double x)) = true ->
  (Rabs (SF2R (f32_square (c_float_of_double x)) - SF2R x * SF2R x)
   <= pow2 (-22) * Rabs (SF2R x * SF2R x) + pow2 (-149))%R.
Proof.
  intros Hx Hr.
  assert (Hconst : (pow2 (-22) = 4 * pow2 (-24))%R /\ (pow2 (-149) = 2 * pow2 (-150))%R).
  { split.
    - replace (-22) with (2 + -24) by lia. rewrite pow2_add, pow2_2. reflexivity.
    - replace (-149) with (1 + -150) by lia. rewrite pow2_add, pow2_1. reflexivity. }
  destruct Hconst as [-> ->].
  rewrite (Rabs_pos_eq (SF2R x * SF2R x)) by nra.
  assert (Hbox : (Rabs (SF2R (c_float_of_double x) - SF2R x) <= pow2 (-24) * Rabs (SF2R x))%R \/
                 ((Rabs (SF2R x) < pow2 (-126))%R /\
                  (Rabs (SF2R (c_float_of_double x) - SF2R x) <= pow2 (-150))%R)).
  { destruct x as [s | s | | s m e]; try discriminate Hx.
    - left. simpl. rewrite Rminus_diag, Rabs_R0. lra.
    - destruct (c_float_of_double_finite s m e) as [Hnan Hfin]. cbv zeta in Hnan, Hfin.
      assert (Hv : is_finite_SF (c_float_of_double (S754_finite s m e)) = true).
      { destruct (c_float_of_double (S754_finite s m e)) as [| | |]; try reflexivity;
          discriminate Hr. }
      specialize (Hfin Hv). unfold within_rounding in Hfin. rewrite f32_emin in Hfin.
      exact Hfin. }
  assert (Hsq : (Rabs (SF2R (f32_square (c_float_of_double x))
                       - SF2R (c_float_of_double x) * SF2R (c_float_of_double x))
                 <= pow2 (-24) * (SF2R (c_float_of_double x) * SF2R (c_float_of_double x))
                    + pow2 (-150))%R).
  { destruct (c_float_of_double x) as [s | s | | s m e] eqn:Ev.
    - simpl. rewrite Rmult_0_l, Rminus_diag, Rabs_R0, Rmult_0_r.
      pose proof (pow2_pos (-150)). lra.
    - discriminate Hr.
    - discriminate Hr.
    - destruct (f32_square_finite s m e) as (_ & Hfin & _ & _). cbv zeta in Hfin.
      specialize (Hfin Hr). apply within_rounding32_sum in Hfin.
      rewrite (Rabs_pos_eq (SF2R (S754_finite s m e) * SF2R (S754_finite s m e))) in Hfin
        by nra.
      exact Hfin. }
  apply (square_error_compose (pow2 (-24)) (pow2 (-150)) (pow2 (-126))
           (SF2R x) (SF2R (c_float_of_double x))); try assumption.
  - split; [apply Rlt_le, pow2_pos|]. rewrite <- pow2_neg_2. apply pow2_le. lia.
  - split; [apply Rlt_le, pow2_pos|]. apply pow2_le. lia.
  - rewrite <- pow2_neg_3. apply pow2_le. lia.
  - rewrite <- pow2_3, <- !pow2_add. apply pow2_le. lia.
Qed.

(** A rounded square followed by a rounded square root, over the reals. *)
Lemma root_of_square_bound (u x y z : R) :
  (0 <= u <= / 16)%R -> (0 <= x)%R -> (0 <= y)%R ->
  (Rabs (y - x * x) <= u * y)%R ->
  (Rabs (z - sqrt y) <= u * sqrt y)%R ->
  (Rabs (z - x) <= 2 * u * x)%R.
Proof.
  intros Hu Hx Hy H1 H2.
  pose proof (sqrt_pos y) as Hs. pose proof (sqrt_sqrt y Hy) as Hss.
  set (s := sqrt y) in *.
  apply Rabs_le_bounds in H1. apply Rabs_le_bounds in H2.
  rewrite <- Hss in H1.
  assert (Hss0 : (0 <= s * s)%R) by nra.
  assert (Hup : ((1 + u) * s <= (1 + 2 * u) * x)%R).
  { destruct (Rle_lt_dec ((1 + u) * s) ((1 + 2 * u) * x)) as [|Hgt]; [assumption|exfalso].
    assert (Hpoly : (0 <= s * s * (u * (1 - u - 4 * u * u)))%R).
    { apply Rmult_le_pos; [exact Hss0|]. apply Rmult_le_pos; nra. }
    assert (Hb : (0 <= (1 + 2 * u) * x)%R) by (apply Rmult_le_pos; lra).
    assert (((1 + 2 * u) * x) * ((1 + 2 * u) * x) < ((1 + u) * s) * ((1 + u) * s))%R.
    { apply Rmult_le_0_lt_compat; lra. }
    assert (Hc : ((1 + 2 * u) * (1 + 2 * u) * ((1 - u) * (s * s))
                  <= (1 + 2 * u) * (1 + 2 * u) * (x * x))%R).
    { apply Rmult_le_compat_l; [nra | lra]. }
    nra. }
  assert (Hlo : ((1 - 2 * u) * x <= (1 - u) * s)%R).
  { destruct (Rle_lt_dec ((1 - 2 * u) * x) ((1 - u) * s)) as [|Hgt]; [assumption|exfalso].
    assert (Hpoly : (0 <= s * s * (u * (1 + u - 4 * u * u)))%R).
    { apply Rmult_le_pos; [exact Hss0|]. apply Rmult_le_pos; nra. }
    assert (Hb : (0 <= (1 - u) * s)%R) by (apply Rmult_le_pos; lra).
    assert (((1 - u) * s) * ((1 - u) * s) < ((1 - 2 * u) * x) * ((1 - 2 * u) * x))%R.
    { apply Rmult_le_0_lt_compat; lra. }
    assert (Hc : ((1 - 2 * u) * (1 - 2 * u) * (x * x)
                  <= (1 - 2 * u) * (1 - 2 * u) * ((1 + u) * (s * s)))%R).
    { apply Rmult_le_compat_l; [nra | lra]. }
    nra. }
  apply Rabs_le. split; lra.
Qed.

(** Squaring the single precision [1e30] overflows. *)
Lemma f32_square_1e30 : f32_square (c_float_of_double double_1e30) = S754_infinity false.
Proof. vm_compute. reflexivity. Qed.

Lemma f32_sqrt_square_1e30 :
  f32_sqrt (f32_square (c_float_of_double double_1e30)) = S754_infinity false.
Proof. vm_compute. reflexivity. Qed.


(** ** Calls into the scalar unit *)

Lemma getattr_square_ : CDLL_getattr subroutines_so_scalar "square_" = inr 0x59a.
Proof. reflexivity. Qed.

Lemma getattr_square_root_ : CDLL_getattr subroutines_so_scalar "square_root_" = inr 0x5b9.
Proof. reflexivity. Qed.

(** [fortran_routines.square_(ctypes_pointer)] on a box holding [x]. *)
Lemma call_square_ eax (s : scalar_session) x :
  contents s = Some x ->
  call_by_reference subroutines_so_scalar "square_" eax s =
  Some {| python_float := python_float s;
          ctypes_float := ctypes_float s;
          native := <[ctypes_float s := CReal (f32_square x)]> (native s) |}.
Proof.
  intros H. unfold call_by_reference, invoke. rewrite getattr_square_.
  unfold call_funcptr. simpl text. unfold routine1, SubroutinesScalar.square.
  rewrite (update_real_Some _ _ _ _ H). reflexivity.
Qed.

(** [fortran_routines.square_root_(ctypes_pointer)] on a box holding [x]. *)
Lemma call_square_root_ eax (s : scalar_session) x :
  contents s = Some x ->
  call_by_reference subroutines_so_scalar "square_root_" eax s =
  Some {| python_float := python_float s;
          ctypes_float := ctypes_float s;
          native := <[ctypes_float s := CReal (f32_sqrt x)]> (native s) |}.
Proof.
  intros H. unfold call_by_reference, invoke. rewrite getattr_square_root_.
  unfold call_funcptr. simpl text. unfold routine1, SubroutinesScalar.square_root.
  rewrite (update_real_Some _ _ _ _ H). reflexivity.
Qed.

Lemma contents_box_scalar p x (m : gmap Z cell) :
  contents (box_scalar p x m) = Some (c_float_of_double x).
Proof. unfold contents, box_scalar. simpl. apply read_real_insert_eq. Qed.

(** Reading the box right after it was written. *)
Lemma contents_updated pf p y (m : gmap Z cell) :
  contents {| python_float := pf; ctypes_float := p; native := <[p := CReal y]> m |} = Some y.
Proof. unfold contents. cbn [native ctypes_float]. apply read_real_insert_eq. Qed.


(** ** Symbol lookup *)

(** A name that is in no line of the table is not found. *)
Lemma dlsym_None tab name :
  ~ In name (map st_name tab) -> dlsym tab name = None.
Proof.
  intros Hnot. unfold dlsym.
  destruct (find _ tab) as [s|] eqn:E; [exfalso | reflexivity].
  apply find_some in E as [Hin Hs].
  apply andb_true_iff in Hs as [Hs _]. apply andb_true_iff in Hs as [Hs _].
  apply String.eqb_eq in Hs. apply Hnot. rewrite <- Hs. apply in_map. exact Hin.
Qed.

Lemma NoDup_map_inj {A B : Type} (f : A -> B) (l : list A) x y :
  List.NoDup (map f l) -> In x l -> In y l -> f x = f y -> x = y.
Proof.
  induction l as [|a l IH]; intros Hnd Hx Hy Hf; [contradiction|].
  simpl in Hnd. inversion Hnd as [|? ? Hnotin Hnd']; subst.
  destruct Hx as [-> | Hx], Hy as [-> | Hy].
  - reflexivity.
  - exfalso. apply Hnotin. rewrite Hf. apply in_map. exact Hy.
  - exfalso. apply Hnotin. rewrite <- Hf. apply in_map. exact Hx.
  - apply IH; assumption.
Qed.

(** With distinct names, a defined, non-local line is found under its name. *)
Lemma dlsym_Some tab s :
  List.NoDup (map st_name tab) ->
  In s tab -> is_exported s = true -> is_defined s = true ->
  dlsym tab (st_name s) = Some (st_value s).
Proof.
  intros Hnd Hin Hexp Hdef. unfold dlsym.
  destruct (find _ tab) as [s'|] eqn:E.
  - apply find_some in E as [Hin' Hs'].
    apply andb_true_iff in Hs' as [Hs' _]. apply andb_true_iff in Hs' as [Hs' _].
    apply String.eqb_eq in Hs'.
    rewrite (NoDup_map_inj st_name tab s' s Hnd Hin' Hin Hs'). reflexivity.
  - exfalso. pose proof (find_none _ _ E s Hin) as Hf. cbv beta in Hf.
    rewrite String.eqb_refl, Hexp, Hdef in Hf. discriminate Hf.
Qed.

Lemma dynsym_scalar_names_distinct : List.NoDup (map st_name (dynsym subroutines_so_scalar)).
Proof.
  apply (NoDup_count_occ' string_dec). intros x Hx.
  simpl in Hx. repeat destruct Hx as [<- | Hx]; try contradiction; vm_compute; reflexivity.
Qed.


(** ** Canonical results of rounding *)

Lemma magnitude_unique (X : R) a b :
  (pow2 (a - 1) <= X < pow2 a)%R -> (pow2 (b - 1) <= X < pow2 b)%R -> a = b.
Proof.
  intros [H1 H2] [H3 H4].
  destruct (Z_lt_le_dec a b) as [Hab | Hab].
  { exfalso. assert (pow2 a <= pow2 (b - 1))%R by (apply pow2_le; lia). lra. }
  destruct (Z_lt_le_dec b a) as [Hba | Hba]; [|lia].
  exfalso. assert (pow2 b <= pow2 (a - 1))%R by (apply pow2_le; lia). lra.
Qed.

(** Where the leading digit of the real behind a mantissa and a location is. *)
Lemma inbetween_magnitude x m l e :
  0 < m ->
  inbetween x (shr_record_of_loc m l) ->
  (pow2 (Zdigits2 m + e - 1) <= x * pow2 e < pow2 (Zdigits2 m + e))%R.
Proof.
  intros Hm Hin.
  destruct m as [|p|p]; try lia. simpl Zdigits2.
  pose proof (digits2_bounds p) as [Hlo Hhi].
  pose proof (inbetween_bounds _ _ Hin) as [Hx1 Hx2].
  replace (shr_m (shr_record_of_loc (Zpos p) l)) with (Zpos p) in Hx1, Hx2
    by (destruct l as [|[]]; reflexivity).
  pose proof (pow2_pos e) as He.
  replace (Zpos (digits2_pos p) + e - 1) with ((Zpos (digits2_pos p) - 1) + e) by lia.
  rewrite !pow2_add.
  rewrite (pow2_IZR (Zpos (digits2_pos p) - 1)), (pow2_IZR (Zpos (digits2_pos p))) by lia.
  apply IZR_le in Hlo. rewrite <- plus_IZR in Hx2.
  assert (IZR (Zpos p + 1) <= IZR (2 ^ Zpos (digits2_pos p)))%R by (apply IZR_le; lia).
  split.
  - apply Rmult_le_compat_r; lra.
  - apply Rmult_lt_compat_r; lra.
Qed.

Lemma Zdigits2_unique z k : 2 ^ (k - 1) <= z < 2 ^ k -> 0 < z -> Zdigits2 z = k.
Proof.
  intros H Hz. destruct z as [|p|p]; try lia. simpl. apply digits2_unique. exact H.
Qed.

Lemma Zdigits2_le z k : 0 < z -> 0 <= k -> z <= 2 ^ k -> 0 < Zdigits2 z <= k + 1.
Proof.
  intros Hz Hk H. destruct z as [|p|p]; try lia. simpl.
  pose proof (digits2_bounds p) as [Hlo _].
  split; [lia|].
  destruct (Z_le_gt_dec (Zpos (digits2_pos p)) (k + 1)) as [|Hgt]; [assumption|exfalso].
  assert (2 ^ (k + 1) <= 2 ^ (Zpos (digits2_pos p) - 1)) by (apply Z.pow_le_mono_r; lia).
  rewrite Z.pow_add_r in * by lia. lia.
Qed.

Lemma exact_inbetween p : inbetween (IZR (Zpos p)) (shr_record_of_loc (Zpos p) loc_Exact).
Proof. unfold inbetween. simpl. split; [lia | reflexivity]. Qed.

(** At a tie, rounding to nearest even gives an even integer. *)
Lemma round_nearest_even_tie x mrs k :
  inbetween x mrs ->
  x = (IZR k + / 2)%R ->
  Z.even (round_nearest_even (shr_m mrs) (loc_of_shr_record mrs)) = true.
Proof.
  destruct mrs as [m r s]. unfold inbetween. simpl shr_m; simpl shr_r; simpl shr_s.
  intros [Hm Hx] Hk.
  assert (Hstep : forall a b : Z, (IZR a < IZR b)%R -> (IZR a + 1 <= IZR b)%R).
  { intros a b H. apply lt_IZR in H. rewrite <- plus_IZR. apply IZR_le. lia. }
  destruct r, s; simpl.
  - exfalso. subst x. destruct Hx as [H1 H2].
    assert (IZR m + 1 <= IZR k)%R by (apply Hstep; lra). lra.
  - assert (k = m).
    { subst x. assert (IZR k = IZR m) by lra. apply eq_IZR. assumption. }
    subst k. destruct (Z.even m) eqn:E; [exact E|].
    rewrite Z.even_add, E. reflexivity.
  - exfalso. subst x. destruct Hx as [H1 H2].
    assert (IZR k + 1 <= IZR m)%R by (apply Hstep; lra). lra.
  - exfalso. subst x.
    assert (IZR k + 1 <= IZR m)%R by (apply Hstep; lra). lra.
Qed.

Section RoundCanonical.
Variables prec emax : Z.
Hypothesis Hprec : 0 < prec.

Local Abbreviation fexp := (SpecFloat.fexp prec emax).
Local Abbreviation emin := (SpecFloat.emin prec emax).

Lemma shr_fexp_exact_noshift z e1 :
  fexp (Zdigits2 z + e1) <= e1 ->
  shr_fexp prec emax z e1 loc_Exact = (shr_record_of_loc z loc_Exact, e1).
Proof.
  intros H. unfold shr_fexp, shr.
  destruct (fexp (Zdigits2 z + e1) - e1) as [|p|p] eqn:E; try reflexivity. lia.
Qed.

Lemma shr_fexp_exact_one p e1 :
  fexp (Zdigits2 (Zpos p~0) + e1) = e1 + 1 ->
  shr_fexp prec emax (Zpos p~0) e1 loc_Exact =
  ({| shr_m := Zpos p; shr_r := false; shr_s := false |}, e1 + 1).
Proof.
  intros H. unfold shr_fexp. rewrite H.
  replace (e1 + 1 - e1) with 1 by lia. reflexivity.
Qed.

(** [binary_round_aux] when the mantissa has to be shifted right: the real
    [x * 2^e] is rounded to the nearest multiple [z1 * 2^ef] of the unit in
    the last place, and the result is that number in canonical form. *)
Lemma binary_round_aux_shift s m e l x :
  0 < m ->
  inbetween x (shr_record_of_loc m l) ->
  e <= fexp (Zdigits2 m + e) ->
  let ef := fexp (Zdigits2 m + e) in
  exists z1 z e2,
    (Rabs (IZR z1 - x * pow2 (e - ef)) <= / 2)%R /\
    (forall K, (x * pow2 (e - ef) <= IZR K)%R -> z1 <= K) /\
    (forall K, (IZR K <= x * pow2 (e - ef))%R -> K <= z1) /\
    (IZR z * pow2 e2 = IZR z1 * pow2 ef)%R /\
    0 <= z /\ ef <= e2 <= ef + 1 /\
    binary_round_aux prec emax s m e l = round_result prec emax s z e2 /\
    (z = 0 \/ fexp (Zdigits2 z + e2) = e2) /\
    (forall k, (x * pow2 (e - ef) = IZR k + / 2)%R -> Z.even z1 = true).
Proof.
  intros Hm Hin Hle ef. fold ef in Hle.
  pose proof (shr_inbetween x _ e (ef - e) Hin) as [He1 Hin1].
  unfold binary_round_aux.
  change (shr_fexp prec emax m e l) with (shr (shr_record_of_loc m l) e (ef - e)).
  destruct (shr (shr_record_of_loc m l) e (ef - e)) as [mrs1 e1] eqn:E1.
  simpl in He1, Hin1.
  assert (He1' : e1 = ef) by lia.
  assert (Hmx : - Z.max 0 (ef - e) = e - ef) by lia.
  rewrite Hmx in Hin1. clear Hmx.
  pose proof (round_nearest_even_inbetween _ _ Hin1) as (Herr & Hz1 & Hup & Hlo).
  pose proof (fun k => round_nearest_even_tie _ _ k Hin1) as Htie.
  set (z1 := round_nearest_even (shr_m mrs1) (loc_of_shr_record mrs1)) in *.
  pose proof (inbetween_magnitude x m l e Hm Hin) as [HXlo HXhi].
  assert (Hscaled : (pow2 (Zdigits2 m + e - 1 - ef) <= x * pow2 (e - ef)
                     < pow2 (Zdigits2 m + e - ef))%R).
  { replace (x * pow2 (e - ef))%R with (x * pow2 e * pow2 (- ef))%R.
    2:{ rewrite Rmult_assoc, <- pow2_add. f_equal. }
    replace (Zdigits2 m + e - 1 - ef) with ((Zdigits2 m + e - 1) + - ef) by lia.
    replace (Zdigits2 m + e - ef) with ((Zdigits2 m + e) + - ef) by lia.
    rewrite (pow2_add (Zdigits2 m + e - 1) (- ef)), (pow2_add (Zdigits2 m + e) (- ef)).
    pose proof (pow2_pos (- ef)).
    split; [apply Rmult_le_compat_r | apply Rmult_lt_compat_r]; lra. }
  clear He1 E1. subst e1.
  assert (Hnoshift : fexp (Zdigits2 z1 + ef) <= ef -> (z1 = 0 \/ fexp (Zdigits2 z1 + ef) = ef) ->
            exists z0 z e2,
              (Rabs (IZR z0 - x * pow2 (e - ef)) <= / 2)%R /\
              (forall K, (x * pow2 (e - ef) <= IZR K)%R -> z0 <= K) /\
              (forall K, (IZR K <= x * pow2 (e - ef))%R -> K <= z0) /\
              (IZR z * pow2 e2 = IZR z0 * pow2 ef)%R /\
              0 <= z /\ ef <= e2 <= ef + 1 /\
              (let '(mrs'', e'') := shr_fexp prec emax z1 ef loc_Exact in
               match shr_m mrs'' with
               | 0 => S754_zero s
               | Z.pos m0 => if e'' <=? emax - prec then S754_finite s m0 e'' else S754_infinity s
               | Z.neg _ => S754_nan
               end) = round_result prec emax s z e2 /\
              (z = 0 \/ fexp (Zdigits2 z + e2) = e2) /\
              (forall k, (x * pow2 (e - ef) = IZR k + / 2)%R -> Z.even z0 = true)).
  { intros Hns Hcan. exists z1, z1, ef.
    rewrite (shr_fexp_exact_noshift z1 ef Hns).
    repeat split; try assumption; try lia. }
  pose proof (fexp_ge_emin prec emax (Zdigits2 m + e)) as Hefmin. fold ef in Hefmin.
  destruct (fexp_cases prec emax (Zdigits2 m + e)) as [[Hf Hge] | [Hf Hlt]]; fold ef in Hf.
  - (* normal range *)
    assert (Hz1lo : 2 ^ (prec - 1) <= z1).
    { apply Hlo. rewrite <- pow2_IZR by lia.
      replace (prec - 1) with (Zdigits2 m + e - 1 - ef) by lia. apply Hscaled. }
    assert (Hz1hi : z1 <= 2 ^ prec).
    { apply Hup. rewrite <- pow2_IZR by lia.
      replace prec with (Zdigits2 m + e - ef) at 1 by lia. apply Rlt_le, Hscaled. }
    assert (Hpos : 0 < 2 ^ (prec - 1)) by (apply Z.pow_pos_nonneg; lia).
    destruct (Z.eq_dec z1 (2 ^ prec)) as [Heq | Hne].
    + (* the rounded mantissa carried into one more digit *)
      destruct (2 ^ (prec - 1)) as [|q|q] eqn:Eq; try lia.
      assert (Hz1q : z1 = Zpos q~0).
      { rewrite Heq. replace prec with (1 + (prec - 1)) by lia.
        rewrite Z.pow_add_r, Eq by lia. reflexivity. }
      assert (Hdq : Zpos (digits2_pos q) = prec).
      { apply digits2_unique. rewrite <- Eq.
        split; [lia|]. apply Z.pow_lt_mono_r; lia. }
      assert (Hsh : shr_fexp prec emax z1 ef loc_Exact =
                    ({| shr_m := Zpos q; shr_r := false; shr_s := false |}, ef + 1)).
      { rewrite Hz1q. apply shr_fexp_exact_one.
        simpl Zdigits2. rewrite Pos2Z.inj_succ, Hdq.
        destruct (fexp_cases prec emax (Z.succ prec + ef)); lia. }
      exists z1, (Zpos q), (ef + 1). rewrite Hsh.
      repeat split; try assumption; try lia.
      * rewrite Hz1q, IZR_xO, pow2_succ. lra.
      * right. simpl Zdigits2. rewrite Hdq.
        destruct (fexp_cases prec emax (prec + (ef + 1))); lia.
    + assert (Hd : Zdigits2 z1 = prec) by (apply Zdigits2_unique; lia).
      apply Hnoshift.
      * rewrite Hd. destruct (fexp_cases prec emax (prec + ef)); lia.
      * right. rewrite Hd. destruct (fexp_cases prec emax (prec + ef)); lia.
  - (* below the normal range *)
    assert (Hz1hi : z1 <= 2 ^ (prec - 1)).
    { apply Hup. rewrite <- pow2_IZR by lia.
      apply Rlt_le. eapply Rlt_le_trans; [apply Hscaled|]. apply pow2_le. lia. }
    destruct (Z.eq_dec z1 0) as [Hz0 | Hz0].
    + apply Hnoshift; [|left; exact Hz0].
      rewrite Hz0. simpl Zdigits2.
      destruct (fexp_cases prec emax (0 + ef)); lia.
    + pose proof (Zdigits2_le z1 (prec - 1) ltac:(lia) ltac:(lia) Hz1hi) as Hd.
      apply Hnoshift.
      * destruct (fexp_cases prec emax (Zdigits2 z1 + ef)); lia.
      * right. destruct (fexp_cases prec emax (Zdigits2 z1 + ef)); lia.
Qed.

Lemma round_result_valid s z e2 :
  0 <= z -> (z = 0 \/ fexp (Zdigits2 z + e2) = e2) ->
  valid_binary prec emax (round_result prec emax s z e2) = true.
Proof.
  intros Hz Hcan. destruct z as [|p|p]; [reflexivity| |lia].
  destruct Hcan as [Hc | Hc]; [discriminate Hc|].
  simpl round_result. destruct (Z.leb_spec e2 (emax - prec)) as [Hle | Hgt]; [|reflexivity].
  simpl. unfold bounded, canonical_mantissa.
  apply andb_true_iff. split; [apply Z.eqb_eq; exact Hc | apply Z.leb_le; exact Hle].
Qed.

(** The result of rounding is a number of the format. *)
Lemma binary_round_aux_valid s m e l x :
  0 < m ->
  inbetween x (shr_record_of_loc m l) ->
  e <= fexp (Zdigits2 m + e) ->
  valid_binary prec emax (binary_round_aux prec emax s m e l) = true.
Proof.
  intros Hm Hin Hle.
  destruct (binary_round_aux_shift s m e l x Hm Hin Hle)
    as (z1 & z & e2 & _ & _ & _ & _ & Hz & _ & Hres & Hcan & _).
  rewrite Hres. apply round_result_valid; assumption.
Qed.

(** Aligning keeps the position of the leading digit and brings the
    exponent down to the target. *)
Lemma shl_align_digits mx ex ex' :
  Zpos (digits2_pos (fst (shl_align mx ex ex'))) + snd (shl_align mx ex ex')
  = Zpos (digits2_pos mx) + ex /\
  snd (shl_align mx ex ex') <= ex'.
Proof.
  unfold shl_align. destruct (ex' - ex) as [|d|d] eqn:E; cbn [fst snd]; try lia.
  split; [|lia].
  pose proof (digits2_bounds mx) as [Hlo Hhi].
  assert (Hd : Zpos (digits2_pos (Pos.iter xO mx d)) = Zpos (digits2_pos mx) + Zpos d).
  { apply digits2_unique. rewrite Pos_iter_xO.
    replace (Zpos (digits2_pos mx) + Zpos d - 1) with ((Zpos (digits2_pos mx) - 1) + Zpos d) by lia.
    rewrite !Z.pow_add_r by lia.
    assert (0 < 2 ^ Zpos d) by (apply Z.pow_pos_nonneg; lia). nia. }
  rewrite Hd. lia.
Qed.

Lemma binary_round_valid s m e :
  valid_binary prec emax (binary_round prec emax s m e) = true.
Proof.
  rewrite binary_round_value.
  pose proof (shl_align_digits m e (fexp (Zpos (digits2_pos m) + e))) as [Hd Hle].
  destruct (shl_align m e (fexp (Zpos (digits2_pos m) + e))) as [m' e'].
  simpl fst in *; simpl snd in *.
  apply (binary_round_aux_valid s (Zpos m') e' loc_Exact (IZR (Zpos m'))).
  - lia.
  - unfold inbetween. simpl. split; [lia | reflexivity].
  - simpl Zdigits2. rewrite Hd. exact Hle.
Qed.

(** Rounding a real that the format holds gives that number. *)
Lemma binary_round_aux_exact s m e l x my ey :
  0 < m ->
  inbetween x (shr_record_of_loc m l) ->
  e <= fexp (Zdigits2 m + e) ->
  bounded prec emax my ey = true ->
  (x * pow2 e = IZR (Zpos my) * pow2 ey)%R ->
  binary_round_aux prec emax s m e l = S754_finite s my ey.
Proof.
  intros Hm Hin Hle Hb Hval.
  destruct (binary_round_aux_shift s m e l x Hm Hin Hle)
    as (z1 & z & e2 & _ & Hup & Hlo & Hz1 & Hz & _ & Hres & Hcan & _).
  cbv zeta in *.
  unfold bounded, canonical_mantissa in Hb. apply andb_true_iff in Hb as [Hc Hfin].
  apply Z.eqb_eq in Hc. apply Z.leb_le in Hfin.
  assert (Hmy : inbetween (IZR (Zpos my)) (shr_record_of_loc (Zpos my) loc_Exact)).
  { unfold inbetween. simpl. split; [lia | reflexivity]. }
  pose proof (inbetween_magnitude x m l e Hm Hin) as HX.
  pose proof (inbetween_magnitude _ (Zpos my) loc_Exact ey ltac:(lia) Hmy) as HY.
  rewrite <- Hval in HY.
  pose proof (magnitude_unique _ _ _ HX HY) as Hmag. simpl Zdigits2 in Hmag.
  rewrite Hmag, Hc in *.
  assert (Hx : (x * pow2 (e - ey) = IZR (Zpos my))%R).
  { replace (e - ey) with (e + - ey) by lia.
    rewrite pow2_add, <- Rmult_assoc, Hval, Rmult_assoc, <- pow2_add.
    replace (ey + - ey) with 0 by lia. unfold pow2. simpl. lra. }
  rewrite Hx in Hup, Hlo.
  assert (Ez1 : z1 = Zpos my).
  { pose proof (Hup (Zpos my) (Rle_refl _)). pose proof (Hlo (Zpos my) (Rle_refl _)). lia. }
  subst z1.
  assert (Hzpos : 0 < z).
  { destruct (Z.eq_dec z 0) as [-> | Hne]; [exfalso | lia].
    rewrite Rmult_0_l in Hz1.
    pose proof (pow2_pos ey). assert (0 < IZR (Zpos my))%R by (apply IZR_lt; lia). nra. }
  destruct Hcan as [Hc0 | Hcan]; [lia|].
  assert (Hz' : inbetween (IZR z) (shr_record_of_loc z loc_Exact)).
  { unfold inbetween. simpl. split; [lia | reflexivity]. }
  pose proof (inbetween_magnitude _ z loc_Exact e2 Hzpos Hz') as HZ.
  rewrite Hz1, <- Hval in HZ.
  pose proof (magnitude_unique _ _ _ HZ HX) as Hmag2.
  rewrite Hmag2, Hc in Hcan. subst e2.
  apply Rmult_eq_reg_r in Hz1; [|pose proof (pow2_pos ey); lra].
  apply eq_IZR in Hz1. subst z.
  rewrite Hres. simpl round_result.
  destruct (Z.leb_spec ey (emax - prec)); [reflexivity | lia].
Qed.

Lemma pow2_lt_inv a b : (pow2 a <= pow2 b)%R -> a <= b.
Proof.
  intros H. destruct (Z_le_gt_dec a b) as [|Hgt]; [assumption|exfalso].
  assert (pow2 (b + 1) <= pow2 a)%R by (apply pow2_le; lia).
  rewrite pow2_succ in *. pose proof (pow2_pos b). lra.
Qed.

(** Rounding does not go past a power of two of the normal range. *)
Lemma binary_round_aux_le_pow2 s m e l x t :
  0 < m ->
  inbetween x (shr_record_of_loc m l) ->
  e <= fexp (Zdigits2 m + e) ->
  emin + prec - 1 <= t < emax ->
  (x * pow2 e <= pow2 t)%R ->
  is_finite_SF (binary_round_aux prec emax s m e l) = true /\
  (Rabs (SF2R (binary_round_aux prec emax s m e l)) <= pow2 t)%R.
Proof.
  intros Hm Hin Hle Ht Hxt.
  destruct (binary_round_aux_shift s m e l x Hm Hin Hle)
    as (z1 & z & e2 & _ & Hup & _ & Hz1 & Hz & _ & Hres & Hcan & _).
  cbv zeta in *.
  pose proof (inbetween_magnitude x m l e Hm Hin) as [HXlo HXhi].
  assert (Hd : Zdigits2 m + e - 1 <= t) by (apply pow2_lt_inv; lra).
  set (ef := fexp (Zdigits2 m + e)) in *.
  assert (Hef : ef <= t) by (unfold ef; destruct (fexp_cases prec emax (Zdigits2 m + e)); lia).
  assert (Hz1le : z1 <= 2 ^ (t - ef)).
  { apply Hup. rewrite <- pow2_IZR by lia.
    replace (e - ef) with (e + - ef) by lia. replace (t - ef) with (t + - ef) by lia.
    rewrite !pow2_add, <- Rmult_assoc.
    apply Rmult_le_compat_r; [apply Rlt_le, pow2_pos | exact Hxt]. }
  assert (Hzle : (IZR z * pow2 e2 <= pow2 t)%R).
  { rewrite Hz1. replace t with ((t - ef) + ef) at 1 by lia.
    rewrite pow2_add, (pow2_IZR (t - ef)) by lia.
    apply Rmult_le_compat_r; [apply Rlt_le, pow2_pos | apply IZR_le; exact Hz1le]. }
  rewrite Hres.
  destruct z as [|p|p]; [| |lia].
  - simpl. split; [reflexivity|]. rewrite Rabs_R0. apply Rlt_le, pow2_pos.
  - destruct Hcan as [Hc | Hcan]; [discriminate Hc|].
    assert (Hp : inbetween (IZR (Zpos p)) (shr_record_of_loc (Zpos p) loc_Exact)).
    { unfold inbetween. simpl. split; [lia | reflexivity]. }
    pose proof (inbetween_magnitude _ (Zpos p) loc_Exact e2 ltac:(lia) Hp) as [HZlo _].
    assert (Hdz : Zdigits2 (Zpos p) + e2 - 1 <= t) by (apply pow2_lt_inv; lra).
    assert (He2 : e2 <= emax - prec).
    { destruct (fexp_cases prec emax (Zdigits2 (Zpos p) + e2)); lia. }
    simpl round_result. destruct (Z.leb_spec e2 (emax - prec)); [|lia].
    split; [reflexivity|].
    simpl SF2R. rewrite IZR_cond_Zopp, Rmult_assoc, Rabs_sign_factor_mult.
    rewrite Rabs_pos_eq; [exact Hzle|].
    apply Rmult_le_pos; [apply IZR_le; lia | apply Rlt_le, pow2_pos].
Qed.

(** Rounding gives infinity exactly from [2^emax - 2^(emax - prec - 1)]
    on: the middle between the largest number of the format and [2^emax]. *)
Lemma binary_round_aux_overflow s m e l x :
  0 < m ->
  inbetween x (shr_record_of_loc m l) ->
  e <= fexp (Zdigits2 m + e) ->
  emin <= emax - prec ->
  (is_finite_SF (binary_round_aux prec emax s m e l) = false <->
   (pow2 emax - pow2 (emax - prec - 1) <= x * pow2 e)%R).
Proof.
  intros Hm Hin Hle Hrange.
  destruct (binary_round_aux_shift s m e l x Hm Hin Hle)
    as (z1 & z & e2 & Herr & Hup & Hlo & Hz1 & Hz & He2 & Hres & Hcan & Htie).
  cbv zeta in *.
  pose proof (inbetween_magnitude x m l e Hm Hin) as [HXlo HXhi].
  set (d := Zdigits2 m) in *. set (ef := fexp (d + e)) in *.
  set (X := (x * pow2 e)%R) in *.
  assert (HX' : (x * pow2 (e - ef) = X * pow2 (- ef))%R).
  { unfold X. rewrite Rmult_assoc, <- pow2_add. f_equal. }
  rewrite HX' in *.
  assert (Hpe : (pow2 (- ef) * pow2 ef = 1)%R).
  { rewrite <- pow2_add. replace (- ef + ef) with 0 by lia. reflexivity. }
  pose proof (pow2_pos ef) as Hpef. pose proof (pow2_pos (- ef)) as Hpnef.
  (* the rounded value against the real *)
  assert (Hnear : (Rabs (IZR z1 * pow2 ef - X) <= pow2 (ef - 1))%R).
  { replace (IZR z1 * pow2 ef - X)%R with ((IZR z1 - X * pow2 (- ef)) * pow2 ef)%R
      by (rewrite Rmult_minus_distr_r, Rmult_assoc, Hpe; ring).
    rewrite Rabs_mult, (Rabs_pos_eq (pow2 ef)) by lra.
    rewrite pow2_pred. pose proof (Rabs_pos (IZR z1 - X * pow2 (- ef))). nra. }
  apply Rabs_le_bounds in Hnear.
  (* finiteness of the result in terms of the rounded value *)
  assert (Hfin : is_finite_SF (binary_round_aux prec emax s m e l) = false <->
                 (pow2 emax <= IZR z * pow2 e2)%R).
  { rewrite Hres. destruct z as [|p|p]; [| |lia].
    - simpl. rewrite Rmult_0_l. pose proof (pow2_pos emax).
      split; [discriminate | intros; lra].
    - destruct Hcan as [Hc | Hcan]; [discriminate Hc|].
      pose proof (inbetween_magnitude _ (Zpos p) loc_Exact e2 ltac:(lia) (exact_inbetween p))
        as [HZlo HZhi].
      simpl round_result.
      destruct (Z.leb_spec e2 (emax - prec)) as [Hle2 | Hgt2]; simpl.
      + split; [discriminate|]. intros H. exfalso.
        assert (Zdigits2 (Zpos p) + e2 <= emax)
          by (destruct (fexp_cases prec emax (Zdigits2 (Zpos p) + e2)); lia).
        assert (pow2 (Zdigits2 (Zpos p) + e2) <= pow2 emax)%R by (apply pow2_le; lia).
        lra.
      + split; [|reflexivity]. intros _.
        assert (emax <= Zdigits2 (Zpos p) + e2 - 1)
          by (destruct (fexp_cases prec emax (Zdigits2 (Zpos p) + e2)); lia).
        apply Rle_trans with (pow2 (Zdigits2 (Zpos p) + e2 - 1)); [apply pow2_le; lia | lra]. }
  rewrite Hfin, Hz1.
  assert (Hhalf : (pow2 emax - pow2 (emax - prec - 1) >= pow2 (emax - 1))%R).
  { assert (pow2 (emax - prec - 1) <= pow2 (emax - 1))%R by (apply pow2_le; lia).
    rewrite (pow2_pred emax) in *. pose proof (pow2_pos emax). lra. }
  split.
  - (* the rounded value reaches 2^emax: the real is at or above the middle *)
    intros Hbig.
    destruct (Rle_lt_dec (pow2 emax - pow2 (emax - prec - 1)) X) as [|Hsmall];
      [assumption|exfalso].
    assert (Hd : d + e <= emax).
    { assert (d + e - 1 <= emax - 1); [|lia].
      apply pow2_lt_inv. pose proof (pow2_pos (emax - prec - 1)).
      rewrite (pow2_pred emax). rewrite (pow2_pred emax) in Hhalf.
      assert (pow2 (d + e - 1) < pow2 emax)%R by lra.
      destruct (Z_le_gt_dec (d + e - 1) (emax - 1)) as [Hok | Hbad].
      - rewrite <- (pow2_pred emax). apply pow2_le. exact Hok.
      - exfalso. assert (pow2 emax <= pow2 (d + e - 1))%R by (apply pow2_le; lia). lra. }
    assert (Hef : ef <= emax - prec)
      by (unfold ef; destruct (fexp_cases prec emax (d + e)); lia).
    assert (pow2 (ef - 1) <= pow2 (emax - prec - 1))%R by (apply pow2_le; lia).
    lra.
  - (* the real is at or above the middle: the rounded value reaches 2^emax *)
    intros Hbig.
    assert (Hd : emax <= d + e).
    { destruct (Z_le_gt_dec emax (d + e)) as [|Hbad]; [assumption|exfalso].
      assert (pow2 (d + e) <= pow2 (emax - 1))%R by (apply pow2_le; lia). lra. }
    assert (Hef : ef = d + e - prec)
      by (unfold ef; destruct (fexp_cases prec emax (d + e)); lia).
    assert (Hz1lo : 2 ^ (prec - 1) <= z1).
    { apply Hlo. rewrite <- pow2_IZR by lia.
      apply Rmult_le_reg_r with (pow2 ef); [exact Hpef|].
      rewrite Rmult_assoc, Hpe, Rmult_1_r, <- pow2_add.
      replace (prec - 1 + ef) with (d + e - 1) by lia. exact HXlo. }
    destruct (Z_lt_le_dec (emax - prec) ef) as [Hgt | Hle'].
    + apply Rle_trans with (IZR (2 ^ (prec - 1)) * pow2 ef)%R.
      * rewrite <- pow2_IZR, <- pow2_add by lia. apply pow2_le. lia.
      * apply Rmult_le_compat_r; [lra | apply IZR_le; exact Hz1lo].
    + assert (Hefeq : ef = emax - prec) by lia.
      assert (HXs : (IZR (2 ^ prec - 1) + / 2 <= X * pow2 (- ef))%R).
      { rewrite minus_IZR, <- pow2_IZR by lia.
        apply Rmult_le_reg_r with (pow2 ef); [exact Hpef|].
        rewrite Rmult_assoc, Hpe, Rmult_1_r.
        replace ((pow2 prec - 1 + / 2) * pow2 ef)%R
          with (pow2 prec * pow2 ef - pow2 ef / 2)%R by field.
        rewrite <- pow2_add, <- pow2_pred.
        replace (prec + ef) with emax by lia.
        replace (ef - 1) with (emax - prec - 1) by lia. exact Hbig. }
      assert (Hz1ge : 2 ^ prec - 1 <= z1) by (apply Hlo; lra).
      assert (Hz1ne : z1 <> 2 ^ prec - 1).
      { intros E. apply Rabs_le_bounds in Herr. rewrite E in Herr.
        assert (Heq : (X * pow2 (- ef) = IZR (2 ^ prec - 1) + / 2)%R) by lra.
        specialize (Htie _ Heq). rewrite E in Htie.
        replace (2 ^ prec - 1) with (2 * 2 ^ (prec - 1) - 1) in Htie.
        2:{ replace prec with (1 + (prec - 1)) at 2 by lia.
            rewrite Z.pow_add_r by lia. reflexivity. }
        rewrite Z.even_sub, Z.even_mul in Htie. discriminate Htie. }
      replace emax with (prec + ef) by lia. rewrite pow2_add, (pow2_IZR prec) by lia.
      apply Rmult_le_compat_r; [lra | apply IZR_le; lia].
Qed.

End RoundCanonical.


(** ** Single precision: results are numbers of the format *)

(** The product of the mantissas of a number of the format with itself has
    to be shifted right. *)
Lemma square_shift_condition m e :
  bounded prec32 emax32 m e = true ->
  e + e <= fexp prec32 emax32 (Zdigits2 (Zpos (m * m)) + (e + e)).
Proof.
  intros Hb. unfold bounded, canonical_mantissa in Hb.
  apply andb_true_iff in Hb as [Hc _]. apply Z.eqb_eq in Hc.
  pose proof (digits2_bounds m) as [Hlo _].
  pose proof (digits2_bounds (m * m)) as [_ Hhi].
  simpl Zdigits2.
  set (d := Zpos (digits2_pos m)) in *. set (D := Zpos (digits2_pos (m * m))) in *.
  assert (Hd : 0 < d) by (unfold d; lia).
  assert (HD : 2 * d - 2 < D).
  { destruct (Z_lt_le_dec (2 * d - 2) D) as [|Hle]; [assumption|exfalso].
    assert (0 < D) by (unfold D; lia).
    assert (2 ^ D <= 2 ^ (2 * d - 2)) by (apply Z.pow_le_mono_r; lia).
    replace (2 * d - 2) with ((d - 1) + (d - 1)) in * by lia.
    rewrite Z.pow_add_r in * by lia.
    rewrite Pos2Z.inj_mul in Hhi.
    assert (0 < 2 ^ (d - 1)) by (apply Z.pow_pos_nonneg; lia). nia. }
  pose proof f32_emin as Hemin.
  destruct (fexp_cases prec32 emax32 (d + e)) as [[Hf Hge] | [Hf Hlt]];
    destruct (fexp_cases prec32 emax32 (D + (e + e))) as [[Hg ?] | [Hg ?]];
    unfold prec32 in *; lia.
Qed.

Lemma c_float_of_double_valid x :
  valid_binary prec32 emax32 (c_float_of_double x) = true.
Proof.
  destruct x as [s | s | | s m e]; try reflexivity.
  apply binary_round_valid. exact prec32_pos.
Qed.

Lemma f32_square_valid x :
  valid_binary prec32 emax32 x = true ->
  valid_binary prec32 emax32 (f32_square x) = true.
Proof.
  destruct x as [s | s | | s m e]; try reflexivity.
  intros Hb. unfold f32_square. rewrite SFmul_finite.
  apply (binary_round_aux_valid prec32 emax32 prec32_pos _ _ _ _ (IZR (Zpos (m * m)))).
  - lia.
  - apply exact_inbetween.
  - apply square_shift_condition. exact Hb.
Qed.

Lemma f32_sqrt_valid x : valid_binary prec32 emax32 (f32_sqrt x) = true.
Proof.
  destruct x as [s | [|] | | [|] m e]; try reflexivity.
  unfold f32_sqrt, SFsqrt.
  pose proof (SFsqrt_core_binary_spec prec32 emax32 prec32_pos emax32_large m e) as Hcore.
  cbv zeta in Hcore.
  destruct (SFsqrt_core_binary prec32 emax32 (Zpos m) e) as [[q e1] l].
  cbn [fst snd] in Hcore. destruct Hcore as (Hq & Hin & Hdig & He1).
  apply (binary_round_aux_valid prec32 emax32 prec32_pos _ _ _ _ _ Hq Hin).
  rewrite Hdig. exact He1.
Qed.

(** ** Single precision: representable results are exact *)

Lemma SF2R_finite_eq s m e s' m' e' :
  SF2R (S754_finite s m e) = SF2R (S754_finite s' m' e') ->
  s = s' /\ (IZR (Zpos m) * pow2 e = IZR (Zpos m') * pow2 e')%R.
Proof.
  simpl SF2R. rewrite !IZR_cond_Zopp.
  assert (H1 : (0 < IZR (Zpos m) * pow2 e)%R)
    by (apply Rmult_lt_0_compat; [apply IZR_lt; lia | apply pow2_pos]).
  assert (H2 : (0 < IZR (Zpos m') * pow2 e')%R)
    by (apply Rmult_lt_0_compat; [apply IZR_lt; lia | apply pow2_pos]).
  rewrite !Rmult_assoc.
  destruct s, s'; simpl sign_factor; intros H; try (exfalso; lra); split; try reflexivity; lra.
Qed.

(** [ctypes.c_float] on a double that a single holds exactly. *)
Lemma c_float_of_double_exact s m e s' m' e' :
  bounded prec32 emax32 m' e' = true ->
  SF2R (S754_finite s m e) = SF2R (S754_finite s' m' e') ->
  c_float_of_double (S754_finite s m e) = S754_finite s' m' e'.
Proof.
  intros Hb Hval. apply SF2R_finite_eq in Hval as [<- Hval].
  unfold c_float_of_double. rewrite binary_round_value.
  pose proof (shl_align_digits m e (fexp prec32 emax32 (Zpos (digits2_pos m) + e))) as [Hd Hle].
  pose proof (shl_align_value m e (fexp prec32 emax32 (Zpos (digits2_pos m) + e))) as Hv.
  destruct (shl_align m e (fexp prec32 emax32 (Zpos (digits2_pos m) + e))) as [m1 e1].
  cbn [fst snd] in *.
  apply (binary_round_aux_exact prec32 emax32 prec32_pos s (Zpos m1) e1 loc_Exact
           (IZR (Zpos m1))).
  - lia.
  - apply exact_inbetween.
  - simpl Zdigits2. rewrite Hd. exact Hle.
  - exact Hb.
  - rewrite Hv. exact Hval.
Qed.

(** [a**2] when a single holds the exact square. *)
Lemma f32_square_exact s m e m' e' :
  bounded prec32 emax32 m e = true ->
  bounded prec32 emax32 m' e' = true ->
  (SF2R (S754_finite s m e) * SF2R (S754_finite s m e) = SF2R (S754_finite false m' e'))%R ->
  f32_square (S754_finite s m e) = S754_finite false m' e'.
Proof.
  intros Hb Hb' Hval. unfold f32_square. rewrite SFmul_finite, xorb_nilpotent.
  apply (binary_round_aux_exact prec32 emax32 prec32_pos false (Zpos (m * m)) (e + e)
           loc_Exact (IZR (Zpos (m * m)))).
  - lia.
  - apply exact_inbetween.
  - apply square_shift_condition. exact Hb.
  - exact Hb'.
  - rewrite SF2R_mul_finite, xorb_nilpotent in Hval. simpl SF2R in Hval.
    simpl sign_factor in Hval. lra.
Qed.

(** [SQRT(b)] when a single holds the exact root. *)
Lemma f32_sqrt_exact m e m' e' :
  bounded prec32 emax32 m' e' = true ->
  (SF2R (S754_finite false m' e') * SF2R (S754_finite false m' e')
   = SF2R (S754_finite false m e))%R ->
  f32_sqrt (S754_finite false m e) = S754_finite false m' e'.
Proof.
  intros Hb Hval. unfold f32_sqrt, SFsqrt.
  pose proof (SFsqrt_core_binary_spec prec32 emax32 prec32_pos emax32_large m e) as Hcore.
  cbv zeta in Hcore.
  destruct (SFsqrt_core_binary prec32 emax32 (Zpos m) e) as [[q e1] l].
  cbn [fst snd] in Hcore. destruct Hcore as (Hq & Hin & Hdig & He1).
  apply (binary_round_aux_exact prec32 emax32 prec32_pos false q e1 l _ m' e' Hq Hin).
  - rewrite Hdig. exact He1.
  - exact Hb.
  - simpl SF2R in Hval. rewrite !Rmult_1_l in Hval || idtac.
    assert (Hz : (0 <= IZR (Zpos m') * pow2 e')%R)
      by (apply Rmult_le_pos; [apply IZR_le; lia | apply Rlt_le, pow2_pos]).
    rewrite <- Hval, sqrt_square by exact Hz.
    rewrite Rmult_assoc, <- pow2_add. replace (- e1 + e1) with 0 by lia.
    unfold pow2. simpl. lra.
Qed.

(** ** Single precision: squares that stay in range *)

Lemma c_float_of_double_le_pow2 s m e t :
  -126 <= t < 128 ->
  (Rabs (SF2R (S754_finite s m e)) <= pow2 t)%R ->
  is_finite_SF (c_float_of_double (S754_finite s m e)) = true /\
  (Rabs (SF2R (c_float_of_double (S754_finite s m e))) <= pow2 t)%R.
Proof.
  intros Ht Hx. unfold c_float_of_double. rewrite binary_round_value.
  pose proof (shl_align_digits m e (fexp prec32 emax32 (Zpos (digits2_pos m) + e))) as [Hd Hle].
  pose proof (shl_align_value m e (fexp prec32 emax32 (Zpos (digits2_pos m) + e))) as Hv.
  destruct (shl_align m e (fexp prec32 emax32 (Zpos (digits2_pos m) + e))) as [m1 e1].
  cbn [fst snd] in *.
  apply (binary_round_aux_le_pow2 prec32 emax32 prec32_pos s (Zpos m1) e1 loc_Exact
           (IZR (Zpos m1))).
  - lia.
  - apply exact_inbetween.
  - simpl Zdigits2. rewrite Hd. exact Hle.
  - rewrite f32_emin. unfold prec32, emax32. lia.
  - rewrite Hv. simpl SF2R in Hx. rewrite IZR_cond_Zopp, Rmult_assoc, Rabs_sign_factor_mult in Hx.
    rewrite Rabs_pos_eq in Hx; [exact Hx|].
    apply Rmult_le_pos; [apply IZR_le; lia | apply Rlt_le, pow2_pos].
Qed.

Lemma f32_square_le_pow2 s m e t :
  bounded prec32 emax32 m e = true ->
  -63 <= t <= 63 ->
  (Rabs (SF2R (S754_finite s m e)) <= pow2 t)%R ->
  is_finite_SF (f32_square (S754_finite s m e)) = true /\
  (Rabs (SF2R (f32_square (S754_finite s m e))) <= pow2 (t + t))%R.
Proof.
  intros Hb Ht Hx. unfold f32_square. rewrite SFmul_finite.
  apply (binary_round_aux_le_pow2 prec32 emax32 prec32_pos _ (Zpos (m * m)) (e + e) loc_Exact
           (IZR (Zpos (m * m)))).
  - lia.
  - apply exact_inbetween.
  - apply square_shift_condition. exact Hb.
  - rewrite f32_emin. unfold prec32, emax32. lia.
  - simpl SF2R in Hx. rewrite IZR_cond_Zopp, Rmult_assoc, Rabs_sign_factor_mult in Hx.
    assert (Hpos : (0 <= IZR (Zpos m) * pow2 e)%R)
      by (apply Rmult_le_pos; [apply IZR_le; lia | apply Rlt_le, pow2_pos]).
    rewrite Rabs_pos_eq in Hx by exact Hpos.
    rewrite Pos2Z.inj_mul, mult_IZR, !pow2_add.
    replace (IZR (Zpos m) * IZR (Zpos m) * (pow2 e * pow2 e))%R
      with ((IZR (Zpos m) * pow2 e) * (IZR (Zpos m) * pow2 e))%R by ring.
    pose proof (pow2_pos t). apply Rmult_le_compat; assumption.
Qed.

(** A Python float of magnitude at most [2^63], boxed and squared: the
    single precision square is finite. *)
Lemma boxed_square_finite x :
  is_finite_SF x = true ->
  (Rabs (SF2R x) <= pow2 63)%R ->
  is_finite_SF (f32_square (c_float_of_double x)) = true.
Proof.
  intros Hfin Hx.
  destruct x as [s | s | | s m e]; try discriminate Hfin; [reflexivity|].
  destruct (c_float_of_double_le_pow2 s m e 63 ltac:(lia) Hx) as [Hvfin Hv].
  pose proof (c_float_of_double_valid (S754_finite s m e)) as Hvalid.
  destruct (c_float_of_double (S754_finite s m e)) as [s1 | s1 | | s1 m1 e1];
    try discriminate Hvfin; [reflexivity|].
  apply (f32_square_le_pow2 s1 m1 e1 63 Hvalid ltac:(lia) Hv).
Qed.


(** ** Signs and NaN *)

Lemma f32_square_sign x :
  (f32_square x = S754_nan <-> x = S754_nan) /\ f32_neg (f32_square x) = false.
Proof.
  destruct x as [s | s | | s m e].
  - simpl. rewrite xorb_nilpotent. split; [split; discriminate | reflexivity].
  - simpl. rewrite xorb_nilpotent. split; [split; discriminate | reflexivity].
  - split; [split; reflexivity | reflexivity].
  - unfold f32_square. rewrite SFmul_finite.
    pose proof (binary_round_aux_signed prec32 emax32 prec32_pos (xorb s s) (m * m) (e + e))
      as (Hnan & _ & _ & Hinf & Hsign & Hzero).
    cbv zeta in *. rewrite xorb_nilpotent in *.
    destruct (binary_round_aux prec32 emax32 false (Zpos (m * m)) (e + e) loc_Exact)
      as [s1 | s1 | | s1 m1 e1].
    + rewrite (Hzero s1 eq_refl). split; [split; discriminate | reflexivity].
    + rewrite (Hinf s1 eq_refl). split; [split; discriminate | reflexivity].
    + congruence.
    + destruct (Hsign s1 m1 e1 eq_refl) as [-> _].
      split; [split; discriminate | reflexivity].
Qed.

Lemma f32_sqrt_pos_not_nan m e : f32_sqrt (S754_finite false m e) <> S754_nan.
Proof.
  unfold f32_sqrt, SFsqrt.
  pose proof (SFsqrt_core_binary_spec prec32 emax32 prec32_pos emax32_large m e) as Hcore.
  cbv zeta in Hcore.
  destruct (SFsqrt_core_binary prec32 emax32 (Zpos m) e) as [[q e1] l].
  cbn [fst snd] in Hcore. destruct Hcore as (Hq & Hin & Hdig & He1).
  destruct (binary_round_aux_spec prec32 emax32 prec32_pos false q e1 l _ Hq Hin)
    as (z & e2 & Hz & _ & Hres & _).
  { right. rewrite Hdig. exact He1. }
  rewrite Hres. destruct z as [|p|p]; simpl; try discriminate; [|lia].
  destruct (e2 <=? emax32 - prec32); discriminate.
Qed.

Lemma f32_sqrt_nan_iff x :
  f32_sqrt x = S754_nan <-> (x = S754_nan \/ f32_neg x = true).
Proof.
  destruct x as [s | [|] | | [|] m e]; simpl.
  - split; [discriminate | intros [H | H]; discriminate].
  - split; [intros _; right; reflexivity | reflexivity].
  - split; [discriminate | intros [H | H]; discriminate].
  - split; [intros _; left; reflexivity | reflexivity].
  - split; [intros _; right; reflexivity | reflexivity].
  - split.
    + intros H. exfalso. exact (f32_sqrt_pos_not_nan m e H).
    + intros [H | H]; discriminate.
Qed.


(** ** Single precision: when a result is out of range *)

Lemma overflow_threshold32_pos : (0 < overflow_threshold32)%R.
Proof.
  unfold overflow_threshold32.
  assert (pow2 104 <= pow2 128)%R by (apply pow2_le; lia).
  replace 104 with (103 + 1) in H by lia. rewrite pow2_succ in H.
  pose proof (pow2_pos 103). lra.
Qed.

Lemma abs_SF2R_finite s m e :
  Rabs (SF2R (S754_finite s m e)) = (IZR (Zpos m) * pow2 e)%R.
Proof.
  simpl SF2R. rewrite IZR_cond_Zopp, Rmult_assoc, Rabs_sign_factor_mult.
  apply Rabs_pos_eq.
  apply Rmult_le_pos; [apply IZR_le; lia | apply Rlt_le, pow2_pos].
Qed.

Lemma square_SF2R_finite s m e :
  (SF2R (S754_finite s m e) * SF2R (S754_finite s m e)
   = IZR (Zpos (m * m)) * pow2 (e + e))%R.
Proof.
  rewrite SF2R_mul_finite, xorb_nilpotent. simpl sign_factor. lra.
Qed.

(** The box holds an infinity exactly when the Python float is, in
    magnitude, at or above the threshold. *)
Lemma c_float_of_double_overflow s m e :
  is_finite_SF (c_float_of_double (S754_finite s m e)) = false <->
  (overflow_threshold32 <= Rabs (SF2R (S754_finite s m e)))%R.
Proof.
  unfold c_float_of_double. rewrite binary_round_value, abs_SF2R_finite.
  pose proof (shl_align_digits m e (fexp prec32 emax32 (Zpos (digits2_pos m) + e))) as [Hd Hle].
  pose proof (shl_align_value m e (fexp prec32 emax32 (Zpos (digits2_pos m) + e))) as Hv.
  destruct (shl_align m e (fexp prec32 emax32 (Zpos (digits2_pos m) + e))) as [m1 e1].
  cbn [fst snd] in *. rewrite <- Hv.
  apply (binary_round_aux_overflow prec32 emax32 prec32_pos s (Zpos m1) e1 loc_Exact
           (IZR (Zpos m1))).
  - lia.
  - apply exact_inbetween.
  - simpl Zdigits2. rewrite Hd. exact Hle.
  - rewrite f32_emin. unfold prec32, emax32. lia.
Qed.

(** The square of a single precision number is infinite exactly when the
    exact square is at or above the threshold. *)
Lemma f32_square_overflow s m e :
  bounded prec32 emax32 m e = true ->
  is_finite_SF (f32_square (S754_finite s m e)) = false <->
  (overflow_threshold32 <= SF2R (S754_finite s m e) * SF2R (S754_finite s m e))%R.
Proof.
  intros Hb. unfold f32_square. rewrite SFmul_finite, square_SF2R_finite.
  apply (binary_round_aux_overflow prec32 emax32 prec32_pos _ (Zpos (m * m)) (e + e) loc_Exact
           (IZR (Zpos (m * m)))).
  - lia.
  - apply exact_inbetween.
  - apply square_shift_condition. exact Hb.
  - rewrite f32_emin. unfold prec32, emax32. lia.
Qed.

Lemma f32_square_infinite_iff x :
  valid_binary prec32 emax32 x = true ->
  is_finite_SF (f32_square x) = false <->
  (is_finite_SF x = false \/ (overflow_threshold32 <= SF2R x * SF2R x)%R).
Proof.
  intros Hv. pose proof overflow_threshold32_pos as HT.
  destruct x as [s | s | | s m e].
  - simpl. rewrite Rmult_0_l. split; [discriminate | intros [H | H]; [discriminate | lra]].
  - simpl. split; [left; reflexivity | reflexivity].
  - simpl. split; [left; reflexivity | reflexivity].
  - rewrite (f32_square_overflow s m e Hv). simpl is_finite_SF.
    split; [intros H; right; exact H | intros [H | H]; [discriminate | exact H]].
Qed.

(** When a single precision number holds the exact square, the square is
    that number. *)
Lemma f32_square_exact_value x y :
  valid_binary prec32 emax32 x = true -> is_finite_SF x = true ->
  valid_binary prec32 emax32 y = true -> is_finite_SF y = true ->
  SF2R y = (SF2R x * SF2R x)%R ->
  is_finite_SF (f32_square x) = true /\ SF2R (f32_square x) = (SF2R x * SF2R x)%R.
Proof.
  intros Hvx Hfx Hvy Hfy Heq.
  destruct x as [s | s | | s m e]; try discriminate Hfx.
  - simpl. split; [reflexivity | lra].
  - assert (Hpos : (0 < SF2R (S754_finite s m e) * SF2R (S754_finite s m e))%R).
    { rewrite square_SF2R_finite.
      apply Rmult_lt_0_compat; [apply IZR_lt; lia | apply pow2_pos]. }
    destruct y as [sy | sy | | sy my ey]; try discriminate Hfy.
    { simpl SF2R in Heq at 1. lra. }
    assert (sy = false).
    { destruct sy; [exfalso | reflexivity].
      rewrite <- Heq in Hpos. simpl in Hpos. rewrite opp_IZR in Hpos.
      assert (0 < IZR (Zpos my) * pow2 ey)%R
        by (apply Rmult_lt_0_compat; [apply IZR_lt; lia | apply pow2_pos]).
      lra. }
    subst sy.
    rewrite (f32_square_exact s m e my ey Hvx Hvy (eq_sym Heq)).
    split; [reflexivity | exact Heq].
Qed.

Section RoundedSquare.
Variables prec emax : Z.
Hypothesis Hprec : 0 < prec.

(** The multiplication of the format gives the rounded square. *)
Lemma SFmul_is_rounded_square x : is_rounded_square prec emax x (SFmul prec emax x x).
Proof.
  destruct x as [s | s | | s m e]; unfold is_rounded_square.
  - simpl. rewrite xorb_nilpotent. reflexivity.
  - simpl. rewrite xorb_nilpotent. reflexivity.
  - reflexivity.
  - pose proof (binary_round_aux_signed prec emax Hprec (xorb s s) (m * m) (e + e))
      as (Hnan & Hfin & _ & Hinf & _ & _).
    cbv zeta in *. rewrite SFmul_finite, SF2R_mul_finite.
    split; [exact Hnan|]. split; [exact Hfin|].
    intros Hnf.
    destruct (binary_round_aux prec emax (xorb s s) (Zpos (m * m)) (e + e) loc_Exact)
      as [| s' | |] eqn:E; try discriminate Hnf; [|congruence].
    rewrite (Hinf s' eq_refl), xorb_nilpotent. reflexivity.
Qed.

(** The conversion to the format gives the rounded value. *)
Lemma binary_round_is_rounded_value s m e :
  is_rounded_value prec emax (S754_finite s m e) (binary_round prec emax s m e).
Proof.
  unfold is_rounded_value. rewrite binary_round_value.
  pose proof (binary_round_aux_signed prec emax Hprec s
                (fst (shl_align m e (fexp prec emax (Zpos (digits2_pos m) + e))))
                (snd (shl_align m e (fexp prec emax (Zpos (digits2_pos m) + e)))))
    as (Hnan & Hfin & _ & Hinf & _ & _).
  cbv zeta in Hnan, Hfin, Hinf. rewrite shl_align_value in Hfin.
  split; [exact Hnan|]. split.
  - simpl SF2R. rewrite IZR_cond_Zopp, Rmult_assoc. exact Hfin.
  - intros Hnf.
    destruct (binary_round_aux prec emax s _ _ loc_Exact) as [| s' | |] eqn:E;
      try discriminate Hnf; [|congruence].
    rewrite (Hinf s' eq_refl). reflexivity.
Qed.

End RoundedSquare.

Lemma c_float_of_double_is_rounded_value x :
  is_rounded_value prec32 emax32 x (c_float_of_double x).
Proof.
  destruct x as [s | s | | s m e]; try reflexivity.
  apply binary_round_is_rounded_value. exact prec32_pos.
Qed.

Lemma f32_square_is_rounded_square x : is_rounded_square prec32 emax32 x (f32_square x).
Proof. apply SFmul_is_rounded_square. exact prec32_pos. Qed.

(** [a**2] in single precision, against the exact square. *)
Lemma f32_square_correct x :
  is_rounded_square prec32 emax32 x (f32_square x) /\
  (valid_binary prec32 emax32 x = true -> is_finite_SF x = true ->
   (is_finite_SF (f32_square x) = false <->
    (overflow_threshold32 <= SF2R x * SF2R x)%R) /\
   (forall y, valid_binary prec32 emax32 y = true -> is_finite_SF y = true ->
              SF2R y = (SF2R x * SF2R x)%R ->
              is_finite_SF (f32_square x) = true /\
              SF2R (f32_square x) = (SF2R x * SF2R x)%R)).
Proof.
  split; [apply f32_square_is_rounded_square|].
  intros Hv Hf. split.
  - rewrite (f32_square_infinite_iff x Hv), Hf.
    split; [intros [H | H]; [discriminate | exact H] | intros H; right; exact H].
  - intros y Hvy Hfy Hy. apply (f32_square_exact_value x y); assumption.
Qed.

Lemma c_float_of_double_infinite_iff x :
  is_finite_SF x = true ->
  is_finite_SF (c_float_of_double x) = false <->
  (overflow_threshold32 <= Rabs (SF2R x))%R.
Proof.
  intros Hf. pose proof overflow_threshold32_pos as HT.
  destruct x as [s | s | | s m e]; try discriminate Hf.
  - simpl. rewrite Rabs_R0. split; [discriminate | intros; lra].
  - apply c_float_of_double_overflow.
Qed.

(** ** The search for a symbol *)

Lemma dlsym_inv tab name v :
  dlsym tab name = Some v ->
  exists s, In s tab /\ st_name s = name /\ st_value s = v /\
            is_exported s = true /\ is_defined s = true.
Proof.
  unfold dlsym. destruct (find _ tab) as [s|] eqn:E; [|discriminate].
  intros H. injection H as <-.
  apply find_some in E as [Hin Hs].
  apply andb_true_iff in Hs as [Hs Hdef]. apply andb_true_iff in Hs as [Hs Hexp].
  apply String.eqb_eq in Hs. exists s. repeat split; assumption.
Qed.

Lemma dlsym_tree_None tabs name :
  dlsym_tree tabs name = None <-> (forall tab, In tab tabs -> dlsym tab name = None).
Proof.
  induction tabs as [|tab rest IH]; simpl.
  - split; [intros _ tab [] | reflexivity].
  - destruct (dlsym tab name) as [v|] eqn:E.
    + split; [discriminate|]. intros H. specialize (H tab (or_introl eq_refl)). congruence.
    + destruct (dlsym_tree rest name) as [[k v]|].
      * split; [discriminate|]. intros H. exfalso.
        assert (Hn : Some (k, v) = @None (nat * Z)); [|discriminate Hn].
        apply IH. intros t Ht. apply H. right. exact Ht.
      * split; [|reflexivity]. intros _ t [<- | Ht]; [exact E|].
        apply IH; [reflexivity | exact Ht].
Qed.

Lemma dlsym_tree_Some tabs name :
  forall k v, dlsym_tree tabs name = Some (k, v) ->
    exists tab, nth_error tabs k = Some tab /\ dlsym tab name = Some v.
Proof.
  induction tabs as [|tab rest IH]; simpl; intros k v H; [discriminate|].
  destruct (dlsym tab name) as [v0|] eqn:E.
  - injection H as <- <-. exists tab. split; [reflexivity | exact E].
  - destruct (dlsym_tree rest name) as [[k0 v0]|] eqn:E'; [|discriminate].
    injection H as <- <-. destruct (IH _ _ eq_refl) as (t & Ht & Hv).
    exists t. split; [exact Ht | exact Hv].
Qed.

Lemma existsb_eqb_false name attrs :
  ~ In name attrs -> existsb (String.eqb name) attrs = false.
Proof.
  intros H. destruct (existsb (String.eqb name) attrs) eqn:E; [exfalso | reflexivity].
  apply existsb_exists in E as (a & Ha & Heq). apply String.eqb_eq in Heq.
  subst a. exact (H Ha).
Qed.

(** For a name the unit defines itself, attribute access gives the unit's
    own symbol, whatever the unit depends on. *)
Lemma getattribute_own_symbol attrs (lib : shared_unit) needed name h :
  ~ In name attrs ->
  is_dunder name = false ->
  CDLL_getattr lib name = inr h ->
  CDLL_getattribute attrs (dynsym lib :: needed) name = Function 0 h.
Proof.
  intros Hattr Hd. unfold CDLL_getattr, CDLL_getattribute.
  rewrite (existsb_eqb_false _ _ Hattr), Hd. simpl dlsym_tree.
  destruct (dlsym (dynsym lib) name) as [v|]; [|discriminate].
  intros H. injection H as <-. reflexivity.
Qed.


(** ** The array routine *)

(** Claim C1, as the code has it.  [square(a, ij, ik)] on an [ij] by [ik]
    buffer of single precision cells returns, leaves both extents and the
    set of allocated cells as they were (the buffer is still [ij * ik]
    reals), and leaves cells outside the buffer untouched.  At every
    position [(i, j)] with [1 <= i <= ij], [1 <= j <= ik] it leaves the
    square of the value [x] that was there as single precision has it:
    NaN for NaN, [+infinity] for an infinity; for a finite [x] a number
    that is not NaN, finite and within rounding tolerance of the exact
    [x * x] or [+infinity].  When [x] is a number of the format, the result
    is [+infinity] exactly when [x * x] is at least [2^128 - 2^103], and it
    is exactly [x * x] whenever a single precision number holds [x * x]. *)
Theorem array_square_elementwise a ij ik (m : gmap Z cell) nij nik :
  read_int m ij = Some nij ->
  read_int m ik = Some nik ->
  0 <= nij -> 0 <= nik ->
  real_buffer m a (Z.to_nat (nij * nik)) = true ->
  exists m',
    SubroutinesArray.square a ij ik m = Some m' /\
    read_int m' ij = Some nij /\
    read_int m' ik = Some nik /\
    dom m' = dom m /\
    real_buffer m' a (Z.to_nat (nij * nik)) = true /\
    (forall i j, 1 <= i <= nij -> 1 <= j <= nik ->
       exists x r,
         read_real m (elem_addr a nij i j) = Some x /\
         read_real m' (elem_addr a nij i j) = Some r /\
         r = f32_square x /\
         is_rounded_square prec32 emax32 x r /\
         (valid_binary prec32 emax32 x = true -> is_finite_SF x = true ->
          (is_finite_SF r = false <-> (overflow_threshold32 <= SF2R x * SF2R x)%R) /\
          (forall y, valid_binary prec32 emax32 y = true -> is_finite_SF y = true ->
                     SF2R y = (SF2R x * SF2R x)%R ->
                     is_finite_SF r = true /\ SF2R r = (SF2R x * SF2R x)%R))) /\
    (forall p, ~ (a <= p < a + nij * nik) -> m' !! p = m !! p).
Proof.
  intros Hij Hik Hnij Hnik Hbuf.
  destruct (square_array_spec a ij ik m nij nik Hij Hik Hnij Hnik Hbuf)
    as (m' & Hrun & Hin & Hout & Hdom).
  pose proof (real_buffer_spec _ _ _ Hbuf) as Hreal.
  assert (Hint : forall q n, read_int m q = Some n -> read_int m' q = Some n).
  { intros q n Hq. unfold read_int. rewrite Hout; [exact Hq|].
    intros Hrange. destruct (Hreal (q - a)) as [x Hx]; [nia|].
    replace (a + (q - a)) with q in Hx by lia.
    unfold read_int in Hq. unfold read_real in Hx.
    destruct (m !! q) as [[y|k]|]; discriminate. }
  exists m'. split; [exact Hrun|].
  split; [apply Hint; exact Hij|]. split; [apply Hint; exact Hik|].
  split; [exact Hdom|]. split; [|split].
  - unfold real_buffer. apply forallb_forall. intros k Hk. apply in_seq in Hk.
    rewrite Hin by nia. destruct (Hreal (Z.of_nat k)) as [x Hx]; [nia|].
    rewrite Hx. reflexivity.
  - intros i j Hi Hj. unfold elem_addr.
    destruct (Hreal ((i - 1) + (j - 1) * nij)) as [x Hx]; [nia|].
    replace (a + (i - 1 + (j - 1) * nij)) with (a + (i - 1) + (j - 1) * nij) in Hx by lia.
    exists x, (f32_square x). split; [exact Hx|].
    split; [rewrite Hin by nia; rewrite Hx; reflexivity|].
    split; [reflexivity|]. apply f32_square_correct.
  - exact Hout.
Qed.

(** The 2 by 2 array of the notebook, at address 0, with its extents at
    addresses 100 and 101. *)
Lemma array_square_elementwise_witness :
  exists m',
    SubroutinesArray.square 0 100 101 target_array_memory = Some m' /\
    read_int m' 100 = Some 2 /\
    read_int m' 101 = Some 2 /\
    dom m' = dom target_array_memory /\
    real_buffer m' 0 (Z.to_nat (2 * 2)) = true /\
    (forall i j, 1 <= i <= 2 -> 1 <= j <= 2 ->
       exists x r,
         read_real target_array_memory (elem_addr 0 2 i j) = Some x /\
         read_real m' (elem_addr 0 2 i j) = Some r /\
         r = f32_square x /\
         is_rounded_square prec32 emax32 x r /\
         (valid_binary prec32 emax32 x = true -> is_finite_SF x = true ->
          (is_finite_SF r = false <-> (overflow_threshold32 <= SF2R x * SF2R x)%R) /\
          (forall y, valid_binary prec32 emax32 y = true -> is_finite_SF y = true ->
                     SF2R y = (SF2R x * SF2R x)%R ->
                     is_finite_SF r = true /\ SF2R r = (SF2R x * SF2R x)%R))) /\
    (forall p, ~ (0 <= p < 0 + 2 * 2) -> m' !! p = target_array_memory !! p).
Proof.
  apply (array_square_elementwise 0 100 101 target_array_memory 2 2);
    first [lia | vm_compute; reflexivity].
Defined.

(** An element need not equal the exact square of the value that was
    there.  [1 + 2^-23] squares to [1 + 2^-22 + 2^-46], which has more
    digits than the format: the element holds [1 + 2^-22].  The single
    precision [1e30] squares to a number beyond the range: the element
    holds [+infinity]. *)
Lemma array_square_rounds :
  exists m',
    SubroutinesArray.square 0 10 11 rounding_example_memory = Some m' /\
    read_real rounding_example_memory (elem_addr 0 2 1 1)
    = Some (S754_finite false 8388609 (-23)) /\
    read_real m' (elem_addr 0 2 1 1) = Some (S754_finite false 8388610 (-23)) /\
    SF2R (S754_finite false 8388610 (-23))
    <> (SF2R (S754_finite false 8388609 (-23)) * SF2R (S754_finite false 8388609 (-23)))%R /\
    read_real rounding_example_memory (elem_addr 0 2 2 1) = Some single_1e30 /\
    is_finite_SF single_1e30 = true /\
    read_real m' (elem_addr 0 2 2 1) = Some (S754_infinity false).
Proof.
  eexists. split; [vm_compute; reflexivity|].
  split; [vm_compute; reflexivity|]. split; [vm_compute; reflexivity|].
  split; [|split; [vm_compute; reflexivity|split; vm_compute; reflexivity]].
  change (SF2R (S754_finite false 8388610 (-23))) with (IZR 8388610 * pow2 (-23))%R.
  change (SF2R (S754_finite false 8388609 (-23))) with (IZR 8388609 * pow2 (-23))%R.
  intros E.
  assert (Hu : (pow2 (-23) * pow2 23 = 1)%R) by (rewrite <- pow2_add; reflexivity).
  apply (f_equal (fun t => (t * (pow2 23 * pow2 23))%R)) in E.
  replace (IZR 8388610 * pow2 (-23) * (pow2 23 * pow2 23))%R
    with (IZR 8388610 * pow2 23 * (pow2 (-23) * pow2 23))%R in E by ring.
  replace (IZR 8388609 * pow2 (-23) * (IZR 8388609 * pow2 (-23)) * (pow2 23 * pow2 23))%R
    with (IZR 8388609 * IZR 8388609 * ((pow2 (-23) * pow2 23) * (pow2 (-23) * pow2 23)))%R
    in E by ring.
  rewrite Hu, (pow2_IZR 23), !Rmult_1_r, <- !mult_IZR in E by lia.
  apply eq_IZR in E. vm_compute in E. discriminate E.
Qed.


(** ** The scalar square *)

(** Claim C2, as the code has it.  A finite Python float [x] is boxed with
    [ctypes.c_float], [square_] is called on a pointer to the box, and the box
    is read back.  The call returns.  The box, which held the single
    precision value [v] of [x], then holds [+infinity] exactly when the
    single precision square is out of range: [v] is infinite already
    ([|x|] is at least [2^128 - 2^103]), or the exact [v * v] is at least
    [2^128 - 2^103].  In every other case it holds a finite number within
    rounding tolerance of the exact [x * x] (off by at most [2^-22 * x^2]
    plus the smallest subnormal [2^-149]). *)
Theorem boxed_square_within_tolerance p x eax (m : gmap Z cell) :
  is_finite_SF x = true ->
  exists s' v r,
    contents (box_scalar p x m) = Some v /\
    call_by_reference subroutines_so_scalar "square_" eax (box_scalar p x m) = Some s' /\
    contents s' = Some r /\
    (is_finite_SF v = false <-> (overflow_threshold32 <= Rabs (SF2R x))%R) /\
    (is_finite_SF r = false <->
     (is_finite_SF v = false \/ (overflow_threshold32 <= SF2R v * SF2R v)%R)) /\
    (is_finite_SF r = true ->
     within_tolerance32 (pow2 (-22)) (SF2R x * SF2R x) r) /\
    (is_finite_SF r = false -> r = S754_infinity false).
Proof.
  intros Hx.
  eexists. exists (c_float_of_double x), (f32_square (c_float_of_double x)).
  split; [apply contents_box_scalar|].
  split; [apply call_square_; apply contents_box_scalar|].
  split; [apply contents_updated|].
  split; [apply c_float_of_double_infinite_iff; exact Hx|].
  split; [apply f32_square_infinite_iff; apply c_float_of_double_valid|].
  split.
  - intros Hr. split; [exact Hr|]. apply boxed_square_error; assumption.
  - intros Hr.
    destruct x as [s | s | | s m0 e]; try discriminate Hx; [discriminate Hr|].
    destruct (c_float_of_double_finite s m0 e) as [Hnan _]. cbv zeta in Hnan.
    destruct (c_float_of_double (S754_finite s m0 e)) as [s1 | s1 | | s1 m1 e1].
    + discriminate Hr.
    + destruct s1; reflexivity.
    + congruence.
    + destruct (f32_square_finite s1 m1 e1) as (_ & _ & _ & Hinf). apply Hinf. exact Hr.
Qed.

(** [python_float = 4.0], as in the notebook: the box ends with [16.0],
    within tolerance of [4.0 * 4.0]. *)
Lemma boxed_square_within_tolerance_witness :
  exists s',
    call_by_reference subroutines_so_scalar "square_" 3 (box_scalar 0 double_4 ∅) = Some s' /\
    contents s' = Some (S754_finite false 8388608 (-19)) /\
    within_tolerance32 (pow2 (-22)) (SF2R double_4 * SF2R double_4)
      (S754_finite false 8388608 (-19)).
Proof.
  destruct (boxed_square_within_tolerance 0 double_4 3 ∅ eq_refl)
    as (s' & v & r & _ & Hcall & Hcont & _ & _ & Hfin & _).
  pose proof (call_square_ 3 (box_scalar 0 double_4 ∅) _ (contents_box_scalar 0 double_4 ∅))
    as Hc.
  rewrite Hc in Hcall. injection Hcall as <-.
  rewrite contents_updated in Hcont. injection Hcont as <-.
  replace (S754_finite false 8388608 (-19)) with (f32_square (c_float_of_double double_4))
    by (vm_compute; reflexivity).
  eexists. split; [exact Hc|]. split; [apply contents_updated|].
  apply Hfin. vm_compute. reflexivity.
Defined.

(** [1e30] boxes to a finite single precision number whose square is out of
    range: the box holds [+infinity], which is within no tolerance of the
    finite [x * x]. *)
Lemma boxed_square_overflows :
  is_finite_SF double_1e30 = true /\
  exists s',
    call_by_reference subroutines_so_scalar "square_" 3 (box_scalar 0 double_1e30 ∅) = Some s' /\
    contents s' = Some (S754_infinity false) /\
    ~ within_tolerance32 (pow2 (-22)) (SF2R double_1e30 * SF2R double_1e30)
        (S754_infinity false).
Proof.
  split; [vm_compute; reflexivity|].
  eexists. split; [apply call_square_; apply contents_box_scalar|].
  split.
  - rewrite f32_square_1e30. apply contents_updated.
  - intros [H _]. discriminate H.
Qed.


(** ** The scalar square root *)

(** Claim C3.  The box holds a single precision value [x] and
    [square_root_] is called on it.  The call returns normally whatever [x]
    is.  For finite [x >= 0] the box then holds a finite number within a
    relative error of [2^-24] of the real square root of [x]; for
    [x = +infinity] it holds [+infinity]; for [x < 0] it holds NaN, and no
    error is raised. *)
Theorem square_root_within_tolerance eax (s : scalar_session) x :
  valid_binary prec32 emax32 x = true ->
  contents s = Some x ->
  exists s' r,
    call_by_reference subroutines_so_scalar "square_root_" eax s = Some s' /\
    contents s' = Some r /\
    (f32_nonneg x = true -> is_finite_SF x = true ->
     is_finite_SF r = true /\
     (Rabs (SF2R r - sqrt (SF2R x)) <= pow2 (-24) * sqrt (SF2R x))%R) /\
    (x = S754_infinity false -> r = S754_infinity false) /\
    (f32_neg x = true -> r = S754_nan).
Proof.
  intros Hvalid Hbox.
  eexists. exists (f32_sqrt x). split; [apply call_square_root_; exact Hbox|].
  split; [apply contents_updated|].
  split; [|split].
  - intros Hnn Hfin.
    destruct x as [sx | sx | | sx m e]; try discriminate Hfin.
    + split; [reflexivity|]. simpl. rewrite sqrt_0, Rminus_diag, Rabs_R0. lra.
    + destruct sx; [discriminate Hnn|].
      destruct (f32_sqrt_finite_pos m e (valid_binary_bounded _ _ _ Hvalid))
        as (m' & e' & Hr & Herr).
      split; [rewrite Hr; reflexivity | exact Herr].
  - intros ->. reflexivity.
  - intros Hneg.
    destruct x as [sx | [|] | | [|] m e]; try discriminate Hneg; reflexivity.
Qed.

(** The box made from [python_float = 4.0] ends with a finite value within
    tolerance of the square root; the box made from [-4.0] ends with NaN,
    and both calls return. *)
Lemma square_root_within_tolerance_witness :
  (exists s' r,
     call_by_reference subroutines_so_scalar "square_root_" 3
       (box_scalar 0 double_4 ∅) = Some s' /\
     contents s' = Some r /\
     is_finite_SF r = true /\
     (Rabs (SF2R r - sqrt (SF2R (c_float_of_double double_4)))
      <= pow2 (-24) * sqrt (SF2R (c_float_of_double double_4)))%R) /\
  (exists s',
     call_by_reference subroutines_so_scalar "square_root_" 3
       (box_scalar 0 (SFopp double_4) ∅) = Some s' /\
     contents s' = Some S754_nan).
Proof.
  split.
  - destruct (square_root_within_tolerance 3 (box_scalar 0 double_4 ∅)
                (c_float_of_double double_4))
      as (s' & r & Hcall & Hcont & Hpos & _ & _).
    + vm_compute. reflexivity.
    + apply contents_box_scalar.
    + exists s', r. split; [exact Hcall|]. split; [exact Hcont|].
      apply Hpos; vm_compute; reflexivity.
  - destruct (square_root_within_tolerance 3 (box_scalar 0 (SFopp double_4) ∅)
                (c_float_of_double (SFopp double_4)))
      as (s' & r & Hcall & Hcont & _ & _ & Hneg).
    + vm_compute. reflexivity.
    + apply contents_box_scalar.
    + exists s'. split; [exact Hcall|]. rewrite Hcont. f_equal.
      apply Hneg. vm_compute. reflexivity.
Defined.


(** ** Resolving a routine by name *)

(** Claim C4, as the code has it.  The unit exports routine [foo] under
    its mangled name [foo_], which is no attribute of the library object.
    Attribute lookup of [foo_] succeeds and gives the unit's own symbol,
    whatever the unit depends on.  Lookup is by the exact name, with no
    fallback to the mangled form: a name that is no attribute of the object
    (the bare [foo], or any [bar]) raises the lookup error exactly when it
    has the form [__x__] or neither the unit nor an object it depends on
    defines a symbol of that name; and what a lookup finds is always a
    symbol of exactly the name that was asked for. *)
Theorem getattr_resolves_exact_name (lib : shared_unit) (needed : list (list elf_sym))
    (attrs : list string) (foo : string) (s : elf_sym) :
  List.NoDup (map st_name (dynsym lib)) ->
  In s (dynsym lib) ->
  st_name s = (foo ++ "_")%string ->
  is_exported s = true ->
  is_defined s = true ->
  ~ In (foo ++ "_")%string attrs ->
  is_dunder (foo ++ "_") = false ->
  CDLL_getattribute attrs (dynsym lib :: needed) (foo ++ "_") = Function 0 (st_value s) /\
  CDLL_getattr lib (foo ++ "_") = inr (st_value s) /\
  (forall bar, ~ In bar attrs ->
     (CDLL_getattribute attrs (dynsym lib :: needed) bar = NoAttribute <->
      (is_dunder bar = true \/
       forall tab, In tab (dynsym lib :: needed) -> dlsym tab bar = None))) /\
  (forall bar k v,
     CDLL_getattribute attrs (dynsym lib :: needed) bar = Function k v ->
     exists tab s',
       nth_error (dynsym lib :: needed) k = Some tab /\ In s' tab /\
       st_name s' = bar /\ st_value s' = v /\
       is_exported s' = true /\ is_defined s' = true).
Proof.
  intros Hnd Hin Hname Hexp Hdef Hattr Hdunder.
  assert (Hown : CDLL_getattr lib (foo ++ "_") = inr (st_value s)).
  { unfold CDLL_getattr. rewrite <- Hname.
    rewrite (dlsym_Some _ _ Hnd Hin Hexp Hdef). reflexivity. }
  split; [apply getattribute_own_symbol; assumption|].
  split; [exact Hown|]. split.
  - intros bar Hbar. unfold CDLL_getattribute.
    rewrite (existsb_eqb_false _ _ Hbar).
    destruct (is_dunder bar); [split; [left; reflexivity | reflexivity]|].
    rewrite <- dlsym_tree_None.
    destruct (dlsym_tree (dynsym lib :: needed) bar) as [[k v]|].
    + split; [discriminate | intros [H | H]; discriminate].
    + split; [right; reflexivity | reflexivity].
  - intros bar k v. unfold CDLL_getattribute.
    destruct (existsb (String.eqb bar) attrs); [discriminate|].
    destruct (is_dunder bar); [discriminate|].
    destruct (dlsym_tree (dynsym lib :: needed) bar) as [[k0 v0]|] eqn:E; [|discriminate].
    intros H. injection H as <- <-.
    destruct (dlsym_tree_Some _ _ _ _ E) as (tab & Htab & Hv).
    destruct (dlsym_inv _ _ _ Hv) as (s' & Hs' & Hn' & Hv' & He' & Hd').
    exists tab, s'. repeat split; assumption.
Qed.

(** [square] in the first unit, exported as [square_] at [0x59a], with one
    needed object that defines [malloc]: the mangled name resolves to the
    unit's symbol, [malloc] to the symbol of the needed object, and the bare
    name and an undeclared name raise. *)
Lemma getattr_resolves_exact_name_witness :
  CDLL_getattribute ["_handle"; "_name"]%string
    (dynsym subroutines_so_scalar :: needed_example) "square_" = Function 0 0x59a /\
  CDLL_getattribute ["_handle"; "_name"]%string
    (dynsym subroutines_so_scalar :: needed_example) "square" = NoAttribute /\
  CDLL_getattribute ["_handle"; "_name"]%string
    (dynsym subroutines_so_scalar :: needed_example) "bar" = NoAttribute /\
  CDLL_getattribute ["_handle"; "_name"]%string
    (dynsym subroutines_so_scalar :: needed_example) "malloc" <> NoAttribute.
Proof.
  destruct (getattr_resolves_exact_name subroutines_so_scalar needed_example
              ["_handle"; "_name"]%string "square"
              (Build_elf_sym 0x59a 31 FUNC GLOBAL (Ndx 9) "square_"))
    as (Hmangled & _ & Hfail & _).
  - exact dynsym_scalar_names_distinct.
  - simpl. do 11 right. left. reflexivity.
  - reflexivity.
  - reflexivity.
  - reflexivity.
  - simpl. intuition discriminate.
  - reflexivity.
  - split; [exact Hmangled|]. split; [|split].
    + apply Hfail; [simpl; intuition discriminate|]. right.
      intros tab Htab. simpl in Htab.
      repeat destruct Htab as [<- | Htab]; try contradiction; reflexivity.
    + apply Hfail; [simpl; intuition discriminate|]. right.
      intros tab Htab. simpl in Htab.
      repeat destruct Htab as [<- | Htab]; try contradiction; reflexivity.
    + intros H. apply Hfail in H; [|simpl; intuition discriminate].
      destruct H as [H | H]; [discriminate H|].
      specialize (H (nth 0 needed_example []) (or_intror (or_introl eq_refl))).
      discriminate H.
Defined.

(** The first unit exports [square_]; looking up [square] raises, so the two
    lookups do not agree. *)
Lemma getattr_unmangled_name_fails :
  In (Build_elf_sym 0x59a 31 FUNC GLOBAL (Ndx 9) "square_") (dynsym subroutines_so_scalar) /\
  CDLL_getattribute ["_handle"; "_name"]%string
    (dynsym subroutines_so_scalar :: needed_example) "square_" = Function 0 0x59a /\
  CDLL_getattribute ["_handle"; "_name"]%string
    (dynsym subroutines_so_scalar :: needed_example) "square" = NoAttribute /\
  CDLL_getattr subroutines_so_scalar "square_" = inr 0x59a /\
  CDLL_getattr subroutines_so_scalar "square" = inl AttributeError /\
  CDLL_getattr subroutines_so_scalar "square" <> CDLL_getattr subroutines_so_scalar "square_".
Proof.
  split; [simpl; do 11 right; left; reflexivity|].
  split; [reflexivity|]. split; [reflexivity|].
  split; [reflexivity|]. split; [reflexivity|]. discriminate.
Qed.


(** ** What a foreign call returns *)





(** ** Exported symbol names *)

(** The two symbol tables the notebook prints agree with the naming rule
    on the routines it declares: the routines a table defines are the
    declared names followed by one underscore, or the [bind(c)] name as it
    stands.  All the declared names are lower case. *)
Lemma exported_symbols_follow_naming_rule :
  Permutation (defined_routines dynsym_scalar)
    (map exported_symbol_spec subroutines_f90_scalar) /\
  Permutation (defined_routines dynsym_wrappers)
    (map exported_symbol_spec (wrappers_f90 ++ subroutines_f90_array)).
Proof.
  split.
  - change (defined_routines dynsym_scalar) with ["square_root_"; "square_"]%string.
    change (map exported_symbol_spec subroutines_f90_scalar)
      with ["square_"; "square_root_"]%string.
    apply perm_swap.
  - change (defined_routines dynsym_wrappers) with ["wrapper_square"; "square_"]%string.
    change (map exported_symbol_spec (wrappers_f90 ++ subroutines_f90_array))
      with ["wrapper_square"; "square_"]%string.
    apply Permutation_refl.
Qed.


(** ** The managed value is not updated *)

(** Claim C7.  A Python float [x] is boxed and the box is passed by
    reference to a routine of the scalar unit.  After the call the Python
    variable still holds [x]; the pointer still designates the same box, the
    box holds a value, and no other cell of native memory has changed. *)
Theorem python_float_not_updated name eax p x (m : gmap Z cell) s' :
  call_by_reference subroutines_so_scalar name eax (box_scalar p x m) = Some s' ->
  python_float s' = x /\
  ctypes_float s' = p /\
  (exists r, contents s' = Some r) /\
  (forall q, q <> p -> native s' !! q = m !! q).
Proof.
  unfold call_by_reference, invoke.
  destruct (CDLL_getattr subroutines_so_scalar name) as [e | h]; [discriminate|].
  unfold call_funcptr.
  cbn [text subroutines_so_scalar box_scalar native ctypes_float python_float].
  assert (Hupd : forall f m',
             update_real f p (<[p := CReal (c_float_of_double x)]> m) = Some m' ->
             (exists r, read_real m' p = Some r) /\
             (forall q, q <> p -> m' !! q = m !! q)).
  { intros f m' H. apply update_real_inv in H as (x0 & _ & ->). split.
    - eexists. apply read_real_insert_eq.
    - intros q Hq. rewrite !lookup_insert_ne by congruence. reflexivity. }
  destruct (Z.eqb h 0x59a); [|destruct (Z.eqb h 0x5b9); [|discriminate]].
  - unfold routine1, SubroutinesScalar.square.
    destruct (update_real f32_square p _) as [m'|] eqn:E; [|discriminate].
    intros H. injection H as <-. destruct (Hupd _ _ E) as [Hr Hq].
    repeat split; assumption.
  - unfold routine1, SubroutinesScalar.square_root.
    destruct (update_real f32_sqrt p _) as [m'|] eqn:E; [|discriminate].
    intros H. injection H as <-. destruct (Hupd _ _ E) as [Hr Hq].
    repeat split; assumption.
Qed.

(** After squaring the box of [4.0] the box holds [16.0] ([2^23 * 2^-19]) and
    [python_float] is still [4.0]. *)
Lemma python_float_not_updated_witness :
  exists s',
    call_by_reference subroutines_so_scalar "square_" 3 (box_scalar 0 double_4 ∅) = Some s' /\
    python_float s' = double_4 /\
    contents s' = Some (S754_finite false 8388608 (-19)).
Proof.
  eexists. split; [apply call_square_; apply contents_box_scalar|].
  split.
  - eapply (python_float_not_updated "square_" 3 0 double_4 ∅).
    apply call_square_. apply contents_box_scalar.
  - replace (S754_finite false 8388608 (-19)) with (f32_square (c_float_of_double double_4))
      by (vm_compute; reflexivity).
    apply contents_updated.
Defined.


(** ** Squaring, then taking the square root *)

(** Claim C8, as the code has it.  The box holds a finite single precision
    [x >= 0]; [square_] and then [square_root_] are called on it.  When [x]
    is zero, or the intermediate square is a normal single precision number
    (it neither overflowed nor fell below [2^-126]), the box ends within a
    relative error of [2^-23] of [x]. *)
Theorem square_then_square_root_within_tolerance eax1 eax2 (s : scalar_session) x :
  valid_binary prec32 emax32 x = true ->
  is_finite_SF x = true ->
  f32_nonneg x = true ->
  is_zero_SF x || is_normal_SF prec32 (f32_square x) = true ->
  contents s = Some x ->
  exists s1 s2 z,
    call_by_reference subroutines_so_scalar "square_" eax1 s = Some s1 /\
    call_by_reference subroutines_so_scalar "square_root_" eax2 s1 = Some s2 /\
    contents s2 = Some z /\
    is_finite_SF z = true /\
    (Rabs (SF2R z - SF2R x) <= pow2 (-23) * SF2R x)%R.
Proof.
  intros Hvalid Hfin Hnn Hnorm Hbox.
  eexists. eexists. exists (f32_sqrt (f32_square x)).
  split; [apply call_square_; exact Hbox|].
  split; [apply call_square_root_; apply contents_updated|].
  split; [apply contents_updated|].
  destruct x as [sx | sx | | sx m e]; try discriminate Hfin.
  { split; [reflexivity|]. simpl. rewrite Rminus_diag, Rabs_R0. lra. }
  simpl is_zero_SF in Hnorm. rewrite orb_false_l in Hnorm.
  destruct sx; [discriminate Hnn|].
  destruct (f32_square_finite false m e) as (_ & _ & Hn & _). cbv zeta in Hn.
  destruct (Hn Hnorm) as (Herr & m' & e' & Hy & Hb).
  destruct (f32_sqrt_finite_pos m' e' Hb) as (m2 & e2 & Hz & Hzerr). cbv zeta in Hzerr.
  rewrite Hy in *. split; [rewrite Hz; reflexivity|].
  assert (Hxpos : (0 <= SF2R (S754_finite false m e))%R).
  { simpl. apply Rmult_le_pos; [apply IZR_le; lia | apply Rlt_le, pow2_pos]. }
  assert (Hypos : (0 <= SF2R (S754_finite false m' e'))%R).
  { simpl. apply Rmult_le_pos; [apply IZR_le; lia | apply Rlt_le, pow2_pos]. }
  rewrite (Rabs_pos_eq _ Hypos) in Herr.
  replace (pow2 (-23)) with (2 * pow2 (-24))%R
    by (replace (-23) with (1 + -24) by lia; rewrite pow2_add, pow2_1; reflexivity).
  apply (root_of_square_bound (pow2 (-24)) _ (SF2R (S754_finite false m' e'))); try assumption.
  split; [apply Rlt_le, pow2_pos|]. rewrite <- pow2_neg_4. apply pow2_le. lia.
Qed.

(** The two calls of the notebook on the box of [4.0]. *)
Lemma square_then_square_root_within_tolerance_witness :
  exists s1 s2 z,
    call_by_reference subroutines_so_scalar "square_" 3 (box_scalar 0 double_4 ∅) = Some s1 /\
    call_by_reference subroutines_so_scalar "square_root_" 3 s1 = Some s2 /\
    contents s2 = Some z /\
    is_finite_SF z = true /\
    (Rabs (SF2R z - SF2R (c_float_of_double double_4))
     <= pow2 (-23) * SF2R (c_float_of_double double_4))%R.
Proof.
  apply (square_then_square_root_within_tolerance 3 3 (box_scalar 0 double_4 ∅)
           (c_float_of_double double_4));
    first [apply contents_box_scalar | vm_compute; reflexivity].
Defined.

(** The single precision [1e30]: its square overflows, and the square root
    of [+infinity] is [+infinity], not [1e30]. *)
Lemma square_then_square_root_overflows :
  valid_binary prec32 emax32 single_1e30 = true /\
  is_finite_SF single_1e30 = true /\
  f32_nonneg single_1e30 = true /\
  exists s1 s2,
    call_by_reference subroutines_so_scalar "square_" 3 (box_scalar 0 double_1e30 ∅) = Some s1 /\
    call_by_reference subroutines_so_scalar "square_root_" 3 s1 = Some s2 /\
    contents (box_scalar 0 double_1e30 ∅) = Some single_1e30 /\
    contents s2 = Some (S754_infinity false) /\
    ~ within_tolerance32 (pow2 (-23)) (SF2R single_1e30) (S754_infinity false).
Proof.
  split; [vm_compute; reflexivity|]. split; [vm_compute; reflexivity|].
  split; [vm_compute; reflexivity|].
  eexists. eexists.
  split; [apply call_square_; apply contents_box_scalar|].
  split; [apply call_square_root_; apply contents_updated|].
  split; [apply contents_box_scalar|].
  split.
  - rewrite f32_sqrt_square_1e30. apply contents_updated.
  - intros [H _]. discriminate H.
Qed.


(** ** Memory order conversion *)

(** Claim C9.  A row-major array whose buffer has as many elements as its
    shape says, converted to column-major order and back with the element
    type unchanged, is the array it was: same shape, same order flag, same
    buffer element for element.  The column-major copy holds the same
    element at every multi-index. *)
Theorem order_conversion_round_trip {A : Type} (a : ndarray A) :
  order a = C_order ->
  length (buffer a) = size (shape a) ->
  ascontiguousarray (fun x => x) (asfortranarray (fun x => x) a) = a /\
  (forall idx, valid_index (shape a) idx = true ->
               getitem (asfortranarray (fun x => x) a) idx = getitem a idx).
Proof.
  destruct a as [shp ord buf]. simpl. intros -> Hlen.
  split.
  - unfold ascontiguousarray, asfortranarray. simpl. f_equal.
    rewrite !map_id. rewrite <- Hlen.
    apply gather_gather.
    + intros k Hk. rewrite Hlen in *. apply offset_F_lt. apply index_C_valid. exact Hk.
    + intros k Hk. rewrite Hlen in *. apply offset_C_lt. apply index_F_valid.
      apply offset_F_lt. apply index_C_valid. exact Hk.
    + intros k Hk. rewrite Hlen in *.
      rewrite index_F_offset_F by (apply index_C_valid; exact Hk).
      apply offset_C_index_C. exact Hk.
  - intros idx Hidx. unfold getitem, asfortranarray. simpl. rewrite map_id.
    pose proof (offset_F_lt shp idx Hidx) as HF.
    pose proof (offset_C_lt shp idx Hidx) as HC.
    destruct buf as [|d buf]; [simpl in Hlen; lia|].
    set (l := d :: buf) in *.
    assert (Hl : l <> []) by (unfold l; congruence).
    rewrite (nth_error_nth' _ d) by (rewrite gather_length by exact Hl; exact HF).
    rewrite (nth_error_nth' _ d) by (rewrite Hlen; exact HC).
    f_equal. rewrite nth_gather; [|exact Hl|exact HF|].
    + rewrite index_F_offset_F by exact Hidx. reflexivity.
    + rewrite index_F_offset_F by exact Hidx. rewrite Hlen. exact HC.
Qed.

(** The 2 by 2 array the notebook printed. *)
Lemma order_conversion_round_trip_witness :
  ascontiguousarray (fun x => x) (asfortranarray (fun x => x) target_array_printed)
  = target_array_printed /\
  (forall idx, valid_index (shape target_array_printed) idx = true ->
               getitem (asfortranarray (fun x => x) target_array_printed) idx
               = getitem target_array_printed idx).
Proof.
  apply (order_conversion_round_trip target_array_printed); reflexivity.
Defined.


(** ** The C-bound wrapper *)

(** Claim C10.  [wrapper_square] forwards its three references to
    [square]: as functions on memory the two are equal, and calling the
    library under the name [wrapper_square] leaves the same memory as
    calling it under the name [square_]. *)
Theorem wrapper_square_same_as_square a ij ik eax1 eax2 (m : gmap Z cell) :
  Wrappers.wrapper_square a ij ik m = SubroutinesArray.square a ij ik m /\
  memory_after (invoke subroutines_so_wrappers "wrapper_square" [a; ij; ik] eax1 m) =
  memory_after (invoke subroutines_so_wrappers "square_" [a; ij; ik] eax2 m).
Proof.
  split; [reflexivity|].
  unfold invoke.
  change (CDLL_getattr subroutines_so_wrappers "wrapper_square") with (@inr py_exception Z 0x5ca).
  change (CDLL_getattr subroutines_so_wrappers "square_") with (@inr py_exception Z 0x645).
  unfold call_funcptr. cbn [text subroutines_so_wrappers].
  change (Z.eqb 0x5ca 0x5ca) with true. change (Z.eqb 0x645 0x5ca) with false.
  change (Z.eqb 0x645 0x645) with true. cbv iota.
  unfold routine3, Wrappers.wrapper_square.
  destruct (SubroutinesArray.square a ij ik m); reflexivity.
Qed.


(** * Further properties of the routines and of the cells that call them *)


(** ** The array routine: empty arrays and the order of the extents *)

Lemma do_loop_skip n body :
  (forall i (m : gmap Z cell), body i m = Some m) ->
  forall lo m, do_loop n body lo m = Some m.
Proof.
  intros Hbody. induction n as [|n IH]; intros lo m; simpl; [reflexivity|].
  rewrite Hbody. apply IH.
Qed.

(** Property X1.  An array without elements: when one of the extents is
    zero or negative the array assignment of [square] runs no iteration,
    and the routine returns the memory as it found it, whatever [a] points
    to. *)
Theorem array_square_zero_size a ij ik (m : gmap Z cell) nij nik :
  read_int m ij = Some nij ->
  read_int m ik = Some nik ->
  nij <= 0 \/ nik <= 0 ->
  SubroutinesArray.square a ij ik m = Some m.
Proof.
  intros Hij Hik Hzero. unfold SubroutinesArray.square. rewrite Hij, Hik.
  unfold fortran_do at 1. 
  destruct (Z_le_gt_dec nij 0) as [Hn | Hn].
  - apply do_loop_skip. intros j m0.
    unfold fortran_do. replace (Z.to_nat (nij - 1 + 1)) with 0%nat by lia. reflexivity.
  - replace (Z.to_nat (nik - 1 + 1)) with 0%nat by lia. reflexivity.
Qed.

Lemma array_square_zero_size_witness :
  SubroutinesArray.square 0 10 11 (<[10 := CInt 0]> (<[11 := CInt 5]> ∅))
  = Some (<[10 := CInt 0]> (<[11 := CInt 5]> ∅)).
Proof.
  apply (array_square_zero_size 0 10 11 _ 0 5); [reflexivity | reflexivity | lia].
Defined.

(** Property X2.  The two extents may be exchanged: on a buffer of
    [ij * ik] reals, [square(a, ik, ij)] leaves the same memory as
    [square(a, ij, ik)].  The notebook passes [shape[0]] where the routine
    expects [ij], under the name [ik]. *)
Theorem array_square_extents_commute a ij ik (m : gmap Z cell) nij nik :
  read_int m ij = Some nij ->
  read_int m ik = Some nik ->
  0 <= nij -> 0 <= nik ->
  real_buffer m a (Z.to_nat (nij * nik)) = true ->
  SubroutinesArray.square a ik ij m = SubroutinesArray.square a ij ik m.
Proof.
  intros Hij Hik Hnij Hnik Hbuf.
  destruct (square_array_spec a ij ik m nij nik Hij Hik Hnij Hnik Hbuf)
    as (m1 & Hrun1 & Hin1 & Hout1 & _).
  assert (Hbuf' : real_buffer m a (Z.to_nat (nik * nij)) = true)
    by (rewrite Z.mul_comm; exact Hbuf).
  destruct (square_array_spec a ik ij m nik nij Hik Hij Hnik Hnij Hbuf')
    as (m2 & Hrun2 & Hin2 & Hout2 & _).
  rewrite Hrun1, Hrun2. f_equal. apply map_eq. intros p.
  destruct (Z_le_gt_dec a p) as [Hlo|Hlo]; [destruct (Z_lt_le_dec p (a + nij * nik)) as [Hhi|Hhi]|].
  - assert (Hs : is_Some (read_real m p)).
    { replace p with (a + (p - a)) by lia. apply (real_buffer_spec _ _ _ Hbuf). lia. }
    destruct Hs as [x Hx].
    assert (H1 : read_real m1 p = Some (f32_square x)) by (rewrite Hin1 by lia; rewrite Hx; reflexivity).
    assert (H2 : read_real m2 p = Some (f32_square x)) by (rewrite Hin2 by lia; rewrite Hx; reflexivity).
    rewrite (read_real_lookup _ _ _ H1), (read_real_lookup _ _ _ H2). reflexivity.
  - rewrite Hout1, Hout2 by lia. reflexivity.
  - rewrite Hout1, Hout2 by lia. reflexivity.
Qed.

Lemma array_square_extents_commute_witness :
  SubroutinesArray.square 0 11 10 extents_example_memory
  = SubroutinesArray.square 0 10 11 extents_example_memory.
Proof.
  apply (array_square_extents_commute 0 10 11 extents_example_memory 2 3);
    [reflexivity | reflexivity | lia | lia | vm_compute; reflexivity].
Defined.


(** ** More on the scalar cells *)

(** Property X3.  Whatever single precision value the box holds,
    [square_] returns and leaves a value that is not negative; it leaves
    NaN exactly when the box held NaN. *)
Theorem square_result_sign eax (s : scalar_session) x :
  contents s = Some x ->
  exists s' r,
    call_by_reference subroutines_so_scalar "square_" eax s = Some s' /\
    contents s' = Some r /\
    (r = S754_nan <-> x = S754_nan) /\
    f32_neg r = false.
Proof.
  intros Hbox. eexists. exists (f32_square x).
  split; [apply call_square_; exact Hbox|].
  split; [apply contents_updated|].
  apply f32_square_sign.
Qed.

Lemma square_result_sign_witness :
  exists s' r,
    call_by_reference subroutines_so_scalar "square_" 3 (box_scalar 0 (SFopp double_4) ∅)
    = Some s' /\
    contents s' = Some r /\
    (r = S754_nan <-> c_float_of_double (SFopp double_4) = S754_nan) /\
    f32_neg r = false.
Proof.
  apply (square_result_sign 3 (box_scalar 0 (SFopp double_4) ∅)).
  apply contents_box_scalar.
Defined.

(** Property X4.  Whatever single precision value the box holds,
    [square_root_] returns; it leaves NaN exactly when the box held NaN or
    a negative number, and it leaves a zero of either sign as it is. *)
Theorem square_root_nan_iff eax (s : scalar_session) x :
  contents s = Some x ->
  exists s' r,
    call_by_reference subroutines_so_scalar "square_root_" eax s = Some s' /\
    contents s' = Some r /\
    (r = S754_nan <-> (x = S754_nan \/ f32_neg x = true)) /\
    (is_zero_SF x = true -> r = x).
Proof.
  intros Hbox. eexists. exists (f32_sqrt x).
  split; [apply call_square_root_; exact Hbox|].
  split; [apply contents_updated|].
  split; [apply f32_sqrt_nan_iff|].
  destruct x; try discriminate. reflexivity.
Qed.

Lemma square_root_nan_iff_witness :
  exists s' r,
    call_by_reference subroutines_so_scalar "square_root_" 3
      (box_scalar 0 (SFopp double_4) ∅) = Some s' /\
    contents s' = Some r /\
    (r = S754_nan <-> (c_float_of_double (SFopp double_4) = S754_nan \/
                       f32_neg (c_float_of_double (SFopp double_4)) = true)) /\
    (is_zero_SF (c_float_of_double (SFopp double_4)) = true ->
     r = c_float_of_double (SFopp double_4)).
Proof.
  apply (square_root_nan_iff 3 (box_scalar 0 (SFopp double_4) ∅)).
  apply contents_box_scalar.
Defined.

(** Property X5.  The box holds a finite single precision [x < 0] whose
    square is a normal number; [square_] and then [square_root_] are
    called on it.  The box ends with a finite value that is not negative,
    within a relative error of [2^-23] of [-x]: the sign is lost, the
    magnitude comes back. *)
Theorem square_then_square_root_of_negative eax1 eax2 (s : scalar_session) x :
  valid_binary prec32 emax32 x = true ->
  is_finite_SF x = true ->
  f32_neg x = true ->
  is_normal_SF prec32 (f32_square x) = true ->
  contents s = Some x ->
  exists s1 s2 z,
    call_by_reference subroutines_so_scalar "square_" eax1 s = Some s1 /\
    call_by_reference subroutines_so_scalar "square_root_" eax2 s1 = Some s2 /\
    contents s2 = Some z /\
    is_finite_SF z = true /\
    f32_neg z = false /\
    (Rabs (SF2R z - - SF2R x) <= pow2 (-23) * - SF2R x)%R.
Proof.
  intros Hvalid Hfin Hneg Hnorm Hbox.
  eexists. eexists. exists (f32_sqrt (f32_square x)).
  split; [apply call_square_; exact Hbox|].
  split; [apply call_square_root_; apply contents_updated|].
  split; [apply contents_updated|].
  destruct x as [sx | sx | | sx m e]; try discriminate Hfin; [discriminate Hneg|].
  destruct sx; [|discriminate Hneg].
  destruct (f32_square_finite true m e) as (_ & _ & Hn & _). cbv zeta in Hn.
  destruct (Hn Hnorm) as (Herr & m' & e' & Hy & Hb).
  destruct (f32_sqrt_finite_pos m' e' Hb) as (m2 & e2 & Hz & Hzerr). cbv zeta in Hzerr.
  rewrite Hy in *. split; [rewrite Hz; reflexivity|].
  split; [rewrite Hz; reflexivity|].
  assert (Hxpos : (0 <= - SF2R (S754_finite true m e))%R).
  { simpl. rewrite opp_IZR.
    assert (0 <= IZR (Zpos m) * pow2 e)%R
      by (apply Rmult_le_pos; [apply IZR_le; lia | apply Rlt_le, pow2_pos]).
    lra. }
  assert (Hypos : (0 <= SF2R (S754_finite false m' e'))%R).
  { simpl. apply Rmult_le_pos; [apply IZR_le; lia | apply Rlt_le, pow2_pos]. }
  rewrite (Rabs_pos_eq _ Hypos) in Herr.
  replace (SF2R (S754_finite true m e) * SF2R (S754_finite true m e))%R
    with (- SF2R (S754_finite true m e) * - SF2R (S754_finite true m e))%R in Herr by ring.
  replace (pow2 (-23)) with (2 * pow2 (-24))%R
    by (replace (-23) with (1 + -24) by lia; rewrite pow2_add, pow2_1; reflexivity).
  apply (root_of_square_bound (pow2 (-24)) _ (SF2R (S754_finite false m' e'))); try assumption.
  split; [apply Rlt_le, pow2_pos|]. rewrite <- pow2_neg_4. apply pow2_le. lia.
Qed.

Lemma square_then_square_root_of_negative_witness :
  exists s1 s2 z,
    call_by_reference subroutines_so_scalar "square_" 3 (box_scalar 0 (SFopp double_4) ∅)
    = Some s1 /\
    call_by_reference subroutines_so_scalar "square_root_" 3 s1 = Some s2 /\
    contents s2 = Some z /\
    is_finite_SF z = true /\
    f32_neg z = false /\
    (Rabs (SF2R z - - SF2R (c_float_of_double (SFopp double_4)))
     <= pow2 (-23) * - SF2R (c_float_of_double (SFopp double_4)))%R.
Proof.
  apply (square_then_square_root_of_negative 3 3 (box_scalar 0 (SFopp double_4) ∅)
           (c_float_of_double (SFopp double_4)));
    first [apply contents_box_scalar | vm_compute; reflexivity].
Defined.

(** Property X6.  [ctypes.c_float(x)]: whatever Python float [x] is, the
    box holds a number of the single precision format (24 binary digits,
    exponent in range), and it does not hold NaN when [x] is finite. *)
Theorem box_holds_valid_single p x (m : gmap Z cell) :
  exists v,
    contents (box_scalar p x m) = Some v /\
    valid_binary prec32 emax32 v = true /\
    (is_finite_SF x = true -> v <> S754_nan).
Proof.
  exists (c_float_of_double x).
  split; [apply contents_box_scalar|].
  split; [apply c_float_of_double_valid|].
  intros Hfin. destruct x as [s | s | | s m0 e]; try discriminate.
  apply (c_float_of_double_finite s m0 e).
Qed.

(** Property X7.  Every routine of the scalar unit keeps the box a number
    of the single precision format: if the box holds one before a call
    that returns, whatever the name called, it holds one afterwards. *)
Theorem call_keeps_valid_single name eax (s s' : scalar_session) x :
  contents s = Some x ->
  valid_binary prec32 emax32 x = true ->
  call_by_reference subroutines_so_scalar name eax s = Some s' ->
  exists r, contents s' = Some r /\ valid_binary prec32 emax32 r = true.
Proof.
  intros Hbox Hvalid. unfold call_by_reference, invoke.
  destruct (CDLL_getattr subroutines_so_scalar name) as [e | h]; [discriminate|].
  unfold call_funcptr. cbn [text subroutines_so_scalar].
  destruct (Z.eqb h 0x59a); [|destruct (Z.eqb h 0x5b9); [|discriminate]].
  - unfold routine1, SubroutinesScalar.square.
    rewrite (update_real_Some _ _ _ _ Hbox).
    intros H. injection H as <-. exists (f32_square x).
    split; [apply contents_updated | apply f32_square_valid; exact Hvalid].
  - unfold routine1, SubroutinesScalar.square_root.
    rewrite (update_real_Some _ _ _ _ Hbox).
    intros H. injection H as <-. exists (f32_sqrt x).
    split; [apply contents_updated | apply f32_sqrt_valid].
Qed.

Lemma call_keeps_valid_single_witness :
  exists r,
    contents {| python_float := double_4; ctypes_float := 0;
                native := <[0 := CReal (f32_sqrt (c_float_of_double double_4))]>
                            (native (box_scalar 0 double_4 ∅)) |} = Some r /\
    valid_binary prec32 emax32 r = true.
Proof.
  apply (call_keeps_valid_single "square_root_" 3 (box_scalar 0 double_4 ∅) _
           (c_float_of_double double_4)).
  - apply contents_box_scalar.
  - vm_compute. reflexivity.
  - apply call_square_root_. apply contents_box_scalar.
Defined.

(** Property X8.  A finite Python float [x] with [|x| <= 2^63] is boxed
    and [square_] is called on the box: the single precision square is in
    range, so the box ends with a finite number within [2^-22 * x^2] plus
    the smallest subnormal of the exact [x * x]. *)
Theorem boxed_square_in_range p x eax (m : gmap Z cell) :
  is_finite_SF x = true ->
  (Rabs (SF2R x) <= pow2 63)%R ->
  exists s' r,
    call_by_reference subroutines_so_scalar "square_" eax (box_scalar p x m) = Some s' /\
    contents s' = Some r /\
    within_tolerance32 (pow2 (-22)) (SF2R x * SF2R x) r.
Proof.
  intros Hfin Hx.
  eexists. exists (f32_square (c_float_of_double x)).
  split; [apply call_square_; apply contents_box_scalar|].
  split; [apply contents_updated|].
  pose proof (boxed_square_finite x Hfin Hx) as Hr.
  split; [exact Hr | apply boxed_square_error; assumption].
Qed.

Lemma SF2R_double_4 : SF2R double_4 = 4%R.
Proof.
  change (SF2R double_4) with (IZR 4503599627370496 * pow2 (-50))%R.
  replace (-50) with (-52 + 2) by lia. rewrite pow2_add, pow2_2.
  replace 4503599627370496%R with (pow2 52) by (rewrite pow2_IZR by lia; reflexivity).
  rewrite <- Rmult_assoc, <- pow2_add. replace (52 + -52) with 0 by lia.
  unfold pow2. simpl. lra.
Qed.

Lemma boxed_square_in_range_witness :
  exists s' r,
    call_by_reference subroutines_so_scalar "square_" 3 (box_scalar 0 double_4 ∅) = Some s' /\
    contents s' = Some r /\
    within_tolerance32 (pow2 (-22)) (SF2R double_4 * SF2R double_4) r.
Proof.
  apply (boxed_square_in_range 0 double_4 3 ∅); [reflexivity|].
  rewrite SF2R_double_4. rewrite Rabs_pos_eq by lra.
  rewrite <- pow2_2. apply pow2_le. lia.
Defined.


Lemma SF2R_power_of_two p k e :
  0 <= k -> Zpos p = 2 ^ k -> SF2R (S754_finite false p e) = pow2 (k + e).
Proof.
  intros Hk Hp. unfold SF2R, cond_Zopp. rewrite Hp, <- pow2_IZR by exact Hk.
  symmetry. apply pow2_add.
Qed.

Lemma SF2R_square_sign s m e :
  (SF2R (S754_finite s m e) * SF2R (S754_finite s m e)
   = SF2R (S754_finite false m e) * SF2R (S754_finite false m e))%R.
Proof. destruct s; simpl; [rewrite opp_IZR|]; ring. Qed.

(** Property X9.  A Python float [x] that a single precision number holds
    exactly, and whose square a single precision number holds exactly
    too: the box holds exactly [x], after [square_] exactly [x * x], and
    after [square_root_] exactly [|x|].  No rounding happens on the way. *)
Theorem representable_round_trip_exact p s mx ex my ey mq eq eax1 eax2 (m : gmap Z cell) :
  bounded prec32 emax32 my ey = true ->
  bounded prec32 emax32 mq eq = true ->
  SF2R (S754_finite s mx ex) = SF2R (S754_finite s my ey) ->
  (SF2R (S754_finite s mx ex) * SF2R (S754_finite s mx ex)
   = SF2R (S754_finite false mq eq))%R ->
  exists s1 s2,
    contents (box_scalar p (S754_finite s mx ex) m) = Some (S754_finite s my ey) /\
    call_by_reference subroutines_so_scalar "square_" eax1
      (box_scalar p (S754_finite s mx ex) m) = Some s1 /\
    contents s1 = Some (S754_finite false mq eq) /\
    call_by_reference subroutines_so_scalar "square_root_" eax2 s1 = Some s2 /\
    contents s2 = Some (S754_finite false my ey).
Proof.
  intros Hby Hbq Hxy Hxq.
  pose proof (c_float_of_double_exact s mx ex s my ey Hby Hxy) as Hbox.
  rewrite Hxy in Hxq.
  pose proof (f32_square_exact s my ey mq eq Hby Hbq Hxq) as Hsq.
  rewrite SF2R_square_sign in Hxq.
  pose proof (f32_sqrt_exact mq eq my ey Hby Hxq) as Hrt.
  eexists. eexists.
  split; [rewrite contents_box_scalar, Hbox; reflexivity|].
  split; [apply call_square_; apply contents_box_scalar|].
  rewrite Hbox, Hsq.
  split; [apply contents_updated|].
  split; [apply call_square_root_; apply contents_updated|].
  rewrite Hrt. apply contents_updated.
Qed.

(** [python_float = 4.0]: the box holds [4.0], then [16.0], then [4.0]
    again, as the notebook prints. *)
Lemma representable_round_trip_exact_witness :
  exists s1 s2,
    contents (box_scalar 0 double_4 ∅) = Some (S754_finite false 8388608 (-21)) /\
    call_by_reference subroutines_so_scalar "square_" 3 (box_scalar 0 double_4 ∅) = Some s1 /\
    contents s1 = Some (S754_finite false 8388608 (-19)) /\
    call_by_reference subroutines_so_scalar "square_root_" 3 s1 = Some s2 /\
    contents s2 = Some (S754_finite false 8388608 (-21)).
Proof.
  apply (representable_round_trip_exact 0 false 4503599627370496 (-50) 8388608 (-21)
           8388608 (-19) 3 3 ∅).
  - reflexivity.
  - reflexivity.
  - rewrite (SF2R_power_of_two _ 52 (-50)), (SF2R_power_of_two _ 23 (-21)) by (lia || reflexivity).
    reflexivity.
  - rewrite (SF2R_power_of_two _ 52 (-50)), (SF2R_power_of_two _ 23 (-19)) by (lia || reflexivity).
    rewrite <- pow2_add. reflexivity.
Defined.


(** ** The array cells: from the numpy array to the FORTRAN buffer *)

Lemma store_reals_lookup_in l :
  forall p (m : gmap Z cell) k d,
    (k < length l)%nat ->
    store_reals p l m !! (p + Z.of_nat k) = Some (CReal (nth k l d)).
Proof.
  induction l as [|x l IH]; intros p m k d Hk; simpl in Hk; [lia|].
  simpl store_reals. destruct k as [|k].
  - rewrite Z.add_0_r, lookup_insert_eq. reflexivity.
  - rewrite lookup_insert_ne by lia.
    replace (p + Z.of_nat (S k)) with (p + 1 + Z.of_nat k) by lia.
    simpl nth. apply IH. lia.
Qed.

Lemma store_reals_lookup_out l :
  forall p (m : gmap Z cell) q,
    ~ (p <= q < p + Z.of_nat (length l)) ->
    store_reals p l m !! q = m !! q.
Proof.
  induction l as [|x l IH]; intros p m q Hq; [reflexivity|].
  simpl store_reals. simpl length in Hq.
  rewrite lookup_insert_ne by lia. apply IH. lia.
Qed.

Lemma real_buffer_intro (m : gmap Z cell) p n :
  (forall k, (k < n)%nat -> is_Some (read_real m (p + Z.of_nat k))) ->
  real_buffer m p n = true.
Proof.
  intros H. unfold real_buffer. apply forallb_forall. intros k Hk.
  apply in_seq in Hk. destruct (H k ltac:(lia)) as [x ->]. reflexivity.
Qed.

(** Length of the converted buffer. *)
Lemma asfortranarray_length {A B : Type} (cast : A -> B) (a : ndarray A) :
  length (buffer a) = size (shape a) ->
  length (buffer (asfortranarray cast a)) = size (shape a).
Proof.
  intros Hwf. unfold asfortranarray. cbn [buffer]. rewrite length_map.
  destruct (order a); [|exact Hwf].
  destruct (buffer a) as [|d l] eqn:E; [exact Hwf|].
  apply gather_length. discriminate.
Qed.

(** Element [idx] of the converted array is the converted element [idx]. *)
Lemma asfortranarray_getitem {A B : Type} (cast : A -> B) (a : ndarray A) idx :
  length (buffer a) = size (shape a) ->
  valid_index (shape a) idx = true ->
  getitem (asfortranarray cast a) idx = cast <$> getitem a idx.
Proof.
  intros Hwf Hidx. unfold getitem, asfortranarray. cbn [buffer order shape].
  rewrite nth_error_map.
  destruct (order a); [|reflexivity].
  pose proof (offset_F_lt _ _ Hidx) as HF.
  pose proof (offset_C_lt _ _ Hidx) as HC.
  destruct (buffer a) as [|d l] eqn:E; [simpl in Hwf; lia|].
  rewrite <- E in *.
  assert (Hne : buffer a <> []) by (rewrite E; discriminate).
  f_equal.
  rewrite (nth_error_nth' _ d) by (rewrite gather_length by exact Hne; exact HF).
  rewrite (nth_error_nth' _ d) by (rewrite Hwf; exact HC).
  f_equal. rewrite nth_gather; [|exact Hne|exact HF|].
  - rewrite index_F_offset_F by exact Hidx. reflexivity.
  - rewrite index_F_offset_F by exact Hidx. rewrite Hwf. exact HC.
Qed.

Lemma getitem_valid {A : Type} (a : ndarray A) idx :
  length (buffer a) = size (shape a) ->
  valid_index (shape a) idx = true ->
  exists x, getitem a idx = Some x.
Proof.
  intros Hwf Hidx. unfold getitem.
  pose proof (offset_F_lt _ _ Hidx) as HF.
  pose proof (offset_C_lt _ _ Hidx) as HC.
  rewrite <- Hwf in HF, HC.
  destruct (order a).
  - apply nth_error_Some in HC.
    destruct (nth_error (buffer a) (offset_C (shape a) idx)) as [x|]; [eauto | congruence].
  - apply nth_error_Some in HF.
    destruct (nth_error (buffer a) (offset_F (shape a) idx)) as [x|]; [eauto | congruence].
Qed.

(** Property X10.  [np.asfortranarray(a, dtype=...)] on an array of at
    least one dimension whose buffer has as many elements as its shape
    says, in either memory order: the result has the same shape, is
    column-major, has a buffer of the same size, and holds at every valid
    multi-index the converted element that [a] holds there. *)
Theorem asfortranarray_converts_elementwise {A B : Type} (cast : A -> B) (a : ndarray A) :
  shape a <> [] ->
  length (buffer a) = size (shape a) ->
  shape (asfortranarray cast a) = shape a /\
  order (asfortranarray cast a) = F_order /\
  length (buffer (asfortranarray cast a)) = size (shape a) /\
  forall idx, valid_index (shape a) idx = true ->
    exists x, getitem a idx = Some x /\
              getitem (asfortranarray cast a) idx = Some (cast x).
Proof.
  intros _ Hwf. split; [reflexivity|]. split; [reflexivity|].
  split; [apply asfortranarray_length; exact Hwf|].
  intros idx Hidx.
  destruct (getitem_valid a idx Hwf Hidx) as [x Hx].
  exists x. split; [exact Hx|].
  rewrite asfortranarray_getitem by assumption. rewrite Hx. reflexivity.
Qed.

Lemma asfortranarray_converts_elementwise_witness :
  getitem (asfortranarray c_float_of_double target_array_printed) [1%nat; 0%nat]
  = c_float_of_double <$> getitem target_array_printed [1%nat; 0%nat].
Proof.
  destruct (asfortranarray_converts_elementwise c_float_of_double target_array_printed)
    as (_ & _ & _ & H); [discriminate | reflexivity |].
  destruct (H [1%nat; 0%nat] eq_refl) as (x & Hx & Hy).
  rewrite Hx, Hy. reflexivity.
Defined.

Lemma getattr_wrappers_square_ : CDLL_getattr subroutines_so_wrappers "square_" = inr 0x645.
Proof. reflexivity. Qed.

Lemma getattr_wrapper_square :
  CDLL_getattr subroutines_so_wrappers "wrapper_square" = inr 0x5ca.
Proof. reflexivity. Qed.

(** Both entry points of the second shared object run the array [square]. *)
Lemma invoke_wrappers name a ij ik eax (m : gmap Z cell) :
  name = "square_"%string \/ name = "wrapper_square"%string ->
  invoke subroutines_so_wrappers name [a; ij; ik] eax m =
  match SubroutinesArray.square a ij ik m with
  | Some m' => Returned (PyInt (c_int_of_register eax)) m'
  | None => Undefined
  end.
Proof.
  intros [-> | ->]; unfold invoke.
  - rewrite getattr_wrappers_square_. reflexivity.
  - rewrite getattr_wrapper_square. reflexivity.
Qed.

Lemma np_int32_small (n : nat) : Z.of_nat n < 2 ^ 31 -> np_int32 (Z.of_nat n) = Some (Z.of_nat n).
Proof.
  intros H. unfold np_int32.
  destruct (Z.leb_spec (- 2 ^ 31) (Z.of_nat n)) as [_ | Hneg]; [|lia].
  destruct (Z.ltb_spec (Z.of_nat n) (2 ^ 31)) as [_ | Hbig]; [reflexivity | lia].
Qed.

(** The memory the array cells set up. *)
Lemma array_memory_spec a ik ij (arr : ndarray spec_float) n0 n1 :
  shape arr = [n0; n1] ->
  length (buffer arr) = size (shape arr) ->
  Z.of_nat n0 < 2 ^ 31 -> Z.of_nat n1 < 2 ^ 31 ->
  ik <> ij ->
  ~ (a <= ik < a + Z.of_nat (n0 * n1)) ->
  ~ (a <= ij < a + Z.of_nat (n0 * n1)) ->
  exists m,
    array_memory a ik ij arr n0 n1 = Some m /\
    read_int m ik = Some (Z.of_nat n0) /\
    read_int m ij = Some (Z.of_nat n1) /\
    (forall idx x, valid_index (shape arr) idx = true -> getitem arr idx = Some x ->
       read_real m (a + Z.of_nat (offset_F (shape arr) idx)) = Some (c_float_of_double x)) /\
    real_buffer m a (n0 * n1) = true.
Proof.
  intros Hshape Hwf Hn0 Hn1 Hne Hik Hij.
  unfold array_memory. rewrite (np_int32_small _ Hn0), (np_int32_small _ Hn1).
  eexists. split; [reflexivity|].
  set (m := <[ij := CInt (Z.of_nat n1)]>
              (<[ik := CInt (Z.of_nat n0)]>
                 (store_reals a (buffer (asfortranarray c_float_of_double arr)) ∅))).
  assert (Hsize : size (shape arr) = (n0 * n1)%nat) by (rewrite Hshape; simpl; lia).
  pose proof (asfortranarray_length c_float_of_double arr Hwf) as Hlen.
  rewrite Hsize in Hlen.
  assert (Hin : forall k, (k < n0 * n1)%nat ->
            m !! (a + Z.of_nat k)
            = Some (CReal (nth k (buffer (asfortranarray c_float_of_double arr)) S754_nan))).
  { intros k Hk. unfold m.
    rewrite !lookup_insert_ne by lia.
    apply store_reals_lookup_in. rewrite Hlen. exact Hk. }
  split; [|split; [|split]].
  - unfold read_int, m. rewrite lookup_insert_ne by congruence.
    rewrite lookup_insert_eq. reflexivity.
  - unfold read_int, m. rewrite lookup_insert_eq. reflexivity.
  - intros idx x Hidx Hx.
    pose proof (offset_F_lt _ _ Hidx) as HF. rewrite Hsize in HF.
    pose proof (asfortranarray_getitem c_float_of_double arr idx Hwf Hidx) as Hg.
    rewrite Hx in Hg. unfold getitem in Hg. cbn [order shape asfortranarray] in Hg.
    unfold read_real. rewrite (Hin _ HF).
    f_equal. apply nth_error_nth with (d := S754_nan) in Hg. exact Hg.
  - apply real_buffer_intro. intros k Hk.
    unfold read_real. rewrite (Hin k Hk). eauto.
Qed.

(** The array [square] on the memory the cells set up. *)
Lemma array_memory_square a ik ij (arr : ndarray spec_float) n0 n1 :
  shape arr = [n0; n1] ->
  length (buffer arr) = size (shape arr) ->
  Z.of_nat n0 < 2 ^ 31 -> Z.of_nat n1 < 2 ^ 31 ->
  ik <> ij ->
  ~ (a <= ik < a + Z.of_nat (n0 * n1)) ->
  ~ (a <= ij < a + Z.of_nat (n0 * n1)) ->
  exists m m',
    array_memory a ik ij arr n0 n1 = Some m /\
    SubroutinesArray.square a ik ij m = Some m' /\
    (forall idx x, valid_index (shape arr) idx = true -> getitem arr idx = Some x ->
       read_real m' (a + Z.of_nat (offset_F (shape arr) idx))
       = Some (f32_square (c_float_of_double x))) /\
    read_int m' ik = Some (Z.of_nat n0) /\
    read_int m' ij = Some (Z.of_nat n1).
Proof.
  intros Hshape Hwf Hn0 Hn1 Hne Hik Hij.
  destruct (array_memory_spec a ik ij arr n0 n1 Hshape Hwf Hn0 Hn1 Hne Hik Hij)
    as (m & Hm & Hrik & Hrij & Helem & Hbuf).
  assert (Hbuf' : real_buffer m a (Z.to_nat (Z.of_nat n0 * Z.of_nat n1)) = true).
  { rewrite <- Nat2Z.inj_mul, Nat2Z.id. exact Hbuf. }
  destruct (square_array_spec a ik ij _ _ _ Hrik Hrij (Nat2Z.is_nonneg n0)
              (Nat2Z.is_nonneg n1) Hbuf') as (m' & Hrun & Hin & Hout & _).
  exists m, m'. split; [exact Hm|]. split; [exact Hrun|].
  rewrite <- Nat2Z.inj_mul in Hin, Hout.
  split; [|split].
  - intros idx x Hidx Hx.
    pose proof (offset_F_lt _ _ Hidx) as HF.
    assert (Hsize : size (shape arr) = (n0 * n1)%nat) by (rewrite Hshape; simpl; lia).
    rewrite Hin by lia. rewrite (Helem idx x Hidx Hx). reflexivity.
  - unfold read_int. rewrite Hout by exact Hik. exact Hrik.
  - unfold read_int. rewrite Hout by exact Hij. exact Hrij.
Qed.

(** The cells up to the call, for a two dimensional array. *)
Lemma array_call_2d lib name a ik ij (arr : ndarray spec_float) n0 n1 eax m :
  shape arr = [n0; n1] ->
  array_memory a ik ij arr n0 n1 = Some m ->
  array_call lib name a ik ij arr eax = invoke lib name [a; ik; ij] eax m.
Proof.
  intros Hshape Hm. unfold array_call, shape_item. rewrite Hshape. cbn [nth_error].
  rewrite Hm. reflexivity.
Qed.

(** Property X11.  The array cells of the notebook, for any two
    dimensional array [arr] of Python floats whose extents fit
    [np.int32]: the array is converted to a column-major single precision
    buffer at [a], its extents are stored at [ik] and [ij] outside the
    buffer, and the library is called under either of its two names.  The
    call returns the return register as an integer and the extents are
    unchanged.  The element of the buffer that belongs to a multi-index
    [idx] holds the single precision square [r] of the single precision
    conversion [v] of [arr[idx]]: [v] is what [arr[idx]] rounds to, and [r]
    is NaN for a NaN [v], [+infinity] for an infinite one, and else not
    NaN and either finite and within rounding tolerance of the exact
    [v * v] or [+infinity], which it is exactly when [v * v] is at least
    [2^128 - 2^103]. *)
Theorem array_cells_square_elementwise name a ik ij (arr : ndarray spec_float) n0 n1 eax :
  name = "square_"%string \/ name = "wrapper_square"%string ->
  shape arr = [n0; n1] ->
  length (buffer arr) = size (shape arr) ->
  Z.of_nat n0 < 2 ^ 31 -> Z.of_nat n1 < 2 ^ 31 ->
  ik <> ij ->
  ~ (a <= ik < a + Z.of_nat (n0 * n1)) ->
  ~ (a <= ij < a + Z.of_nat (n0 * n1)) ->
  exists m',
    array_call subroutines_so_wrappers name a ik ij arr eax
    = Returned (PyInt (c_int_of_register eax)) m' /\
    (forall idx x, valid_index (shape arr) idx = true -> getitem arr idx = Some x ->
       exists v r,
         read_real m' (a + Z.of_nat (offset_F (shape arr) idx)) = Some r /\
         v = c_float_of_double x /\
         r = f32_square v /\
         is_rounded_value prec32 emax32 x v /\
         is_rounded_square prec32 emax32 v r /\
         (is_finite_SF r = false <->
          (is_finite_SF v = false \/ (overflow_threshold32 <= SF2R v * SF2R v)%R))) /\
    read_int m' ik = Some (Z.of_nat n0) /\
    read_int m' ij = Some (Z.of_nat n1).
Proof.
  intros Hname Hshape Hwf Hn0 Hn1 Hne Hik Hij.
  destruct (array_memory_square a ik ij arr n0 n1 Hshape Hwf Hn0 Hn1 Hne Hik Hij)
    as (m & m' & Hm & Hrun & Helem & Hrest).
  exists m'. split.
  { rewrite (array_call_2d _ _ _ _ _ _ _ _ _ _ Hshape Hm).
    rewrite (invoke_wrappers name a ik ij eax _ Hname), Hrun. reflexivity. }
  split; [|exact Hrest].
  intros idx x Hidx Hx.
  exists (c_float_of_double x), (f32_square (c_float_of_double x)).
  split; [apply Helem; assumption|].
  split; [reflexivity|]. split; [reflexivity|].
  split; [apply c_float_of_double_is_rounded_value|].
  split; [apply f32_square_is_rounded_square|].
  apply f32_square_infinite_iff. apply c_float_of_double_valid.
Qed.

Lemma array_cells_square_elementwise_witness :
  exists m',
    array_call subroutines_so_wrappers "wrapper_square" 0 100 101 target_array_printed 3
    = Returned (PyInt (c_int_of_register 3)) m' /\
    (forall idx x, valid_index [2%nat; 2%nat] idx = true ->
       getitem target_array_printed idx = Some x ->
       exists v r,
         read_real m' (0 + Z.of_nat (offset_F [2%nat; 2%nat] idx)) = Some r /\
         v = c_float_of_double x /\
         r = f32_square v /\
         is_rounded_value prec32 emax32 x v /\
         is_rounded_square prec32 emax32 v r /\
         (is_finite_SF r = false <->
          (is_finite_SF v = false \/ (overflow_threshold32 <= SF2R v * SF2R v)%R))) /\
    read_int m' 100 = Some 2 /\
    read_int m' 101 = Some 2.
Proof.
  apply (array_cells_square_elementwise "wrapper_square" 0 100 101 target_array_printed
           2%nat 2%nat 3);
    [right; reflexivity | reflexivity | reflexivity | reflexivity | reflexivity
     | lia | simpl; lia | simpl; lia].
Defined.

(** Property X12.  The same cells on a two dimensional array whose extents
    fit [np.int32] and whose elements are finite and at most [2^63] in
    magnitude, as those of [np.random.random] are: the call returns and
    every element of the buffer is then a finite number within
    [2^-22 * x^2] plus the smallest subnormal of the exact square of the
    element [x] of the original array. *)
Theorem array_cells_square_within_tolerance name a ik ij (arr : ndarray spec_float)
    n0 n1 eax :
  name = "square_"%string \/ name = "wrapper_square"%string ->
  shape arr = [n0; n1] ->
  length (buffer arr) = size (shape arr) ->
  Z.of_nat n0 < 2 ^ 31 -> Z.of_nat n1 < 2 ^ 31 ->
  ik <> ij ->
  ~ (a <= ik < a + Z.of_nat (n0 * n1)) ->
  ~ (a <= ij < a + Z.of_nat (n0 * n1)) ->
  (forall x, In x (buffer arr) -> is_finite_SF x = true /\ (Rabs (SF2R x) <= pow2 63)%R) ->
  exists m',
    memory_after (array_call subroutines_so_wrappers name a ik ij arr eax) = Some m' /\
    forall idx, valid_index (shape arr) idx = true ->
      exists x r,
        getitem arr idx = Some x /\
        read_real m' (a + Z.of_nat (offset_F (shape arr) idx)) = Some r /\
        within_tolerance32 (pow2 (-22)) (SF2R x * SF2R x) r.
Proof.
  intros Hname Hshape Hwf Hn0 Hn1 Hne Hik Hij Hrange.
  destruct (array_memory_square a ik ij arr n0 n1 Hshape Hwf Hn0 Hn1 Hne Hik Hij)
    as (m & m' & Hm & Hrun & Helem & _).
  exists m'. split.
  { rewrite (array_call_2d _ _ _ _ _ _ _ _ _ _ Hshape Hm).
    rewrite (invoke_wrappers name a ik ij eax _ Hname), Hrun. reflexivity. }
  intros idx Hidx.
  destruct (getitem_valid arr idx Hwf Hidx) as [x Hx].
  exists x, (f32_square (c_float_of_double x)).
  split; [exact Hx|]. split; [apply Helem; assumption|].
  destruct (Hrange x) as [Hfin Hle].
  { unfold getitem in Hx. apply nth_error_In in Hx. exact Hx. }
  pose proof (boxed_square_finite x Hfin Hle) as Hr.
  split; [exact Hr | apply boxed_square_error; assumption].
Qed.

Lemma SF2R_abs_le_pow2 s m e t :
  Zpos (digits2_pos m) + e <= t -> (Rabs (SF2R (S754_finite s m e)) <= pow2 t)%R.
Proof.
  intros H. simpl SF2R. rewrite IZR_cond_Zopp, Rmult_assoc, Rabs_sign_factor_mult.
  pose proof (pow2_pos e).
  rewrite Rabs_pos_eq by (apply Rmult_le_pos; [apply IZR_le; lia | lra]).
  pose proof (digits2_bounds m) as [_ Hhi].
  apply Rle_trans with (pow2 (Zpos (digits2_pos m)) * pow2 e)%R.
  - apply Rmult_le_compat_r; [lra|]. rewrite pow2_IZR by lia. apply IZR_le. lia.
  - rewrite <- pow2_add. apply pow2_le. exact H.
Qed.

Lemma array_cells_square_within_tolerance_witness :
  exists m',
    memory_after (array_call subroutines_so_wrappers "square_" 0 100 101
                    target_array_printed 3) = Some m' /\
    forall idx, valid_index (shape target_array_printed) idx = true ->
      exists x r,
        getitem target_array_printed idx = Some x /\
        read_real m' (0 + Z.of_nat (offset_F (shape target_array_printed) idx)) = Some r /\
        within_tolerance32 (pow2 (-22)) (SF2R x * SF2R x) r.
Proof.
  apply (array_cells_square_within_tolerance "square_" 0 100 101 target_array_printed
           2%nat 2%nat 3);
    [left; reflexivity | reflexivity | reflexivity | reflexivity | reflexivity
     | lia | simpl; lia | simpl; lia |].
  intros x Hx. simpl in Hx.
  repeat destruct Hx as [<- | Hx]; try contradiction;
    (split; [vm_compute; reflexivity|]);
    match goal with
    | |- (Rabs (SF2R ?d) <= _)%R =>
        let v := eval vm_compute in d in
        replace d with v by (vm_compute; reflexivity)
    end;
    apply SF2R_abs_le_pow2; vm_compute; discriminate.
Defined.


(** ** The value of a foreign call *)

Lemma c_int_of_register_range r :
  - 2 ^ 31 <= c_int_of_register r < 2 ^ 31 /\
  (c_int_of_register r - r) mod 2 ^ 32 = 0 /\
  (- 2 ^ 31 <= r < 2 ^ 31 -> c_int_of_register r = r).
Proof.
  unfold c_int_of_register. cbv zeta.
  pose proof (Z.mod_pos_bound r (2 ^ 32) ltac:(lia)) as Hu.
  pose proof (Z.div_mod r (2 ^ 32) ltac:(lia)) as Hdm.
  set (u := r mod 2 ^ 32) in *. set (q := r / 2 ^ 32) in *.
  change (2 ^ 32) with 4294967296 in *. change (2 ^ 31) with 2147483648 in *.
  destruct (Z.ltb_spec u 2147483648) as [Hlt | Hge].
  - split; [lia|]. split.
    + replace (u - r) with ((- q) * 4294967296) by lia. apply Z.mod_mul. lia.
    + intros Hr. lia.
  - split; [lia|]. split.
    + replace (u - 4294967296 - r) with ((- q - 1) * 4294967296) by lia. apply Z.mod_mul. lia.
    + intros Hr. lia.
Qed.

(** Property X13.  What a returning foreign call evaluates to is a C
    [int]: a Python integer in [-2^31, 2^31) that agrees with the return
    register modulo [2^32], and is the register itself when that is in
    range. *)
Theorem foreign_call_result_is_c_int lib name args eax (m m' : gmap Z cell) v :
  invoke lib name args eax m = Returned v m' ->
  exists n,
    v = PyInt n /\
    - 2 ^ 31 <= n < 2 ^ 31 /\
    (n - eax) mod 2 ^ 32 = 0 /\
    (- 2 ^ 31 <= eax < 2 ^ 31 -> n = eax).
Proof.
  unfold invoke. destruct (CDLL_getattr lib name) as [e | h]; [discriminate|].
  unfold call_funcptr. destruct (text lib h) as [f|]; [|discriminate].
  destruct (f args m) as [m1|]; [|discriminate].
  intros H. injection H as <- <-.
  exists (c_int_of_register eax). split; [reflexivity|].
  apply c_int_of_register_range.
Qed.

Lemma foreign_call_result_is_c_int_witness :
  exists n,
    PyInt (c_int_of_register (2 ^ 32 + 3)) = PyInt n /\
    - 2 ^ 31 <= n < 2 ^ 31 /\
    (n - (2 ^ 32 + 3)) mod 2 ^ 32 = 0 /\
    (- 2 ^ 31 <= 2 ^ 32 + 3 < 2 ^ 31 -> n = 2 ^ 32 + 3).
Proof.
  apply (foreign_call_result_is_c_int subroutines_so_scalar "square_" [0] (2 ^ 32 + 3)
           (<[0 := CReal (S754_zero false)]> ∅)
           (<[0 := CReal (f32_square (S754_zero false))]> (<[0 := CReal (S754_zero false)]> ∅))).
  reflexivity.
Defined.


(** ** The double precision array routine *)

Lemma read_double_insert_eq (m : gmap Z cell64) p y :
  read_double (<[p := DReal y]> m) p = Some y.
Proof. unfold read_double. rewrite lookup_insert_eq. reflexivity. Qed.

Lemma read_double_insert_ne (m : gmap Z cell64) p q c :
  p <> q -> read_double (<[p := c]> m) q = read_double m q.
Proof. intros H. unfold read_double. rewrite lookup_insert_ne by exact H. reflexivity. Qed.

Lemma dom_insert_double (m : gmap Z cell64) p x c :
  read_double m p = Some x -> dom (<[p := c]> m) = dom m.
Proof.
  intros H. unfold read_double in H.
  assert (Hp : p ∈ dom m).
  { apply elem_of_dom. destruct (m !! p); [eauto | discriminate]. }
  rewrite dom_insert_L.
  apply set_eq. intros q. rewrite elem_of_union, elem_of_singleton.
  split; [intros [-> | Hq]; assumption | auto].
Qed.

Lemma do_loop64_ext n body1 body2 :
  (forall i m, body1 i m = body2 i m) ->
  forall lo m, do_loop64 n body1 lo m = do_loop64 n body2 lo m.
Proof.
  intros Hext. induction n as [|n IH]; intros lo m; simpl; [reflexivity|].
  rewrite Hext. destruct (body2 lo m); [apply IH | reflexivity].
Qed.

(** A loop over the elements number [lo], [lo + 1], ... counted from the
    byte address [c]. *)
Lemma do_loop64_update_range f c n :
  forall lo (m : gmap Z cell64),
    (forall k, lo <= k < lo + Z.of_nat n -> is_Some (read_double m (c + 8 * k))) ->
    exists m',
      do_loop64 n (fun i => update_double f (c + 8 * i)) lo m = Some m' /\
      (forall k, lo <= k < lo + Z.of_nat n ->
                 read_double m' (c + 8 * k) = f <$> read_double m (c + 8 * k)) /\
      (forall p, (forall k, lo <= k < lo + Z.of_nat n -> p <> c + 8 * k) ->
                 m' !! p = m !! p) /\
      dom m' = dom m.
Proof.
  induction n as [|n IH]; intros lo m Hbuf.
  - exists m. simpl. repeat split; try reflexivity. intros k Hk. lia.
  - destruct (Hbuf lo ltac:(lia)) as [x Hx].
    simpl do_loop64. unfold update_double at 1. rewrite Hx.
    destruct (IH (lo + 1) (<[c + 8 * lo := DReal (f x)]> m)) as (m' & Hrun & Hin & Hout & Hdom).
    { intros k Hk. rewrite read_double_insert_ne by lia. apply Hbuf. lia. }
    exists m'. split; [exact Hrun|]. repeat split.
    + intros k Hk. destruct (Z.eq_dec k lo) as [-> | Hne].
      * unfold read_double at 1. rewrite Hout by (intros k Hk'; lia).
        rewrite lookup_insert_eq, Hx. reflexivity.
      * rewrite Hin by lia. rewrite read_double_insert_ne by lia. reflexivity.
    + intros p Hp. rewrite Hout by (intros k Hk; apply Hp; lia).
      apply lookup_insert_ne. intros E. apply (Hp lo); [lia | congruence].
    + rewrite Hdom. eapply dom_insert_double. exact Hx.
Qed.

(** The nested loops of the array assignment, column after column. *)
Lemma do_loop64_columns f a w :
  0 <= w ->
  forall n lo (m : gmap Z cell64),
    (forall k, (lo - 1) * w <= k < (lo - 1) * w + Z.of_nat n * w ->
               is_Some (read_double m (a + 8 * k))) ->
    exists m',
      do_loop64 n (fun j => fortran_do64 1 w (fun i => update_double f (elem_addr64 a w i j)))
        lo m = Some m' /\
      (forall k, (lo - 1) * w <= k < (lo - 1) * w + Z.of_nat n * w ->
                 read_double m' (a + 8 * k) = f <$> read_double m (a + 8 * k)) /\
      (forall p, (forall k, (lo - 1) * w <= k < (lo - 1) * w + Z.of_nat n * w ->
                            p <> a + 8 * k) -> m' !! p = m !! p) /\
      dom m' = dom m.
Proof.
  intros Hw. induction n as [|n IH]; intros lo m Hbuf.
  - exists m. simpl. repeat split; try reflexivity. intros k Hk. lia.
  - simpl do_loop64. unfold fortran_do64 at 1.
    rewrite (do_loop64_ext _ _ (fun i => update_double f ((a + 8 * ((lo - 1) * w - 1)) + 8 * i)))
      by (intros i m0; unfold elem_addr64; f_equal; lia).
    replace (Z.to_nat (w - 1 + 1)) with (Z.to_nat w) by lia.
    destruct (do_loop64_update_range f (a + 8 * ((lo - 1) * w - 1)) (Z.to_nat w) 1 m)
      as (m1 & Hrun1 & Hin1 & Hout1 & Hdom1).
    { intros k Hk.
      replace (a + 8 * ((lo - 1) * w - 1) + 8 * k) with (a + 8 * ((lo - 1) * w + (k - 1))) by lia.
      apply Hbuf. nia. }
    rewrite Hrun1.
    assert (Hkeep : forall k, (lo - 1) * w + w <= k -> m1 !! (a + 8 * k) = m !! (a + 8 * k)).
    { intros k Hk. apply Hout1. intros k' Hk'. lia. }
    destruct (IH (lo + 1) m1) as (m' & Hrun & Hin & Hout & Hdom).
    { intros k Hk. unfold read_double. rewrite Hkeep by nia. apply Hbuf. nia. }
    exists m'. split; [exact Hrun|]. repeat split.
    + intros k Hk.
      destruct (Z_lt_le_dec k ((lo - 1) * w + w)) as [Hlt | Hge].
      * unfold read_double at 1. rewrite Hout by (intros k' Hk'; nia).
        change (match m1 !! (a + 8 * k) with
                | Some (DReal x) => Some x
                | _ => None
                end) with (read_double m1 (a + 8 * k)).
        replace (a + 8 * k) with (a + 8 * ((lo - 1) * w - 1) + 8 * (k - (lo - 1) * w + 1)) by lia.
        apply Hin1. lia.
      * rewrite Hin by nia. unfold read_double at 1. rewrite Hkeep by lia. reflexivity.
    + intros p Hp. rewrite Hout by (intros k Hk; apply Hp; nia).
      apply Hout1. intros k Hk E. apply (Hp ((lo - 1) * w + (k - 1))); [nia | lia].
    + rewrite Hdom. exact Hdom1.
Qed.

(** What [sq1] does to memory. *)
Lemma sq1_spec a ij ik (m : gmap Z cell64) nij nik :
  read_c_int m ij = Some nij ->
  read_c_int m ik = Some nik ->
  0 <= nij -> 0 <= nik ->
  (forall k, 0 <= k < nij * nik -> is_Some (read_double m (a + 8 * k))) ->
  exists m',
    SubroutinesDouble.sq1 a ij ik m = Some m' /\
    (forall k, 0 <= k < nij * nik ->
               read_double m' (a + 8 * k) = f64_square <$> read_double m (a + 8 * k)) /\
    (forall p, (forall k, 0 <= k < nij * nik -> p <> a + 8 * k) -> m' !! p = m !! p) /\
    dom m' = dom m.
Proof.
  intros Hij Hik Hnij Hnik Hbuf.
  unfold SubroutinesDouble.sq1. rewrite Hij, Hik.
  unfold fortran_do64 at 1. replace (Z.to_nat (nik - 1 + 1)) with (Z.to_nat nik) by lia.
  destruct (do_loop64_columns f64_square a nij Hnij (Z.to_nat nik) 1 m)
    as (m' & Hrun & Hin & Hout & Hdom).
  { intros k Hk. apply Hbuf. nia. }
  exists m'. split; [exact Hrun|]. repeat split.
  - intros k Hk. apply Hin. nia.
  - intros p Hp. apply Hout. intros k Hk. apply Hp. nia.
  - exact Hdom.
Qed.

Lemma double_buffer_spec (m : gmap Z cell64) p n :
  double_buffer m p n = true ->
  forall k, 0 <= k < Z.of_nat n -> is_Some (read_double m (p + 8 * k)).
Proof.
  unfold double_buffer. intros H k Hk.
  rewrite forallb_forall in H.
  specialize (H (Z.to_nat k)).
  rewrite Z2Nat.id in H by lia.
  destruct (read_double m (p + 8 * k)); [eauto|].
  exfalso. assert (false = true); [|discriminate].
  apply H. apply in_seq. lia.
Qed.

(** [a**2] on a finite double. *)
Lemma f64_square_finite s m e :
  let x := S754_finite s m e in
  let r := f64_square x in
  r <> S754_nan /\
  (is_finite_SF r = true ->
   within_rounding prec64 emax64 (SF2R x * SF2R x) (SF2R r)) /\
  (is_finite_SF r = false -> r = S754_infinity false).
Proof.
  intros x r.
  assert (Hprec : 0 < prec64) by reflexivity.
  pose proof (binary_round_aux_signed prec64 emax64 Hprec (xorb s s) (m * m) (e + e))
    as (Hnan & Hfin & _ & Hinf & _ & _).
  unfold r, f64_square, x. rewrite SFmul_finite, SF2R_mul_finite.
  split; [exact Hnan|]. split; [exact Hfin|].
  intros Hnf.
  destruct (binary_round_aux prec64 emax64 (xorb s s) (Zpos (m * m)) (e + e) loc_Exact)
    as [| s' | |] eqn:E; try discriminate Hnf; [|congruence].
  rewrite (Hinf s' eq_refl), xorb_nilpotent. reflexivity.
Qed.




(** Property X15.  An element of the buffer that holds a finite double
    [x] holds after [sq1] a value that is not NaN: either a finite number
    within double precision rounding of the exact [x * x], or
    [+infinity]. *)
Theorem sq1_within_rounding a ij ik (m : gmap Z cell64) nij nik i j x :
  read_c_int m ij = Some nij ->
  read_c_int m ik = Some nik ->
  double_buffer m a (Z.to_nat (nij * nik)) = true ->
  1 <= i <= nij -> 1 <= j <= nik ->
  read_double m (elem_addr64 a nij i j) = Some x ->
  is_finite_SF x = true ->
  exists m' r,
    SubroutinesDouble.sq1 a ij ik m = Some m' /\
    read_double m' (elem_addr64 a nij i j) = Some r /\
    r <> S754_nan /\
    (is_finite_SF r = true ->
     within_rounding prec64 emax64 (SF2R x * SF2R x) (SF2R r)) /\
    (is_finite_SF r = false -> r = S754_infinity false).
Proof.
  intros Hij Hik Hbuf Hi Hj Hx Hfin.
  pose proof (double_buffer_spec _ _ _ Hbuf) as Hb.
  rewrite Z2Nat.id in Hb by nia.
  destruct (sq1_spec a ij ik m nij nik Hij Hik ltac:(lia) ltac:(lia) Hb)
    as (m' & Hrun & Hin & _ & _).
  exists m', (f64_square x). split; [exact Hrun|].
  split.
  { unfold elem_addr64 in *. rewrite Hin by nia. rewrite Hx. reflexivity. }
  destruct x as [s | s | | s mx ex]; try discriminate Hfin.
  - simpl. rewrite xorb_nilpotent. split; [discriminate|].
    split; [|discriminate]. intros _. left. simpl.
    rewrite Rmult_0_l, Rminus_diag, Rabs_R0, Rmult_0_r. lra.
  - apply f64_square_finite.
Qed.

Lemma sq1_within_rounding_witness :
  exists m' r,
    SubroutinesDouble.sq1 0 100 104 sq1_example_memory = Some m' /\
    read_double m' (elem_addr64 0 2 1 1) = Some r /\
    r <> S754_nan /\
    (is_finite_SF r = true ->
     within_rounding prec64 emax64
       (SF2R (S754_finite false 6755399441055744 (-52))
        * SF2R (S754_finite false 6755399441055744 (-52))) (SF2R r)) /\
    (is_finite_SF r = false -> r = S754_infinity false).
Proof.
  apply (sq1_within_rounding 0 100 104 sq1_example_memory 2 1 1 1);
    first [lia | vm_compute; reflexivity].
Defined.
